(** * Tidal music skill: resilience and state layer

    A shallow embedding of the JavaScript sources

    - [lambda/services/cacheService.js]   ([CacheEntry], [CacheService],
      [TokenPersistenceService]),
    - [lambda/clients/tidalApiClient.js]  ([TidalApiClient.requestWithRetry]),
    - [lambda/services/tidalService.js]   ([TidalService._executeWithTokenRefresh],
      [PlaybackPersistenceService]),
    - the music handlers ([AudioPlayerEventHandler.handle]),
    - [lambda/services/dynamoDbService.js] ([DynamoDbService], and the
      [TidalService] that calls the client directly),
    - [lambda/utils/logger.js]            ([sanitizeData]),

    and the properties of the specification that concern them, followed by
    further properties of the same code.

    Conventions.  JavaScript values are the inductive [JsValue]; numbers that
    the code keeps integral (indices, offsets, epoch milliseconds, sizes) are
    [Z], the jittered delay is a rational [Q].  A JavaScript [Map] is an
    association list in insertion order.  [Date.now()] readings are made
    explicit: synchronous code receives them as arguments in the order the
    source takes them, asynchronous code reads them from the environment. *)

From Stdlib Require Import String Ascii List ZArith QArith Bool Lia DecimalString.
Import ListNotations.

Set Warnings "-register-all".

Local Open Scope string_scope.
Local Open Scope Z_scope.

(** ** JavaScript values *)

Inductive JsValue : Type :=
| JUndefined
| JNull
| JBool (b : bool)
| JNum (n : Z)
| JNaN
| JStr (s : string)
| JArr (items : list JsValue)
| JObj (props : list (string * JsValue)).

(** [ToBoolean]. *)
Definition truthy (v : JsValue) : bool :=
  match v with
  | JUndefined | JNull | JNaN => false
  | JBool b => b
  | JNum n => negb (n =? 0)
  | JStr s => negb (String.eqb s "")
  | JArr _ | JObj _ => true
  end.

(** A string used as a condition: only the empty string is falsy. *)
Definition truthy_string (s : string) : bool := negb (String.eqb s "").

(** ** JavaScript [Map]: association list in insertion order *)

Section JsMap.
Context {V : Type}.

Definition JsMap := list (string * V).

Fixpoint map_get (k : string) (m : JsMap) : option V :=
  match m with
  | [] => None
  | (k', v) :: m' => if String.eqb k k' then Some v else map_get k m'
  end.

Definition map_has (k : string) (m : JsMap) : bool :=
  match map_get k m with Some _ => true | None => false end.

(** [Map.prototype.set]: an existing key keeps its position. *)
Fixpoint map_set (k : string) (v : V) (m : JsMap) : JsMap :=
  match m with
  | [] => [(k, v)]
  | (k', v') :: m' =>
      if String.eqb k k' then (k, v) :: m' else (k', v') :: map_set k v m'
  end.

Definition map_delete (k : string) (m : JsMap) : JsMap :=
  filter (fun kv => negb (String.eqb k (fst kv))) m.

Definition map_size (m : JsMap) : Z := Z.of_nat (length m).

Definition map_keys (m : JsMap) : list string := List.map fst m.
End JsMap.

Arguments JsMap V : clear implicits.

(** ** The in-memory cache ([CacheEntry], [CacheService]) *)

Module Cache.

Record CacheEntry := mkEntry {
  value : JsValue;
  expiresAt : Z;
  createdAt : Z;
  hits : Z;
  lastAccess : option Z
}.

(** [new CacheEntry(value, ttl)]; [t1] and [t2] are the two successive
    [Date.now()] readings of the constructor. *)
Definition newCacheEntry (v : JsValue) (ttl : Z) (t1 t2 : Z) : CacheEntry :=
  {| value := v;
     expiresAt := t1 + ttl * 1000;
     createdAt := t2;
     hits := 0;
     lastAccess := None |}.

Definition isExpired (e : CacheEntry) (now : Z) : bool := now >? expiresAt e.

Definition hit (e : CacheEntry) (now : Z) : CacheEntry :=
  {| value := value e;
     expiresAt := expiresAt e;
     createdAt := createdAt e;
     hits := hits e + 1;
     lastAccess := Some now |}.

Definition getAge (e : CacheEntry) (now : Z) : Z := now - createdAt e.

Record Stats := mkStats {
  stats_hits : Z;
  stats_misses : Z;
  stats_evictions : Z;
  stats_sets : Z;
  stats_expired : Z
}.

Record CacheService := mkCache {
  enabled : bool;
  defaultTTL : Z;
  maxSize : Z;
  caches : JsMap (JsMap CacheEntry);
  stats : Stats
}.

Definition with_caches (c : CacheService) (m : JsMap (JsMap CacheEntry)) :=
  {| enabled := enabled c; defaultTTL := defaultTTL c; maxSize := maxSize c;
     caches := m; stats := stats c |}.

Definition with_stats (c : CacheService) (s : Stats) :=
  {| enabled := enabled c; defaultTTL := defaultTTL c; maxSize := maxSize c;
     caches := caches c; stats := s |}.

Definition incr_hits (s : Stats) :=
  mkStats (stats_hits s + 1) (stats_misses s) (stats_evictions s) (stats_sets s) (stats_expired s).
Definition incr_misses (s : Stats) :=
  mkStats (stats_hits s) (stats_misses s + 1) (stats_evictions s) (stats_sets s) (stats_expired s).
Definition incr_evictions (s : Stats) :=
  mkStats (stats_hits s) (stats_misses s) (stats_evictions s + 1) (stats_sets s) (stats_expired s).
Definition incr_sets (s : Stats) :=
  mkStats (stats_hits s) (stats_misses s) (stats_evictions s) (stats_sets s + 1) (stats_expired s).
Definition add_expired (n : Z) (s : Stats) :=
  mkStats (stats_hits s) (stats_misses s) (stats_evictions s) (stats_sets s) (stats_expired s + n).

(** The [Map] object of a namespace, as the cache currently holds it
    (empty when the namespace was never touched). *)
Definition namespace (c : CacheService) (ns : string) : JsMap CacheEntry :=
  match map_get ns (caches c) with
  | Some m => m
  | None => []
  end.

(** [_getCache]: creates the namespace on first use. *)
Definition _getCache (c : CacheService) (ns : string) : JsMap CacheEntry * CacheService :=
  if map_has ns (caches c)
  then (namespace c ns, c)
  else ([], with_caches c (map_set ns [] (caches c))).

(** In-place mutation of the namespace's [Map] object. *)
Definition put_namespace (c : CacheService) (ns : string) (m : JsMap CacheEntry) :=
  with_caches c (map_set ns m (caches c)).

(** The scan of [_evictOne]: keeps the first entry whose [createdAt] is
    strictly smaller than every entry seen before it. *)
Definition older (acc : option (string * CacheEntry)) (kv : string * CacheEntry) :=
  match acc with
  | None => Some kv
  | Some (_, oldestEntry) =>
      if createdAt (snd kv) <? createdAt oldestEntry then Some kv else acc
  end.

Definition oldest (m : JsMap CacheEntry) : option (string * CacheEntry) :=
  fold_left older m None.

Definition _evictOne (c : CacheService) (ns : string) : CacheService :=
  let '(cache, c1) := _getCache c ns in
  if map_size cache <? maxSize c1 then c1
  else
    match oldest cache with
    | Some (oldestKey, _) =>
        (* [if (oldestKey)]: the key is tested for truthiness *)
        if truthy_string oldestKey
        then with_stats (put_namespace c1 ns (map_delete oldestKey cache))
                        (incr_evictions (stats c1))
        else c1
    | None => c1
    end.

(** [set(namespace, key, value, ttl = this.defaultTTL)]. *)
Definition set (c : CacheService) (ns key : string) (v : JsValue)
           (ttl : option Z) (t1 t2 : Z) : JsValue * CacheService :=
  if negb (enabled c) then (v, c)
  else
    let ttl := match ttl with Some t => t | None => defaultTTL c end in
    let '(cache, c1) := _getCache c ns in
    let c2 := if map_size cache >=? maxSize c1 then _evictOne c1 ns else c1 in
    let entry := newCacheEntry v ttl t1 t2 in
    let c3 := put_namespace c2 ns (map_set key entry (namespace c2 ns)) in
    (v, with_stats c3 (incr_sets (stats c3))).

(** [get(namespace, key)]; [now] is the reading of [isExpired], [now']
    the one of [hit]. *)
Definition get (c : CacheService) (ns key : string) (now now' : Z)
  : JsValue * CacheService :=
  if negb (enabled c) then (JUndefined, c)
  else
    let '(cache, c1) := _getCache c ns in
    match map_get key cache with
    | None => (JUndefined, with_stats c1 (incr_misses (stats c1)))
    | Some entry =>
        if isExpired entry now
        then
          let c2 := put_namespace c1 ns (map_delete key cache) in
          (JUndefined, with_stats c2 (incr_misses (add_expired 1 (stats c2))))
        else
          let c2 := put_namespace c1 ns (map_set key (hit entry now') cache) in
          (value entry, with_stats c2 (incr_hits (stats c2)))
    end.

Definition has (c : CacheService) (ns key : string) (now : Z) : bool * CacheService :=
  if negb (enabled c) then (false, c)
  else
    let '(cache, c1) := _getCache c ns in
    match map_get key cache with
    | None => (false, c1)
    | Some entry =>
        if isExpired entry now
        then
          let c2 := put_namespace c1 ns (map_delete key cache) in
          (false, with_stats c2 (add_expired 1 (stats c2)))
        else (true, c1)
    end.

Definition delete (c : CacheService) (ns key : string) : bool * CacheService :=
  if negb (enabled c) then (false, c)
  else
    let '(cache, c1) := _getCache c ns in
    (map_has key cache, put_namespace c1 ns (map_delete key cache)).

(** [cleanup()]: the periodic sweep; every entry is tested at [now]. *)
Definition sweep_namespace (now : Z) (m : JsMap CacheEntry) : JsMap CacheEntry :=
  filter (fun kv => negb (isExpired (snd kv) now)) m.

Definition cleanup (c : CacheService) (now : Z) : Z * CacheService :=
  if negb (enabled c) then (0, c)
  else
    let swept := List.map (fun nm => (fst nm, sweep_namespace now (snd nm))) (caches c) in
    let removed :=
      fold_left (fun acc nm => acc + (map_size (snd nm) - map_size (sweep_namespace now (snd nm))))
                (caches c) 0 in
    let c1 := with_caches c swept in
    (removed, if removed >? 0 then with_stats c1 (add_expired removed (stats c1)) else c1).

(** [clear(namespace)]: with a namespace, its map is emptied in place;
    with a falsy one (none given, or the empty string) every namespace is
    dropped.  The statistics stay. *)
Definition clear (c : CacheService) (ns : option string) : CacheService :=
  if negb (enabled c) then c
  else
    match ns with
    | Some n =>
        if truthy_string n
        then let '(_, c1) := _getCache c n in put_namespace c1 n []
        else with_caches c []
    | None => with_caches c []
    end.

(** [size()]: the entries of all namespaces. *)
Definition size (c : CacheService) : Z :=
  fold_left (fun total nm => total + map_size (snd nm)) (caches c) 0.

(** [static makeKey(...args)] is a property of the class [CacheService];
    the module exports an instance ([module.exports = new CacheService()]),
    which has the methods above and no [makeKey]. *)

Definition empty_stats : Stats := mkStats 0 0 0 0 0.

(** [configured || fallback] on a number read from the configuration. *)
Definition or_default (configured : option Z) (fallback : Z) : Z :=
  match configured with
  | Some n => if n =? 0 then fallback else n
  | None => fallback
  end.

(** The state the constructor leaves: [enabled = (cacheConfig.enabled !== false)],
    [defaultTTL = cacheConfig.defaultTTL || 300],
    [maxSize = cacheConfig.maxSize || 1000]. *)
Definition create (cfg_enabled : bool) (cfg_defaultTTL cfg_maxSize : option Z) : CacheService :=
  mkCache cfg_enabled (or_default cfg_defaultTTL 300) (or_default cfg_maxSize 1000)
          [] empty_stats.

End Cache.

(** ** Objects, coercions, JSON *)

Definition obj_get (k : string) (props : list (string * JsValue)) : JsValue :=
  match map_get k props with
  | Some v => v
  | None => JUndefined
  end.

Definition string_of_Z (n : Z) : string :=
  DecimalString.NilZero.string_of_int (Z.to_int n).

Definition string_of_nat (n : nat) : string := string_of_Z (Z.of_nat n).

(** Decimal integer literals, as [ToNumber] reads them from a string; the
    empty string is [0]; anything else is [NaN] ([None]).  Fractions,
    exponents, hexadecimal and surrounding blanks are not read. *)
Definition Z_of_string (s : string) : option Z :=
  if String.eqb s "" then Some 0
  else option_map Z.of_int (DecimalString.NilZero.int_of_string s).

(** [ToString] (integers are printed in full, without exponent). *)
Fixpoint to_string (v : JsValue) : string :=
  match v with
  | JUndefined => "undefined"
  | JNull => "null"
  | JBool true => "true"
  | JBool false => "false"
  | JNum n => string_of_Z n
  | JNaN => "NaN"
  | JStr s => s
  | JArr items =>
      String.concat ","
        (List.map (fun x => match x with
                            | JUndefined | JNull => ""
                            | _ => to_string x
                            end) items)
  | JObj _ => "[object Object]"
  end.

(** [ToNumber]; [None] is [NaN].  An array or object is first turned into
    its string. *)
Definition to_number (v : JsValue) : option Z :=
  match v with
  | JNum n => Some n
  | JNull => Some 0
  | JBool true => Some 1
  | JBool false => Some 0
  | JStr s => Z_of_string s
  | JUndefined | JNaN => None
  | JArr _ | JObj _ => Z_of_string (to_string v)
  end.

Definition of_number (n : option Z) : JsValue :=
  match n with
  | Some z => JNum z
  | None => JNaN
  end.

(** [v + 1]: concatenation when [v] is (or becomes) a string, addition
    otherwise. *)
Definition plus_one (v : JsValue) : JsValue :=
  match v with
  | JStr _ | JArr _ | JObj _ => JStr (to_string v ++ "1")
  | _ => of_number (option_map (fun n => n + 1) (to_number v))
  end.

(** [a < b] when [b] is a number ([None] for [NaN]). *)
Definition less_than (a : JsValue) (b : option Z) : bool :=
  match to_number a, b with
  | Some x, Some y => x <? y
  | _, _ => false
  end.

Fixpoint chars (s : string) : list string :=
  match s with
  | EmptyString => []
  | String a s' => String a EmptyString :: chars s'
  end.

Definition indexed {A : Type} (l : list A) : list (string * A) :=
  List.map (fun p => (string_of_nat (fst p), snd p))
           (List.combine (List.seq 0 (List.length l)) l).

(** The own enumerable properties an object spread copies. *)
Definition own_props (v : JsValue) : list (string * JsValue) :=
  match v with
  | JObj props => props
  | JArr items => indexed items
  | JStr s => indexed (List.map JStr (chars s))
  | JUndefined | JNull | JBool _ | JNum _ | JNaN => []
  end.

(** [{ ...target, ...source }]: later properties override, keeping the
    position of the first definition. *)
Definition assign (target source : list (string * JsValue)) : list (string * JsValue) :=
  fold_left (fun acc kv => map_set (fst kv) (snd kv) acc) source target.

(** [a === b] on values read from JSON or from the request: primitives by
    value; two objects or arrays met here are never the same reference. *)
Definition strict_eq (a b : JsValue) : bool :=
  match a, b with
  | JUndefined, JUndefined => true
  | JNull, JNull => true
  | JBool x, JBool y => Bool.eqb x y
  | JNum x, JNum y => x =? y
  | JStr x, JStr y => String.eqb x y
  | _, _ => false
  end.

(** [JSON.parse(JSON.stringify(v))] for a defined [v]: properties whose value
    is [undefined] are dropped, [undefined] array elements and [NaN] become
    [null].  Properties keep their order (the reordering of integer-like
    property names is not modelled; properties are read by name). *)
Fixpoint json_roundtrip (v : JsValue) : JsValue :=
  match v with
  | JNaN => JNull
  | JArr items =>
      JArr (List.map (fun x => match x with
                               | JUndefined => JNull
                               | _ => json_roundtrip x
                               end) items)
  | JObj props =>
      JObj ((fix go (ps : list (string * JsValue)) : list (string * JsValue) :=
               match ps with
               | [] => []
               | (k, x) :: ps' =>
                   match x with
                   | JUndefined => go ps'
                   | _ => (k, json_roundtrip x) :: go ps'
                   end
               end) props)
  | _ => v
  end.

(** ** Errors and results *)

Record HttpResponse := mkResponse {
  status : Z;
  data : JsValue
}.

Inductive JsError : Type :=
| HttpErr (message : string) (response : option HttpResponse)
| TypeErr (message : string)
| RangeErr (message : string)
| PlainErr (message : string)
| AwsErr (code message : string)
| CustomErr (message : string) (statusCode : Z) (originalError : JsError).

(** [error.response]. *)
Definition err_response (e : JsError) : option HttpResponse :=
  match e with
  | HttpErr _ r => r
  | _ => None
  end.

(** [error.message]. *)
Definition err_message (e : JsError) : string :=
  match e with
  | HttpErr m _ | TypeErr m | RangeErr m | PlainErr m | AwsErr _ m | CustomErr m _ _ => m
  end.

Inductive Res (A : Type) : Type :=
| Ok (a : A)
| Throw (e : JsError).

Arguments Ok {A} a.
Arguments Throw {A} e.

(** [v.k]: reading a property of [undefined] or [null] throws. *)
Definition get_prop (v : JsValue) (k : string) : Res JsValue :=
  match v with
  | JUndefined | JNull =>
      Throw (TypeErr ("Cannot read properties of " ++ to_string v ++ " (reading '" ++ k ++ "')"))
  | JObj props => Ok (obj_get k props)
  | JArr items =>
      if String.eqb k "length" then Ok (JNum (Z.of_nat (List.length items)))
      else Ok (obj_get k (indexed items))
  | JStr s =>
      if String.eqb k "length" then Ok (JNum (Z.of_nat (String.length s)))
      else Ok (obj_get k (indexed (List.map JStr (chars s))))
  | JBool _ | JNum _ | JNaN => Ok JUndefined
  end.

(** [date.toISOString()], the instant kept as epoch milliseconds: it throws
    on an invalid date (a [NaN] time value or one outside +-8.64e15 ms).
    Within the years 0000-9999 the ISO strings order as the instants do, so
    a sort key that is an ISO string is compared through its instant. *)
Definition toISOString (t : option Z) : Res Z :=
  match t with
  | Some ms =>
      if (Z.abs ms <=? 8640000000000000) then Ok ms
      else Throw (RangeErr "Invalid time value")
  | None => Throw (RangeErr "Invalid time value")
  end.

(** ** The world the services run in *)

(** A request as handed to the transport ([this.client.request(config)]). *)
Record RequestConfig := mkRequest {
  req_url : string;
  req_method : string;
  req_headers : list (string * JsValue);
  req_params : option (list (string * JsValue));
  req_data : option JsValue
}.

(** An item of the token table: partition key [userId], sort key
    [accessToken]. *)
Record TokenItem := mkTokenItem {
  tk_userId : string;
  tk_accessToken : string;
  tk_refreshToken : JsValue;
  tk_expiresAt : Z;
  tk_createdAt : Z;
  tk_updatedAt : Z
}.

(** The [state] attribute of a playback item is the JSON text of the
    snapshot: [SJson v] is a text that parses to [v], [SInvalid] a text that
    does not parse, [SAbsent] a missing attribute. *)
Inductive StateAttr : Type :=
| SJson (v : JsValue)
| SInvalid
| SAbsent.

(** An item of the playback table: partition key [userId], sort key
    [timestamp].  The store may drop an item once its [ttl] has passed; that
    passive expiry is not part of the model. *)
Record StateItem := mkStateItem {
  st_userId : string;
  st_timestamp : Z;
  st_state : StateAttr;
  st_ttl : Z;
  st_createdAt : Z
}.

Record Config := mkConfig {
  clientId : string;
  countryCode : string;
  maxRetries : Z;
  baseDelayMs : Z;
  maxDelayMs : Z;
  soundQuality : string;
  streamUrlTTL : Z;
  tokenTable : string;
  playbackTable : string;
  cacheEnabled : bool;
  cacheMaxSize : Z
}.

(** What the outside does during one run: the clock, the durable store's
    failures, the remote service, the random source and the catalog layer
    as seen from the handlers.  The [k]-th use of each is indexed by [k]. *)
Record Env := mkEnv {
  config : Config;
  clock : nat -> Z;
  dbFault : nat -> option JsError;
  transport : nat -> RequestConfig -> Res HttpResponse;
  random : nat -> Q;
  streamUrlOf : option string -> JsValue -> string -> Res JsValue
}.

Record World := mkWorld {
  clockReads : nat;
  dbCalls : nat;
  httpCalls : nat;
  randomDraws : nat;
  apiCalls : nat;
  sleeps : list Q;
  tokenItems : list TokenItem;
  playbackItems : list StateItem;
  tokenCache : JsMap JsValue;
  cache : Cache.CacheService;
  session : list (string * JsValue)
}.

Definition set_clockReads (n : nat) (w : World) : World :=
  mkWorld n (dbCalls w) (httpCalls w) (randomDraws w) (apiCalls w) (sleeps w)
          (tokenItems w) (playbackItems w) (tokenCache w) (cache w) (session w).
Definition set_dbCalls (n : nat) (w : World) : World :=
  mkWorld (clockReads w) n (httpCalls w) (randomDraws w) (apiCalls w) (sleeps w)
          (tokenItems w) (playbackItems w) (tokenCache w) (cache w) (session w).
Definition set_httpCalls (n : nat) (w : World) : World :=
  mkWorld (clockReads w) (dbCalls w) n (randomDraws w) (apiCalls w) (sleeps w)
          (tokenItems w) (playbackItems w) (tokenCache w) (cache w) (session w).
Definition set_randomDraws (n : nat) (w : World) : World :=
  mkWorld (clockReads w) (dbCalls w) (httpCalls w) n (apiCalls w) (sleeps w)
          (tokenItems w) (playbackItems w) (tokenCache w) (cache w) (session w).
Definition set_apiCalls (n : nat) (w : World) : World :=
  mkWorld (clockReads w) (dbCalls w) (httpCalls w) (randomDraws w) n (sleeps w)
          (tokenItems w) (playbackItems w) (tokenCache w) (cache w) (session w).
Definition set_sleeps (l : list Q) (w : World) : World :=
  mkWorld (clockReads w) (dbCalls w) (httpCalls w) (randomDraws w) (apiCalls w) l
          (tokenItems w) (playbackItems w) (tokenCache w) (cache w) (session w).
Definition set_tokenItems (l : list TokenItem) (w : World) : World :=
  mkWorld (clockReads w) (dbCalls w) (httpCalls w) (randomDraws w) (apiCalls w) (sleeps w)
          l (playbackItems w) (tokenCache w) (cache w) (session w).
Definition set_playbackItems (l : list StateItem) (w : World) : World :=
  mkWorld (clockReads w) (dbCalls w) (httpCalls w) (randomDraws w) (apiCalls w) (sleeps w)
          (tokenItems w) l (tokenCache w) (cache w) (session w).
Definition set_tokenCache (m : JsMap JsValue) (w : World) : World :=
  mkWorld (clockReads w) (dbCalls w) (httpCalls w) (randomDraws w) (apiCalls w) (sleeps w)
          (tokenItems w) (playbackItems w) m (cache w) (session w).
Definition set_cache (c : Cache.CacheService) (w : World) : World :=
  mkWorld (clockReads w) (dbCalls w) (httpCalls w) (randomDraws w) (apiCalls w) (sleeps w)
          (tokenItems w) (playbackItems w) (tokenCache w) c (session w).
Definition set_session (s : list (string * JsValue)) (w : World) : World :=
  mkWorld (clockReads w) (dbCalls w) (httpCalls w) (randomDraws w) (apiCalls w) (sleeps w)
          (tokenItems w) (playbackItems w) (tokenCache w) (cache w) s.

(** ** Asynchronous code: state and exceptions *)

Definition M (A : Type) : Type := World -> Res A * World.

Definition ret {A : Type} (a : A) : M A := fun w => (Ok a, w).

Definition throw {A : Type} (e : JsError) : M A := fun w => (Throw e, w).

Definition bind {A B : Type} (m : M A) (f : A -> M B) : M B :=
  fun w =>
    match m w with
    | (Ok a, w') => f a w'
    | (Throw e, w') => (Throw e, w')
    end.

(** [try { m } catch (e) { handler e }]: the effects of [m] up to the throw
    stay. *)
Definition try_catch {A : Type} (m : M A) (handler : JsError -> M A) : M A :=
  fun w =>
    match m w with
    | (Ok a, w') => (Ok a, w')
    | (Throw e, w') => handler e w'
    end.

(** A pure step that may throw. *)
Definition lift {A : Type} (r : Res A) : M A := fun w => (r, w).

Definition modify (f : World -> World) : M unit := fun w => (Ok tt, f w).

Definition gets {A : Type} (f : World -> A) : M A := fun w => (Ok (f w), w).

Declare Scope js_scope.
Delimit Scope js_scope with js.
Notation "x <- m ;; k" := (bind m (fun x => k))
  (at level 61, m at next level, right associativity) : js_scope.
Notation "m ;;; k" := (bind m (fun _ => k))
  (at level 61, right associativity) : js_scope.
Local Open Scope js_scope.

(** ** Strings *)

Definition toUpperCase_ascii (a : ascii) : ascii :=
  let n := nat_of_ascii a in
  if ((97 <=? n) && (n <=? 122))%nat then ascii_of_nat (n - 32) else a.

(** [String.prototype.toUpperCase] on ASCII text. *)
Fixpoint toUpperCase (s : string) : string :=
  match s with
  | EmptyString => EmptyString
  | String a s' => String (toUpperCase_ascii a) (toUpperCase s')
  end.

Definition includes (x : string) (l : list string) : bool :=
  existsb (String.eqb x) l.

(** [str.substring(0, n)]. *)
Definition substring_to (n : nat) (s : string) : string := String.substring 0 n s.

(** The replacement text of [String.prototype.replace] for a string pattern
    (no capture groups): [$$], [$&], [$`] and [$'] are expanded, any other
    character is copied. *)
Fixpoint GetSubstitution (matched before after template : string) : string :=
  match template with
  | EmptyString => EmptyString
  | String a t =>
      if Ascii.eqb a "$" then
        match t with
        | EmptyString => String a EmptyString
        | String c rest =>
            if Ascii.eqb c "$" then String "$" (GetSubstitution matched before after rest)
            else if Ascii.eqb c "&" then matched ++ GetSubstitution matched before after rest
            else if Ascii.eqb c "`" then before ++ GetSubstitution matched before after rest
            else if Ascii.eqb c "'" then after ++ GetSubstitution matched before after rest
            else String a (GetSubstitution matched before after t)
        end
      else String a (GetSubstitution matched before after t)
  end.

(** [str.replace(pattern, replacement)] with a string pattern: the first
    occurrence only. *)
Definition replace (str pattern replacement : string) : string :=
  match String.index 0 pattern str with
  | None => str
  | Some i =>
      let before := String.substring 0 i str in
      let after := String.substring (i + String.length pattern)
                                    (String.length str - (i + String.length pattern)) str in
      before ++ GetSubstitution pattern before after replacement ++ after
  end.

(** ** The services *)

(** A token read from the request or passed between services: [None] is
    [undefined] or [null]. *)
Definition truthy_opt (s : option string) : bool :=
  match s with
  | Some x => truthy_string x
  | None => false
  end.

(** [{ accessToken, refreshToken, expiresAt }] as the token service returns it. *)
Record TokenPair := mkTokenPair {
  tp_accessToken : JsValue;
  tp_refreshToken : JsValue;
  tp_expiresAt : Z
}.

(** The options object of [requestWithRetry]; [None] is a missing property. *)
Record RequestOptions := mkOptions {
  endpoint : string;
  method : string;
  accessToken : option string;
  params : option (list (string * JsValue));
  opt_data : option JsValue;
  retries : option Z;
  headers : option (list (string * JsValue))
}.

(** How the retry loop is left: by [return response] or past its end. *)
Inductive LoopExit : Type :=
| Returned (response : HttpResponse)
| Fell (lastError : option JsError).

(** A function value without parameters: its source text ([toString()])
    and what calling it does. *)
Record JsFunction := mkFunction {
  fn_source : string;
  fn_body : M JsValue
}.

Definition CACHE_NS : string := "tidal".

Definition PLAYBACK_TTL_SECONDS : Z := 24 * 60 * 60.

Section Services.
Context (E : Env).

(** [new Date()] / [Date.now()]. *)
Definition now : M Z :=
  fun w => (Ok (clock E (clockReads w)), set_clockReads (S (clockReads w)) w).

(** [Math.random()]. *)
Definition Math_random : M Q :=
  fun w => (Ok (random E (randomDraws w)), set_randomDraws (S (randomDraws w)) w).

(** [await new Promise(resolve => setTimeout(resolve, delayMs))]. *)
Definition sleep (delayMs : Q) : M unit :=
  modify (fun w => set_sleeps (sleeps w ++ [delayMs]) w).

(** *** DynamoDbService *)

Definition _handleError (tableName : string) (error : JsError) : JsError :=
  match error with
  | CustomErr _ _ _ => error
  | AwsErr code msg =>
      if String.eqb code "ResourceNotFoundException" then
        CustomErr ("La tabla " ++ tableName ++ " no existe") 404 error
      else if String.eqb code "ConditionalCheckFailedException" then
        CustomErr "La condición de la operación no se cumplió" 400 error
      else if String.eqb code "ProvisionedThroughputExceededException" then
        CustomErr "Se ha excedido el throughput provisionado" 429 error
      else if String.eqb code "ValidationException" then
        CustomErr ("Error de validación: " ++ msg) 400 error
      else CustomErr ("Error de DynamoDB: " ++ msg) 500 error
  | _ => CustomErr ("Error de DynamoDB: " ++ err_message error) 500 error
  end.

(** One call of the SDK ([this.dynamoDB.put(params).promise()] and the
    like): it is rejected when the store fails, and the rejection is
    rethrown through [_handleError]. *)
Definition sdk (tableName : string) : M unit :=
  fun w =>
    match dbFault E (dbCalls w) with
    | Some e => (Throw (_handleError tableName e), set_dbCalls (S (dbCalls w)) w)
    | None => (Ok tt, set_dbCalls (S (dbCalls w)) w)
    end.

Definition same_token_key (userId accessToken : string) (it : TokenItem) : bool :=
  String.eqb (tk_userId it) userId && String.eqb (tk_accessToken it) accessToken.

(** The table after a put: the item replaces the one with its key. *)
Definition put_token (item : TokenItem) (items : list TokenItem) : list TokenItem :=
  filter (fun it => negb (same_token_key (tk_userId item) (tk_accessToken item) it)) items
  ++ [item].

Definition delete_token (userId accessToken : string) (items : list TokenItem) : list TokenItem :=
  filter (fun it => negb (same_token_key userId accessToken it)) items.

(** [putItem] on the token table.  A sort key that is not a string is
    refused by the store. *)
Definition tokens_putItem (userId : string) (accessToken refreshToken : JsValue)
           (expiresAt createdAt updatedAt : Z) : M unit :=
  sdk (tokenTable (config E)) ;;;
  match accessToken with
  | JStr a =>
      modify (fun w => set_tokenItems
                (put_token (mkTokenItem userId a refreshToken expiresAt createdAt updatedAt)
                           (tokenItems w)) w)
  | _ =>
      throw (_handleError (tokenTable (config E))
               (AwsErr "ValidationException" "The provided key element does not match the schema"))
  end.

Definition tokens_deleteItem (userId accessToken : string) : M bool :=
  sdk (tokenTable (config E)) ;;;
  modify (fun w => set_tokenItems (delete_token userId accessToken (tokenItems w)) w) ;;;
  ret true.

(** [query] by [userId], [Limit: 1], [ScanIndexForward: false]: the item of
    the user with the greatest sort key. *)
Definition greatest_token (userId : string) (items : list TokenItem) : option TokenItem :=
  fold_left
    (fun acc it =>
       if String.eqb (tk_userId it) userId then
         match acc with
         | None => Some it
         | Some best => if String.ltb (tk_accessToken best) (tk_accessToken it)
                        then Some it else acc
         end
       else acc)
    items None.

Definition tokens_query_user (userId : string) : M (option TokenItem) :=
  sdk (tokenTable (config E)) ;;;
  gets (fun w => greatest_token userId (tokenItems w)).

(** [query] on [AccessTokenIndex], [Limit: 1]. *)
Definition tokens_query_index (accessToken : string) : M (option TokenItem) :=
  sdk (tokenTable (config E)) ;;;
  gets (fun w => find (fun it => String.eqb (tk_accessToken it) accessToken) (tokenItems w)).

(** *** TokenPersistenceService *)

Definition first_key {V : Type} (m : JsMap V) : option string :=
  match m with
  | [] => None
  | (k, _) :: _ => Some k
  end.

Definition _updateCache (accessToken : string) (refreshToken : JsValue) : M unit :=
  if negb (cacheEnabled (config E)) then ret tt
  else
    modify (fun w =>
      let m := map_set accessToken refreshToken (tokenCache w) in
      if map_size m >? cacheMaxSize (config E) then
        match first_key m with
        | Some oldestKey => set_tokenCache (map_delete oldestKey m) w
        | None => set_tokenCache m w
        end
      else set_tokenCache m w).

(** [saveTokens(userId, accessToken, refreshToken, expiresIn = 3600)]. *)
Definition saveTokens (userId : string) (accessToken refreshToken expiresIn : JsValue)
  : M TokenPair :=
  let expiresIn := match expiresIn with JUndefined => JNum 3600 | v => v end in
  t <- now ;;
  let expires := option_map (fun n => t + n * 1000) (to_number expiresIn) in
  expiresAt <- lift (toISOString expires) ;;
  createdAt <- lift (toISOString (Some t)) ;;
  updatedAt <- lift (toISOString (Some t)) ;;
  tokens_putItem userId accessToken refreshToken expiresAt createdAt updatedAt ;;;
  (match accessToken with
   | JStr a => if cacheEnabled (config E) then _updateCache a refreshToken else ret tt
   | _ => ret tt
   end) ;;;
  ret (mkTokenPair accessToken refreshToken expiresAt).

Definition getTokensByUserId (userId : string) : M (option TokenPair) :=
  tokens <- tokens_query_user userId ;;
  match tokens with
  | None => ret None
  | Some tokenData =>
      (if cacheEnabled (config E)
       then _updateCache (tk_accessToken tokenData) (tk_refreshToken tokenData)
       else ret tt) ;;;
      ret (Some (mkTokenPair (JStr (tk_accessToken tokenData))
                             (tk_refreshToken tokenData)
                             (tk_expiresAt tokenData)))
  end.

(** The result is the stored refresh token, or [null]. *)
Definition getRefreshTokenByAccessToken (accessToken : string) : M JsValue :=
  cached <- gets (fun w => map_get accessToken (tokenCache w)) ;;
  match (if cacheEnabled (config E) then cached else None) with
  | Some refreshToken => ret refreshToken
  | None =>
      result <- tokens_query_index accessToken ;;
      match result with
      | None => ret JNull
      | Some item =>
          (if cacheEnabled (config E)
           then _updateCache accessToken (tk_refreshToken item)
           else ret tt) ;;;
          ret (tk_refreshToken item)
      end
  end.

Definition deleteTokens (userId accessToken : string) : M bool :=
  tokens_deleteItem userId accessToken ;;;
  (if cacheEnabled (config E)
   then modify (fun w => set_tokenCache (map_delete accessToken (tokenCache w)) w)
   else ret tt) ;;;
  ret true.

(** [updateTokens(userId, oldAccessToken, newAccessToken, newRefreshToken,
    expiresIn = 3600)]: a delete followed by a save. *)
Definition updateTokens (userId : string) (oldAccessToken : option string)
           (newAccessToken newRefreshToken expiresIn : JsValue) : M TokenPair :=
  (match oldAccessToken with
   | Some old => if truthy_string old
                 then (deleteTokens userId old ;;; ret tt)
                 else ret tt
   | None => ret tt
   end) ;;;
  saveTokens userId newAccessToken newRefreshToken expiresIn.

(** *** TidalApiClient *)

Definition _getAuthHeaders (accessToken : option string) : list (string * JsValue) :=
  let headers := [("X-Tidal-Token", JStr (clientId (config E)))] in
  match accessToken with
  | Some a => if truthy_string a
              then map_set "Authorization" (JStr ("Bearer " ++ a)) headers
              else headers
  | None => headers
  end.

(** The request interceptor installed by [_setupInterceptors].  It copies
    the config shallowly for the log line and shortens [Authorization] in
    the copy's [headers], which is the headers object of the request
    itself; an [Authorization] that is not a string has no [substring]. *)
Definition request_interceptor (cfg : RequestConfig) : Res RequestConfig :=
  let auth := obj_get "Authorization" (req_headers cfg) in
  if truthy auth then
    match auth with
    | JStr a =>
        Ok {| req_url := req_url cfg;
              req_method := req_method cfg;
              req_headers := map_set "Authorization" (JStr (substring_to 15 a ++ "..."))
                                     (req_headers cfg);
              req_params := req_params cfg;
              req_data := req_data cfg |}
    | _ => Throw (TypeErr "auth.substring is not a function")
    end
  else Ok cfg.

(** What the [k]-th call of [this.client.request(config)] yields: the
    answer of the transport to the intercepted request (the response
    interceptor hands responses and errors on as they are). *)
Definition outcome (k : nat) (cfg : RequestConfig) : Res HttpResponse :=
  match request_interceptor cfg with
  | Ok sent => transport E k sent
  | Throw e => Throw e
  end.

(** [await this.client.request(config)]. *)
Definition client_request (cfg : RequestConfig) : M HttpResponse :=
  fun w => (outcome (httpCalls w) cfg, set_httpCalls (S (httpCalls w)) w).

(** [error.response && [400, 401, 403, 404].includes(error.response.status)]. *)
Definition noRetry (error : JsError) : bool :=
  match err_response error with
  | Some r => existsb (Z.eqb (status r)) [400; 401; 403; 404]
  | None => false
  end.

(** [Math.min(this.maxDelayMs, Math.pow(2, attempt) * this.baseDelayMs)]. *)
Definition baseDelay (attempt : Z) : Z :=
  Z.min (maxDelayMs (config E)) (2 ^ attempt * baseDelayMs (config E)).

(** [baseDelay + Math.random() * (baseDelay * 0.2)] for the draw [r]. *)
Definition delayMs (attempt : Z) (r : Q) : Q :=
  (inject_Z (baseDelay attempt) + r * (inject_Z (baseDelay attempt) * (2 # 10)))%Q.

(** The loop [for (let attempt = 0; attempt < retries; attempt++)], entered
    at [attempt]; [fuel] bounds the iterations left ([retries - attempt]). *)
Fixpoint retry_loop (fuel : nat) (cfg : RequestConfig) (retries attempt : Z)
         (lastError : option JsError) : M LoopExit :=
  match fuel with
  | O => ret (Fell lastError)
  | S fuel' =>
      if attempt <? retries then
        try_catch
          (response <- client_request cfg ;; ret (Returned response))
          (fun error =>
             if noRetry error then ret (Fell (Some error))
             else if attempt =? retries - 1 then ret (Fell (Some error))
             else
               r <- Math_random ;;
               sleep (delayMs attempt r) ;;;
               retry_loop fuel' cfg retries (attempt + 1) (Some error))
      else ret (Fell lastError)
  end.

(** [retries = this.maxRetries] when the option is missing. *)
Definition retries_of (options : RequestOptions) : Z :=
  match retries options with
  | Some n => n
  | None => maxRetries (config E)
  end.

(** The [config] object each attempt hands to the transport. *)
Definition config_of (options : RequestOptions) : RequestConfig :=
  let params0 := match params options with Some p => p | None => [] end in
  let data := match opt_data options with Some d => d | None => JNull end in
  let headers := match headers options with Some h => h | None => [] end in
  let METHOD := toUpperCase (method options) in
  let params :=
    if negb (truthy (obj_get "countryCode" params0)) && includes METHOD ["GET"; "DELETE"]
    then map_set "countryCode" (JStr (countryCode (config E))) params0
    else params0 in
  {| req_url := endpoint options;
     req_method := METHOD;
     req_headers := assign (_getAuthHeaders (accessToken options)) headers;
     req_params := if includes METHOD ["GET"; "DELETE"; "HEAD"] then Some params else None;
     req_data := if includes METHOD ["GET"; "DELETE"; "HEAD"] then None else Some data |}.

Definition requestWithRetry (options : RequestOptions) : M HttpResponse :=
  exit <- retry_loop (Z.to_nat (retries_of options)) (config_of options)
                     (retries_of options) 0 None ;;
  match exit with
  | Returned response => ret response
  | Fell (Some lastError) => throw lastError
  | Fell None => throw (TypeErr "Cannot read properties of null (reading 'message')")
  end.

(** [get(endpoint, params = {}, accessToken, retries)]. *)
Definition tidalApi_get (endpoint : string) (params : list (string * JsValue))
           (accessToken : option string) (retries : option Z) : M HttpResponse :=
  requestWithRetry
    (mkOptions endpoint "GET" accessToken (Some params) None
               (Some (match retries with Some n => n | None => maxRetries (config E) end))
               None).

Definition refreshAccessToken (refreshToken : JsValue) : M JsValue :=
  response <- requestWithRetry
    (mkOptions "/oauth2/token" "POST" None None
       (Some (JObj [("grant_type", JStr "refresh_token"); ("refresh_token", refreshToken)]))
       (Some 5)
       (Some [("Content-Type", JStr "application/x-www-form-urlencoded")])) ;;
  ret (data response).

(** *** TidalService: the token-refresh coordinator *)

(** [apiCallFn()]; the world counts the invocations. *)
Definition invoke (f : JsFunction) : M JsValue :=
  fun w => fn_body f (set_apiCalls (S (apiCalls w)) w).

(** [cacheService.makeKey(...)] as [tidalService.js] calls it, on the
    object that the cache module exports.  [makeKey] is declared [static]
    in [class CacheService] and the module exports [new CacheService()]:
    the instance has no such property and the call throws. *)
Definition cacheService_makeKey (args : list JsValue) : M string :=
  throw (TypeErr "cacheService.makeKey is not a function").

Definition cacheService_delete (ns key : string) : M bool :=
  fun w => let '(b, c) := Cache.delete (cache w) ns key in (Ok b, set_cache c w).

Definition _clearTokenRelatedCache (accessToken : string) : M unit :=
  let tokenPrefix := substring_to 10 accessToken in
  key <- cacheService_makeKey [JStr "userInfo"; JStr accessToken] ;;
  cacheService_delete CACHE_NS key ;;;
  ret tt.

(** The arrow function [updatedApiCallFn] of [_executeWithTokenRefresh]:
    it returns the text of [apiCallFn] with the first occurrence of the old
    token replaced; [apiCallFn] is not called. *)
Definition updatedApiCallFn (apiCallFn : JsFunction) (accessToken : string)
           (new_access_token : JsValue) : M JsValue :=
  ret (JStr (replace (fn_source apiCallFn) accessToken (to_string new_access_token))).

(** [error.response && error.response.status === 401]. *)
Definition is401 (error : JsError) : bool :=
  match err_response error with
  | Some r => status r =? 401
  | None => false
  end.

(** The refresh-token lookup inside [_executeWithTokenRefresh]
    ([let refreshToken; if (userId) {...} if (!refreshToken) {...}]): by
    [userId] first, then by the access-token index.  The result is falsy
    when neither finds one. *)
Definition lookupRefreshToken (userId : option string) (accessToken : string) : M JsValue :=
  fromUser <-
    (match userId with
     | Some uid =>
         if truthy_string uid then
           tokens <- getTokensByUserId uid ;;
           match tokens with
           | Some found =>
               if truthy (tp_refreshToken found)
               then ret (tp_refreshToken found)
               else ret JUndefined
           | None => ret JUndefined
           end
         else ret JUndefined
     | None => ret JUndefined
     end) ;;
  if negb (truthy fromUser)
  then getRefreshTokenByAccessToken accessToken
  else ret fromUser.

(** What follows a successful exchange: persist the new pair, clear the
    cache entries of the old token, run [updatedApiCallFn]. *)
Definition persistAndRetry (apiCallFn : JsFunction) (accessToken : string)
           (userId : option string) (newTokens : JsValue) : M JsValue :=
  access_token <- lift (get_prop newTokens "access_token") ;;
  refresh_token <- lift (get_prop newTokens "refresh_token") ;;
  expires_in <- lift (get_prop newTokens "expires_in") ;;
  (if truthy_opt userId
   then updateTokens (match userId with Some u => u | None => "" end)
                     (Some accessToken) access_token refresh_token expires_in
   else saveTokens "anonymous" access_token refresh_token expires_in) ;;;
  _clearTokenRelatedCache accessToken ;;;
  updatedApiCallFn apiCallFn accessToken access_token.

Definition _executeWithTokenRefresh (apiCallFn : JsFunction)
           (accessToken userId : option string) : M JsValue :=
  try_catch (invoke apiCallFn)
    (fun error =>
       match accessToken with
       | Some token =>
           if negb (is401 error) || negb (truthy_string token) then throw error
           else
             try_catch
               (refreshToken <- lookupRefreshToken userId token ;;
                if negb (truthy refreshToken) then throw error
                else
                  newTokens <- refreshAccessToken refreshToken ;;
                  persistAndRetry apiCallFn token userId newTokens)
               (fun refreshError => throw error)
       | None => throw error
       end).

(** *** TidalService: a catalog operation *)

(** [cacheService.get(namespace, key)] with the clock readings it takes:
    none when the cache is disabled or holds no entry, one in [isExpired],
    one more in [hit]. *)
Definition cacheService_get (ns key : string) : M JsValue :=
  fun w =>
    let c := cache w in
    let t1 := clock E (clockReads w) in
    let t2 := clock E (S (clockReads w)) in
    let reads :=
      if negb (Cache.enabled c) then 0%nat
      else match map_get key (Cache.namespace c ns) with
           | None => 0%nat
           | Some entry => if Cache.isExpired entry t1 then 1%nat else 2%nat
           end in
    let '(v, c') := Cache.get c ns key t1 t2 in
    (Ok v, set_cache c' (set_clockReads (clockReads w + reads) w)).

(** [cacheService.set(namespace, key, value, ttl)] with the clock readings
    it takes: one in the log line of an eviction ([getAge]), two in the
    constructor of the entry. *)
Definition cacheService_set (ns key : string) (value : JsValue) (ttl : option Z) : M JsValue :=
  fun w =>
    let c := cache w in
    if negb (Cache.enabled c) then (Ok value, w)
    else
      let evicts :=
        (map_size (Cache.namespace c ns) >=? Cache.maxSize c)
        && match Cache.oldest (Cache.namespace c ns) with
           | Some (oldestKey, _) => truthy_string oldestKey
           | None => false
           end in
      let first := (clockReads w + if evicts then 1 else 0)%nat in
      let '(v, c') := Cache.set c ns key value ttl (clock E first) (clock E (S first)) in
      (Ok v, set_cache c' (set_clockReads (S (S first)) w)).

(** [cacheService.getOrSet(namespace, key, fetchFn, ttl)]. *)
Definition cacheService_getOrSet (ns key : string) (fetchFn : M JsValue) (ttl : option Z)
  : M JsValue :=
  enabled <- gets (fun w => Cache.enabled (cache w)) ;;
  if negb enabled then fetchFn
  else
    cachedValue <- cacheService_get ns key ;;
    if negb (strict_eq cachedValue JUndefined) then ret cachedValue
    else
      value <- fetchFn ;;
      (if negb (strict_eq value JUndefined) && negb (strict_eq value JNull)
       then cacheService_set ns key value ttl ;;; ret tt
       else ret tt) ;;;
      ret value.

Definition _handleApiError (error : JsError) : JsError :=
  match err_response error with
  | None => PlainErr "Error de conexión con el servicio de Tidal"
  | Some r =>
      if status r =? 400 then PlainErr "Solicitud incorrecta a Tidal"
      else if status r =? 401 then PlainErr "Sesión expirada o no autorizada en Tidal"
      else if status r =? 403 then
        PlainErr "No tienes permiso para realizar esta acción en Tidal"
      else if status r =? 404 then PlainErr "El contenido solicitado no existe en Tidal"
      else if status r =? 429 then PlainErr "Demasiadas solicitudes a Tidal. Intenta más tarde"
      else PlainErr ("Error del servicio de Tidal: " ++ string_of_Z (status r))
  end.

(** The response object of the HTTP client as a value. *)
Definition response_value (r : HttpResponse) : JsValue :=
  JObj [("status", JNum (status r)); ("data", data r)].

(** [getStreamUrl(accessToken, trackId, userId = null)]. *)
Definition getStreamUrl (accessToken : option string) (trackId : JsValue)
           (userId : option string) : M JsValue :=
  try_catch
    (cacheKey <- cacheService_makeKey [JStr "streamUrl"; trackId] ;;
     cacheService_getOrSet CACHE_NS cacheKey
       (let params :=
          [("soundQuality",
            JStr (if truthy_string (soundQuality (config E))
                  then soundQuality (config E) else "HIGH"));
           ("countryCode", JStr (countryCode (config E)))] in
        response <-
          _executeWithTokenRefresh
            (mkFunction
               "() => tidalApi.get(`/tracks/${trackId}/playbackinfo`, params, accessToken)"
               (r <- tidalApi_get ("/tracks/" ++ to_string trackId ++ "/playbackinfo")
                                  params accessToken None ;;
                ret (response_value r)))
            accessToken userId ;;
        data <- lift (get_prop response "data") ;;
        if negb (truthy data) then throw (PlainErr "No se pudo obtener la URL de streaming")
        else
          manifest <- lift (get_prop data "manifest") ;;
          if negb (truthy manifest)
          then throw (PlainErr "No se pudo obtener la URL de streaming")
          else
            url <- lift (get_prop manifest "url") ;;
            if negb (truthy url)
            then throw (PlainErr "No se pudo obtener la URL de streaming")
            else ret url)
       (Some (if streamUrlTTL (config E) =? 0 then 1800 else streamUrlTTL (config E))))
    (fun error => throw (_handleApiError error)).

(** *** PlaybackPersistenceService *)

Definition pad (width : nat) (n : Z) : string :=
  let s := string_of_Z n in
  string_of_list_ascii (List.repeat "0"%char (width - String.length s)) ++ s.

(** The text [toISOString()] produces for a valid instant. *)
Definition iso_text (ms : Z) : string :=
  let days := ms / 86400000 in
  let rem := ms mod 86400000 in
  let z := days + 719468 in
  let era := z / 146097 in
  let doe := z - era * 146097 in
  let yoe := (doe - doe / 1460 + doe / 36524 - doe / 146096) / 365 in
  let doy := doe - (365 * yoe + yoe / 4 - yoe / 100) in
  let mp := (5 * doy + 2) / 153 in
  let d := doy - (153 * mp + 2) / 5 + 1 in
  let m := if mp <? 10 then mp + 3 else mp - 9 in
  let y := yoe + era * 400 + (if m <=? 2 then 1 else 0) in
  let year := if (0 <=? y) && (y <=? 9999) then pad 4 y
              else (if y <? 0 then "-" else "+") ++ pad 6 (Z.abs y) in
  year ++ "-" ++ pad 2 m ++ "-" ++ pad 2 d ++ "T"
       ++ pad 2 (rem / 3600000) ++ ":" ++ pad 2 (rem / 60000 mod 60) ++ ":"
       ++ pad 2 (rem / 1000 mod 60) ++ "." ++ pad 3 (rem mod 1000) ++ "Z".

(** [new Date().toISOString()] as a value kept inside a snapshot. *)
Definition nowISO : M JsValue :=
  t <- now ;;
  ms <- lift (toISOString (Some t)) ;;
  ret (JStr (iso_text ms)).

(** [JSON.stringify(playbackState)] as the [state] attribute. *)
Definition stringify (v : JsValue) : StateAttr :=
  match v with
  | JUndefined => SAbsent
  | _ => SJson (json_roundtrip v)
  end.

Definition same_state_key (userId : string) (timestamp : Z) (it : StateItem) : bool :=
  String.eqb (st_userId it) userId && (st_timestamp it =? timestamp).

Definition put_state (item : StateItem) (items : list StateItem) : list StateItem :=
  filter (fun it => negb (same_state_key (st_userId item) (st_timestamp item) it)) items
  ++ [item].

Definition playback_putItem (item : StateItem) : M unit :=
  sdk (playbackTable (config E)) ;;;
  modify (fun w => set_playbackItems (put_state item (playbackItems w)) w).

(** [query] by [userId], [Limit: 1], [ScanIndexForward: false]: the item of
    the user with the greatest [timestamp]. *)
Definition latest_item (userId : string) (items : list StateItem) : option StateItem :=
  fold_left
    (fun acc it =>
       if String.eqb (st_userId it) userId then
         match acc with
         | None => Some it
         | Some best => if st_timestamp best <? st_timestamp it then Some it else acc
         end
       else acc)
    items None.

Definition playback_query_latest (userId : string) : M (option StateItem) :=
  sdk (playbackTable (config E)) ;;;
  gets (fun w => latest_item userId (playbackItems w)).

Definition savePlaybackState (userId : string) (playbackState : JsValue) : M JsValue :=
  t <- now ;;
  let ttl := t / 1000 + PLAYBACK_TTL_SECONDS in
  timestamp <- lift (toISOString (Some t)) ;;
  createdAt <- lift (toISOString (Some t)) ;;
  playback_putItem (mkStateItem userId timestamp (stringify playbackState) ttl createdAt) ;;;
  lift (get_prop playbackState "type") ;;;
  ret playbackState.

(** The snapshot parsed from the latest item, or [null]. *)
Definition getLatestPlaybackState (userId : string) : M JsValue :=
  results <- playback_query_latest userId ;;
  match results with
  | None => ret JNull
  | Some item =>
      match st_state item with
      | SJson playbackState => ret playbackState
      | SInvalid => ret JNull
      | SAbsent => throw (TypeErr "Cannot read properties of undefined (reading 'substring')")
      end
  end.

Definition updateTrackState (userId : string) (token updates : JsValue) : M JsValue :=
  currentState <- getLatestPlaybackState userId ;;
  if negb (truthy currentState) then ret JNull
  else
    currentToken <- lift (get_prop currentState "token") ;;
    if negb (strict_eq currentToken token) then
      updatedAt <- nowISO ;;
      let newState :=
        JObj (map_set "updatedAt" updatedAt
               (map_set "token" token
                 (assign [] (own_props updates)))) in
      savePlaybackState userId newState
    else
      updatedAt <- nowISO ;;
      let updatedState :=
        JObj (map_set "updatedAt" updatedAt
               (assign (assign [] (own_props currentState)) (own_props updates))) in
      savePlaybackState userId updatedState.

(** [savePlaylist(userId, trackList, currentIndex = 0)]. *)
Definition savePlaylist (userId : string) (trackList currentIndex : JsValue) : M JsValue :=
  let currentIndex := match currentIndex with JUndefined => JNum 0 | v => v end in
  updatedAt <- nowISO ;;
  savePlaybackState userId
    (JObj [("type", JStr "playlist"); ("trackList", trackList);
           ("currentIndex", currentIndex); ("updatedAt", updatedAt)]).

(** [{ trackList, currentIndex }] as [getPlaylist] returns it. *)
Record Playlist := mkPlaylist {
  trackList : JsValue;
  currentIndex : JsValue
}.

(** [a || b]. *)
Definition or_else (a b : JsValue) : JsValue := if truthy a then a else b.

Definition getPlaylist (userId : string) : M (option Playlist) :=
  state <- getLatestPlaybackState userId ;;
  if negb (truthy state) then ret None
  else
    type <- lift (get_prop state "type") ;;
    if negb (strict_eq type (JStr "playlist")) then ret None
    else
      tl <- lift (get_prop state "trackList") ;;
      ci <- lift (get_prop state "currentIndex") ;;
      ret (Some (mkPlaylist (or_else tl (JArr [])) (or_else ci (JNum 0)))).

(** [playlist.trackList.length - 1]. *)
Definition last_index (trackList : JsValue) : Res (option Z) :=
  match get_prop trackList "length" with
  | Ok len => Ok (option_map (fun n => n - 1) (to_number len))
  | Throw e => Throw e
  end.

Definition updatePlaylistIndex (userId : string) (newIndex : JsValue) : M (option Playlist) :=
  playlist <- getPlaylist userId ;;
  match playlist with
  | None => ret None
  | Some playlist =>
      last <- lift (last_index (trackList playlist)) ;;
      let validIndex :=
        of_number (match to_number newIndex, last with
                   | Some n, Some l => Some (Z.max 0 (Z.min n l))
                   | _, _ => None
                   end) in
      updatedAt <- nowISO ;;
      savePlaybackState userId
        (JObj [("type", JStr "playlist"); ("trackList", trackList playlist);
               ("currentIndex", validIndex); ("updatedAt", updatedAt)]) ;;;
      ret (Some (mkPlaylist (trackList playlist) validIndex))
  end.

(** *** AudioPlayerEventHandler *)

(** What [handle] reads from [handlerInput.requestEnvelope]:
    [audioPlayerEventName] is [request.type.split('.')[1]]; [in_session]
    tells whether the envelope carries a [session], which is what the
    attributes manager looks at.  The requests of the [AudioPlayer]
    interface are sent outside of a session. *)
Record HandlerInput := mkInput {
  audioPlayerEventName : string;
  in_userId : string;
  in_accessToken : option string;
  in_token : JsValue;
  in_offsetInMilliseconds : JsValue;
  in_error : JsValue;
  in_session : bool
}.

(** [handlerInput.attributesManager.getSessionAttributes()]: the attributes
    manager of the SDK ([ask-sdk-core]) hands out the attributes of the
    session and refuses a request that carries no session. *)
Definition out_of_session : JsError :=
  PlainErr "Cannot get SessionAttributes from out of session request!".

Definition getSessionAttributes (handlerInput : HandlerInput)
  : M (list (string * JsValue)) :=
  if in_session handlerInput then gets session else throw out_of_session.

(** What [responseBuilder.getResponse()] carries. *)
Inductive Response : Type :=
| EmptyResponse
| PlayDirective (playBehavior : string) (url token : JsValue) (offsetInMilliseconds : Z)
                (audioItemMetadata : JsValue).

(** [target.k = v] on a value held in the session (ignored on a primitive). *)
Definition set_prop (target : JsValue) (k : string) (v : JsValue) : JsValue :=
  match target with
  | JObj props => JObj (map_set k v props)
  | _ => target
  end.

(** [{ ...playbackState, k1: v1, k2: v2 }]. *)
Definition spread_with (playbackState : JsValue) (extra : list (string * JsValue)) : JsValue :=
  JObj (assign (assign [] (own_props playbackState)) extra).

Definition handle (handlerInput : HandlerInput) : M Response :=
  let userId := in_userId handlerInput in
  let accessToken := in_accessToken handlerInput in
  let token := in_token handlerInput in
  stored <- try_catch (getLatestPlaybackState userId) (fun error => ret JUndefined) ;;
  playbackState <-
    (if negb (truthy stored)
     then sessionAttributes <- getSessionAttributes handlerInput ;;
          ret (or_else (obj_get "currentlyPlaying" sessionAttributes) (JObj []))
     else ret stored) ;;
  if String.eqb (audioPlayerEventName handlerInput) "PlaybackStarted" then
    ret EmptyResponse
  else if String.eqb (audioPlayerEventName handlerInput) "PlaybackFinished" then
    playlist <- try_catch (getPlaylist userId) (fun error => ret None) ;;
    let advance :=
      match playlist with
      | Some p =>
          truthy (trackList p)
          && match last_index (trackList p) with
             | Ok last => less_than (currentIndex p) last
             | Throw _ => false
             end
      | None => false
      end in
    match playlist, advance with
    | Some playlist, true =>
        try_catch
          (if negb (truthy_opt accessToken) then ret EmptyResponse
           else
             let nextIndex := plus_one (currentIndex playlist) in
             nextTrack <- lift (get_prop (trackList playlist) (to_string nextIndex)) ;;
             title <- lift (get_prop nextTrack "title") ;;
             id <- lift (get_prop nextTrack "id") ;;
             streamUrl <- lift (streamUrlOf E accessToken id userId) ;;
             updatePlaylistIndex userId nextIndex ;;;
             artist <- lift (get_prop nextTrack "artist") ;;
             type <- lift (get_prop playbackState "type") ;;
             playlistId <- lift (get_prop playbackState "playlistId") ;;
             playlistName <- lift (get_prop playbackState "playlistName") ;;
             albumId <- lift (get_prop playbackState "albumId") ;;
             albumName <- lift (get_prop playbackState "albumName") ;;
             artistId <- lift (get_prop playbackState "artistId") ;;
             artistName <- lift (get_prop playbackState "artistName") ;;
             savePlaybackState userId
               (JObj [("type", or_else type (JStr "playlist"));
                      ("trackId", id);
                      ("title", title);
                      ("artist", artist);
                      ("offsetInMilliseconds", JNum 0);
                      ("token", id);
                      ("currentIndex", nextIndex);
                      ("url", streamUrl);
                      ("playlistId", playlistId);
                      ("playlistName", playlistName);
                      ("albumId", albumId);
                      ("albumName", albumName);
                      ("artistId", artistId);
                      ("artistName", artistName)]) ;;;
             getSessionAttributes handlerInput ;;;
             modify (fun w =>
               let currentlyPlaying := obj_get "currentlyPlaying" (session w) in
               if truthy currentlyPlaying then
                 set_session
                   (map_set "currentlyPlaying"
                      (set_prop (set_prop (set_prop (set_prop currentlyPlaying
                         "currentIndex" nextIndex) "title" title) "artist" artist) "token" id)
                      (session w)) w
               else w) ;;;
             ret (PlayDirective "REPLACE_ALL" streamUrl id 0
                    (JObj [("title", title); ("artist", artist); ("token", id);
                           ("currentIndex", nextIndex);
                           ("trackList", trackList playlist)])))
          (fun error =>
             try_catch
               (errorTimestamp <- nowISO ;;
                savePlaybackState userId
                  (spread_with playbackState
                     [("error", JStr "No se pudo reproducir la siguiente pista");
                      ("errorTimestamp", errorTimestamp)]) ;;;
                ret tt)
               (fun notificationError => ret tt) ;;;
             ret EmptyResponse)
    | _, _ =>
        try_catch
          (if truthy playbackState then
             completedAt <- nowISO ;;
             savePlaybackState userId
               (spread_with playbackState
                  [("isComplete", JBool true); ("completedAt", completedAt)]) ;;;
             ret tt
           else ret tt)
          (fun updateError => ret tt) ;;;
        ret EmptyResponse
    end
  else if String.eqb (audioPlayerEventName handlerInput) "PlaybackStopped" then
    let offsetInMilliseconds := in_offsetInMilliseconds handlerInput in
    try_catch
      (if truthy playbackState then
         pausedAt <- nowISO ;;
         updateTrackState userId token
           (JObj [("offsetInMilliseconds", offsetInMilliseconds); ("pausedAt", pausedAt)]) ;;;
         ret tt
       else ret tt)
      (fun error => ret tt) ;;;
    getSessionAttributes handlerInput ;;;
    modify (fun w =>
      let currentlyPlaying := obj_get "currentlyPlaying" (session w) in
      if truthy currentlyPlaying then
        set_session
          (map_set "currentlyPlaying"
             (set_prop currentlyPlaying "offsetInMilliseconds" offsetInMilliseconds)
             (session w)) w
      else w) ;;;
    ret EmptyResponse
  else if String.eqb (audioPlayerEventName handlerInput) "PlaybackFailed" then
    errorType <- lift (get_prop (in_error handlerInput) "type") ;;
    errorMessage <- lift (get_prop (in_error handlerInput) "message") ;;
    try_catch
      (if truthy playbackState then
         errorTimestamp <- nowISO ;;
         savePlaybackState userId
           (spread_with playbackState
              [("error", errorMessage); ("errorType", errorType);
               ("errorTimestamp", errorTimestamp)]) ;;;
         ret tt
       else ret tt)
      (fun error => ret tt) ;;;
    ret EmptyResponse
  else
    ret EmptyResponse.

End Services.

(** ** The services: further operations *)

(** The names of [CACHE_TTL], in the order of the object literal. *)
Definition CACHE_TTL_keys : list string :=
  ["userInfo"; "search"; "tracks"; "albums"; "playlists"; "artists"; "streamUrl"].

(** [key.startsWith(prefix)]. *)
Definition startsWith (key prefix : string) : bool := String.prefix prefix key.

(** [TidalService.clearCache(type = null)], on the cache object: with a
    type, the names of [CACHE_TTL] that equal it or start with [type:] are
    deleted as keys; without one, the namespace is cleared. *)
Definition tidalService_clearCache (type : option string) (c : Cache.CacheService)
  : Cache.CacheService :=
  match type with
  | Some t =>
      if truthy_string t then
        fold_left
          (fun c key =>
             if String.eqb key t || startsWith key (t ++ ":")
             then snd (Cache.delete c CACHE_NS key)
             else c)
          CACHE_TTL_keys c
      else Cache.clear c (Some CACHE_NS)
  | None => Cache.clear c (Some CACHE_NS)
  end.

Section TokenStore.
Context (E : Env).

(** The items of a query come in the order of the sort key. *)
Fixpoint insert_token (item : TokenItem) (sorted : list TokenItem) : list TokenItem :=
  match sorted with
  | [] => [item]
  | first :: rest =>
      if String.leb (tk_accessToken item) (tk_accessToken first)
      then item :: sorted
      else first :: insert_token item rest
  end.

Definition user_tokens (userId : string) (items : list TokenItem) : list TokenItem :=
  fold_right insert_token []
    (filter (fun it => String.eqb (tk_userId it) userId) items).

(** [query] by [userId] without [Limit]: every item of the user (the
    answer is taken to fit one page). *)
Definition tokens_query_all (userId : string) : M (list TokenItem) :=
  sdk E (tokenTable (config E)) ;;;
  gets (fun w => user_tokens userId (tokenItems w)).

(** [tokens.map(token => { ...; return this.dynamoDb.deleteItem(...) })]
    followed by [await Promise.all(deletePromises)]: for each token in turn
    the cache entry goes and a delete request is issued; every request runs
    to its end, and the rejection reported is the first one (requests taken
    to settle in the order they were issued).  The world is the one reached
    once all requests have settled. *)
Fixpoint delete_each (userId : string) (tokens : list TokenItem) (rejected : option JsError)
  : M (option JsError) :=
  match tokens with
  | [] => ret rejected
  | token :: rest =>
      (if cacheEnabled (config E)
       then modify (fun w => set_tokenCache (map_delete (tk_accessToken token) (tokenCache w)) w)
       else ret tt) ;;;
      outcome <- try_catch (tokens_deleteItem E userId (tk_accessToken token) ;;; ret None)
                           (fun error => ret (Some error)) ;;
      delete_each userId rest (match rejected with
                               | Some _ => rejected
                               | None => outcome
                               end)
  end.

Definition deleteAllUserTokens (userId : string) : M bool :=
  tokens <- tokens_query_all userId ;;
  match tokens with
  | [] => ret true
  | _ =>
      rejected <- delete_each userId tokens None ;;
      match rejected with
      | Some error => throw error
      | None => ret true
      end
  end.

(** [clearCache()] of the token service. *)
Definition tokens_clearCache : M unit :=
  if cacheEnabled (config E)
  then modify (fun w => set_tokenCache [] w)
  else ret tt.
End TokenStore.

(** An access token as a value. *)
Definition token_value (accessToken : option string) : JsValue :=
  match accessToken with
  | Some a => JStr a
  | None => JUndefined
  end.

Section Catalog.
Context (E : Env).

(** [getUserInfo(accessToken, userId = null)]. *)
Definition getUserInfo (accessToken userId : option string) : M JsValue :=
  try_catch
    (cacheKey <- cacheService_makeKey [JStr "userInfo"; token_value accessToken] ;;
     cacheService_getOrSet E CACHE_NS cacheKey
       (response <-
          _executeWithTokenRefresh E
            (mkFunction "() => tidalApi.get('/me', {}, accessToken)"
               (r <- tidalApi_get E "/me" [] accessToken None ;;
                ret (response_value r)))
            accessToken userId ;;
        lift (get_prop response "data"))
       (Some 300))
    (fun error => throw (_handleApiError error)).
End Catalog.

(** The [TidalService] that calls the client directly (neither cache nor
    token refresh). *)
Module Direct.
Section Direct.
Context (E : Env).

(** [getStreamUrl(accessToken, trackId)]. *)
Definition getStreamUrl (accessToken : option string) (trackId : JsValue) : M JsValue :=
  try_catch
    (response <-
       tidalApi_get E ("/tracks/" ++ to_string trackId ++ "/playbackinfo")
         [("soundQuality", JStr "HIGH"); ("countryCode", JStr "US")] accessToken None ;;
     if negb (truthy (data response))
     then throw (PlainErr "No se pudo obtener la URL de streaming")
     else
       manifest <- lift (get_prop (data response) "manifest") ;;
       if negb (truthy manifest)
       then throw (PlainErr "No se pudo obtener la URL de streaming")
       else
         url <- lift (get_prop manifest "url") ;;
         if negb (truthy url)
         then throw (PlainErr "No se pudo obtener la URL de streaming")
         else ret url)
    (fun error => throw (_handleApiError error)).
End Direct.
End Direct.

(** ** Runs and example inputs *)

(** One call [set(namespace, key, value, ttl)] with the two clock readings
    it takes. *)
Record SetCall := mkSetCall {
  sc_namespace : string;
  sc_key : string;
  sc_value : JsValue;
  sc_ttl : option Z;
  sc_t1 : Z;
  sc_t2 : Z
}.

(** A sequence of [set] calls on one cache. *)
Definition set_all (c : Cache.CacheService) (calls : list SetCall) : Cache.CacheService :=
  fold_left
    (fun c call =>
       snd (Cache.set c (sc_namespace call) (sc_key call) (sc_value call)
                      (sc_ttl call) (sc_t1 call) (sc_t2 call)))
    calls c.

(** All keys of a namespace are non-empty strings. *)
Definition keys_nonempty (m : JsMap Cache.CacheEntry) : Prop :=
  forall k e, In (k, e) m -> k <> "".

(** The invariant of a cache whose keys are all non-empty: no namespace
    holds more than [maxSize] entries. *)
Definition bounded (c : Cache.CacheService) : Prop :=
  forall ns, map_size (Cache.namespace c ns) <= Cache.maxSize c /\
             keys_nonempty (Cache.namespace c ns).

(** A cache configured for two entries per namespace. *)
Definition small_cache : Cache.CacheService := Cache.create true None (Some 2).

(** Three writes, the first under the empty key (what [makeKey()] or
    [makeKey(null)] produce). *)
Definition three_sets : list SetCall :=
  [ mkSetCall "tidal" "" (JStr "first") None 1000 1000;
    mkSetCall "tidal" "track:a" (JStr "second") None 2000 2000;
    mkSetCall "tidal" "track:b" (JStr "third") None 3000 3000 ].

(** A cache holding one entry written at [t = 1000] for 300 seconds. *)
Definition warm_cache : Cache.CacheService :=
  snd (Cache.set (Cache.create true None None) "tidal" "userInfo:T1"
                 (JStr "profile") (Some 300) 1000 1000).

(** The failures the specification calls retryable: no response at all
    (network error, timeout), status 429, or a 5xx status. *)
Definition claimed_retryable (error : JsError) : bool :=
  match err_response error with
  | None => true
  | Some r => (status r =? 429) || ((500 <=? status r) && (status r <=? 599))
  end.

(** The failures the specification calls non-retryable. *)
Definition claimed_final (error : JsError) : bool :=
  match err_response error with
  | None => false
  | Some r => (status r =? 400) || (status r =? 401) || (status r =? 403) || (status r =? 404)
  end.

(** The delays waited after the failed attempts [a], [a + 1], ...,
    [a + k - 1], the random source being at its [d]-th draw. *)
Fixpoint delays (E : Env) (k : nat) (a : Z) (d : nat) : list Q :=
  match k with
  | O => []
  | S k' => delayMs E a (random E d) :: delays E k' (a + 1) (S d)
  end.

(** The world after [k] failed attempts, each followed by its wait. *)
Definition retried (E : Env) (k : nat) (a : Z) (w : World) : World :=
  set_sleeps (sleeps w ++ delays E k a (randomDraws w))
    (set_randomDraws (randomDraws w + k)
      (set_httpCalls (httpCalls w + k) w)).

(** The first [k] attempts made from [w] on all fail with errors that
    satisfy [p]. *)
Definition first_fail (E : Env) (cfg : RequestConfig) (w : World) (k : nat)
           (p : JsError -> bool) : Prop :=
  forall i, (i < k)%nat ->
    exists e, outcome E (httpCalls w + i) cfg = Throw e /\ p e = true.

(** Attempt [k] ends the loop: it succeeds, or fails with an error the code
    does not retry, or is attempt [retries - 1]. *)
Definition ends_at (E : Env) (cfg : RequestConfig) (w : World) (retries : Z) (k : nat) : Prop :=
  (exists r, outcome E (httpCalls w + k) cfg = Ok r) \/
  (exists e, outcome E (httpCalls w + k) cfg = Throw e /\
             (noRetry e = true \/ Z.of_nat k = retries - 1)).

(** The default configuration ([maxRetries = 3], [baseDelayMs = 1000],
    [maxDelayMs = 10000], token cache enabled with room for 1000 pairs). *)
Definition default_config : Config :=
  mkConfig "client-id" "US" 3 1000 10000 "HIGH" 3600
           "TidalTokens" "TidalPlaybackState" true 1000.

Definition error_status (code : Z) : JsError :=
  HttpErr ("Request failed with status code " ++ string_of_Z code)
          (Some (mkResponse code JNull)).

(** A clock that advances by one millisecond at each reading, for a day of
    readings. *)
Definition ticking (n : nat) : Z := 1700000000000 + Z.min (Z.of_nat n) 86400000.

(** A remote service that answers 503 to every request; the store never
    fails; every random draw is one half. *)
Definition env_unavailable : Env :=
  mkEnv default_config ticking (fun _ => None)
        (fun _ _ => Throw (error_status 503))
        (fun _ => 1 # 2)
        (fun _ _ _ => Throw (PlainErr "Error de conexión con el servicio de Tidal")).

Definition empty_world : World :=
  mkWorld 0 0 0 0 0 [] [] [] [] (Cache.create true None None) [].

(** The options [get('/me', {}, 'T1')] passes to [requestWithRetry]. *)
Definition options_me : RequestOptions :=
  mkOptions "/me" "GET" (Some "T1") (Some []) None (Some 3) None.

(** Whether the token table holds the pair [(userId, accessToken)]. *)
Definition holds_pair (w : World) (userId accessToken : string) : bool :=
  existsb (same_token_key userId accessToken) (tokenItems w).

(** The refresh token stored with the pair [(userId, accessToken)]. *)
Definition stored_refresh (w : World) (userId accessToken : string) : option JsValue :=
  option_map tk_refreshToken (find (same_token_key userId accessToken) (tokenItems w)).

(** A throttled store. *)
Definition throttled : JsError :=
  AwsErr "ProvisionedThroughputExceededException" "Rate exceeded".

(** The store accepts the first call and rejects the second. *)
Definition env_second_call_fails : Env :=
  mkEnv default_config ticking
        (fun n => match n with 1%nat => Some throttled | _ => None end)
        (fun _ _ => Throw (error_status 503))
        (fun _ => 1 # 2)
        (fun _ _ _ => Throw (PlainErr "Error de conexión con el servicio de Tidal")).

(** User [u1] is linked with the pair [(T1, R1)]. *)
Definition linked_world : World :=
  set_tokenItems
    [mkTokenItem "u1" "T1" (JStr "R1") 1700003600000 1700000000000 1700000000000]
    empty_world.

(** A computation that leaves the count of [apiCallFn] invocations alone. *)
Definition keeps_calls {A : Type} (m : M A) : Prop :=
  forall w, apiCalls (snd (m w)) = apiCalls w.

(** The thunk [() => tidalApi.get('/me', {}, accessToken)] of [getUserInfo],
    as a test double: its first invocation is rejected with 401, any later
    one succeeds. *)
Definition expired_once : JsFunction :=
  mkFunction "() => tidalApi.get('/me', {}, accessToken)"
    (fun w => (match apiCalls w with
               | 1%nat => Throw (error_status 401)
               | _ => Ok (JObj [("status", JNum 200);
                                ("data", JObj [("id", JNum 42)])])
               end, w)).

(** The token endpoint answers every request with a fresh pair. *)
Definition env_refresh_ok : Env :=
  mkEnv default_config ticking (fun _ => None)
        (fun _ _ => Ok (mkResponse 200
                          (JObj [("access_token", JStr "T2");
                                 ("refresh_token", JStr "R2");
                                 ("expires_in", JNum 3600)])))
        (fun _ => 1 # 2)
        (fun _ _ _ => Throw (PlainErr "Error de conexión con el servicio de Tidal")).

(** An instant [toISOString] accepts. *)
Definition valid_instant (t : Z) : Prop := Z.abs t <= 8640000000000000.

(** [state.token] of a snapshot. *)
Definition token_of (state : JsValue) : JsValue :=
  match get_prop state "token" with
  | Ok v => v
  | Throw _ => JUndefined
  end.

(** The item [savePlaybackState] writes at clock reading [t]. *)
Definition snapshot_item (userId : string) (t : Z) (playbackState : JsValue) : StateItem :=
  mkStateItem userId t (stringify playbackState) (t / 1000 + PLAYBACK_TTL_SECONDS) t.

(** The store never fails and every clock reading is a valid instant. *)
Definition calm (E : Env) : Prop :=
  (forall k, dbFault E k = None) /\ (forall k, valid_instant (clock E k)).

(** No item of the user is newer than [t]. *)
Definition not_after (t : Z) (userId : string) (items : list StateItem) : Prop :=
  forall it, In it items -> st_userId it = userId -> st_timestamp it <= t.

Definition track (id title artist : string) : JsValue :=
  JObj [("id", JStr id); ("title", JStr title); ("artist", JStr artist)].

Definition four_tracks : JsValue :=
  JArr [track "tr0" "Uno" "A"; track "tr1" "Dos" "B";
        track "tr2" "Tres" "C"; track "tr3" "Cuatro" "D"].

(** A playlist snapshot of four tracks at [currentIndex], playing [token]. *)
Definition playlist_state (currentIndex : Z) (token : string) : JsValue :=
  JObj [("type", JStr "playlist"); ("trackList", four_tracks);
        ("currentIndex", JNum currentIndex); ("token", JStr token);
        ("offsetInMilliseconds", JNum 0)].

(** User [u1] has that snapshot as the only, hence latest, item. *)
Definition playing_world (currentIndex : Z) (token : string) : World :=
  set_playbackItems
    [mkStateItem "u1" 1699999999000 (SJson (playlist_state currentIndex token))
                 1700086399 1699999999000]
    empty_world.

(** The catalog layer resolves every track to a URL; the store never fails. *)
Definition env_catalog_ok : Env :=
  mkEnv default_config ticking (fun _ => None)
        (fun _ _ => Throw (error_status 503))
        (fun _ => 1 # 2)
        (fun _ id _ => Ok (JStr ("https://stream.example/" ++ to_string id))).

(** Requests of user [u1] in an envelope that carries a session. *)
Definition finished (token : JsValue) (accessToken : option string) : HandlerInput :=
  mkInput "PlaybackFinished" "u1" accessToken token JUndefined JUndefined true.

Definition stopped (token : JsValue) (offsetInMilliseconds : Z) : HandlerInput :=
  mkInput "PlaybackStopped" "u1" (Some "T1") token (JNum offsetInMilliseconds) JUndefined
          true.

(** The same [PlaybackFinished] request outside of a session. *)
Definition finished_out_of_session (token : JsValue) (accessToken : option string)
  : HandlerInput :=
  mkInput "PlaybackFinished" "u1" accessToken token JUndefined JUndefined false.

(** The snapshot parsed from the user's latest item, if there is one. *)
Definition latest_snapshot (w : World) (userId : string) : option JsValue :=
  match latest_item userId (playbackItems w) with
  | Some item =>
      match st_state item with
      | SJson v => Some v
      | _ => None
      end
  | None => None
  end.

(** A property of a stored snapshot. *)
Definition field (snapshot : JsValue) (k : string) : JsValue :=
  match snapshot with
  | JObj props => obj_get k props
  | _ => JUndefined
  end.

(** The clock never runs backwards. *)
Definition monotone (E : Env) : Prop :=
  forall a b, (a <= b)%nat -> clock E a <= clock E b.

(** ** The cache: the periodic sweep *)

(** The keys [cleanup] collects in [toDelete] for one namespace: the
    entries are tested in their order and every test reads the clock
    ([isExpired]); [k] numbers the first reading. *)
Fixpoint toDelete (clock : nat -> Z) (k : nat) (m : JsMap Cache.CacheEntry) : list string :=
  match m with
  | [] => []
  | (key, entry) :: m' =>
      if Cache.isExpired entry (clock k) then key :: toDelete clock (S k) m'
      else toDelete clock (S k) m'
  end.

(** [for (const key of toDelete) cache.delete(key)]. *)
Definition delete_keys (keys : list string) (m : JsMap Cache.CacheEntry)
  : JsMap Cache.CacheEntry :=
  fold_left (fun m key => map_delete key m) keys m.

(** The namespaces one after the other, with the number of deletions. *)
Fixpoint cleanup_namespaces (clock : nat -> Z) (k : nat)
         (caches : JsMap (JsMap Cache.CacheEntry))
  : JsMap (JsMap Cache.CacheEntry) * Z :=
  match caches with
  | [] => ([], 0)
  | (namespaceName, m) :: rest =>
      let keys := toDelete clock k m in
      let '(rest', removed) := cleanup_namespaces clock (k + List.length m) rest in
      ((namespaceName, delete_keys keys m) :: rest', Z.of_nat (List.length keys) + removed)
  end.

(** The entries of all namespaces, as a count of clock readings. *)
Definition entry_count (caches : JsMap (JsMap Cache.CacheEntry)) : nat :=
  fold_right (fun nm n => (List.length (snd nm) + n)%nat) 0%nat caches.

(** [cacheService.cleanup()] with the clock readings it takes. *)
Definition cacheService_cleanup (E : Env) : M Z :=
  fun w =>
    let c := cache w in
    if negb (Cache.enabled c) then (Ok 0, w)
    else
      let '(caches', removed) :=
        cleanup_namespaces (clock E) (clockReads w) (Cache.caches c) in
      let c1 := Cache.with_caches c caches' in
      let c2 :=
        if removed >? 0
        then Cache.with_stats c1 (Cache.add_expired removed (Cache.stats c1))
        else c1 in
      (Ok removed,
       set_cache c2 (set_clockReads (clockReads w + entry_count (Cache.caches c)) w)).

(** ** The store layer: writes in batches *)

(** [items.slice(i, j)] for [i <= j]. *)
Definition slice {A : Type} (i j : nat) (items : list A) : list A :=
  firstn (j - i) (skipn i items).

(** [for (let i = 0; i < items.length; i += 25) batches.push(items.slice(i, i + 25))],
    from index [i] on; the loop runs at most [items.length] times. *)
Fixpoint batches_from {A : Type} (rounds i : nat) (items : list A) : list (list A) :=
  match rounds with
  | O => []
  | S rounds' =>
      if (i <? List.length items)%nat
      then slice i (i + 25) items :: batches_from rounds' (i + 25) items
      else []
  end.

Definition batches {A : Type} (items : list A) : list (list A) :=
  batches_from (List.length items) 0 items.

(** An element of [RequestItems[tableName]]. *)
Inductive WriteRequest : Type :=
| DeleteRequest (Key : JsValue)
| PutRequest (Item : JsValue).

Definition write_request (operation : string) (item : JsValue) : WriteRequest :=
  if String.eqb operation "delete" then DeleteRequest item else PutRequest item.

(** The [RequestItems] of the successive [batchWrite] calls of
    [batchWrite(items, operation = 'put')]. *)
Definition request_batches (items : list JsValue) (operation : option string)
  : list (list WriteRequest) :=
  let operation := match operation with Some o => o | None => "put" end in
  List.map (List.map (write_request operation)) (batches items).

(** [batchWrite]: one call of the SDK per batch, in order; the first
    rejection ends it.  The answer carries the number of batches (the
    results of the SDK are not looked at). *)
Fixpoint send_batches (E : Env) (tableName : string) (requests : list (list WriteRequest))
  : M unit :=
  match requests with
  | [] => ret tt
  | _ :: rest => sdk E tableName ;;; send_batches E tableName rest
  end.

Definition batchWrite (E : Env) (tableName : string) (items : list JsValue)
           (operation : option string) : M nat :=
  let requests := request_batches items operation in
  send_batches E tableName requests ;;;
  ret (List.length requests).

(** ** The logger: sensitive data *)

Definition sensitive_fields : list string :=
  ["accessToken"; "refreshToken"; "password"; "token"; "secret"; "credential";
   "clientSecret"].

(** [sensitive_fields.includes(key)]. *)
Definition is_sensitive (key : string) : bool := includes key sensitive_fields.

(** [s.includes(part)] on strings. *)
Definition string_includes (s part : string) : bool :=
  match String.index 0 part s with
  | Some _ => true
  | None => false
  end.

(** [obj.includes('eyJ') && obj.length > 100]. *)
Definition looks_like_token (s : string) : bool :=
  string_includes s "eyJ" && (100 <? Z.of_nat (String.length s)).

(** [sanitizeData(obj)]; [includeSensitive] is [loggerConfig.includeSensitive].
    A falsy value is returned as it is; among the values here only
    strings, arrays and objects are looked into. *)
Fixpoint sanitizeData (includeSensitive : bool) (obj : JsValue) : JsValue :=
  if includeSensitive then obj
  else
    match obj with
    | JStr s =>
        if negb (truthy obj) then obj
        else if looks_like_token s then JStr "[ACCESS_TOKEN_REDACTED]"
        else obj
    | JArr items => JArr (List.map (sanitizeData includeSensitive) items)
    | JObj props =>
        JObj (List.map
                (fun kv =>
                   if is_sensitive (fst kv) then (fst kv, JStr "[REDACTED]")
                   else (fst kv, sanitizeData includeSensitive (snd kv)))
                props)
    | _ => obj
    end.

(** No property with a sensitive name keeps its value and no string that
    looks like an access token is left, at any depth. *)
Fixpoint redacted (v : JsValue) : bool :=
  match v with
  | JStr s => negb (looks_like_token s)
  | JArr items => forallb redacted items
  | JObj props =>
      forallb
        (fun kv =>
           if is_sensitive (fst kv) then strict_eq (snd kv) (JStr "[REDACTED]")
           else redacted (snd kv))
        props
  | _ => true
  end.

(** ** More runs and example inputs *)

(** The time a list of waits adds up to. *)
Definition total_wait (l : list Q) : Q := fold_right Qplus 0%Q l.

(** The options of [get('/me', {}, 'T1', 0)]: no attempt allowed. *)
Definition options_no_attempt : RequestOptions :=
  mkOptions "/me" "GET" (Some "T1") (Some []) None (Some 0) None.

(** A remote service that is unavailable twice and then answers. *)
Definition env_recovers : Env :=
  mkEnv default_config ticking (fun _ => None)
        (fun n _ => match n with
                    | 2%nat => Ok (mkResponse 200 (JObj [("id", JNum 42)]))
                    | _ => Throw (error_status 503)
                    end)
        (fun _ => 1 # 2)
        (fun _ _ _ => Throw (PlainErr "Error de conexión con el servicio de Tidal")).

(** The playback-info request of track [12345] is answered with a manifest
    that has no [url]. *)
Definition env_manifest_without_url : Env :=
  mkEnv default_config ticking (fun _ => None)
        (fun _ _ => Ok (mkResponse 200 (JObj [("manifest", JObj [])])))
        (fun _ => 1 # 2)
        (fun _ _ _ => Throw (PlainErr "Error de conexión con el servicio de Tidal")).

(** A thunk that fails with status 500. *)
Definition server_error : JsFunction :=
  mkFunction "() => tidalApi.get('/me', {}, accessToken)"
    (fun w => (Throw (error_status 500), w)).

(** Whether a string holds a colon. *)
Fixpoint has_colon (s : string) : bool :=
  match s with
  | EmptyString => false
  | String c s' => Ascii.eqb c ":" || has_colon s'
  end.

(** The token cache holds no more pairs than configured. *)
Definition within_bound (E : Env) (w : World) : Prop :=
  map_size (tokenCache w) <= cacheMaxSize (config E).

(** The pair of tokens [getTokensByUserId] makes of an item. *)
Definition pair_of (item : TokenItem) : TokenPair :=
  mkTokenPair (JStr (tk_accessToken item)) (tk_refreshToken item) (tk_expiresAt item).

(** A computation keeps an invariant of the world. *)
Definition preserves {A : Type} (P : World -> Prop) (m : M A) : Prop :=
  forall w, P w -> P (snd (m w)).

(** An invariant that does not look at the counters of the world (clock
    readings, store calls, requests, random draws, invocations, waits). *)
Definition stable (P : World -> Prop) : Prop :=
  forall w, P w ->
    (forall n, P (set_clockReads n w)) /\
    (forall n, P (set_dbCalls n w)) /\
    (forall n, P (set_httpCalls n w)) /\
    (forall n, P (set_randomDraws n w)) /\
    (forall n, P (set_apiCalls n w)) /\
    (forall l, P (set_sleeps l w)).

(** Two pairs of user [u1]; [T1] is the greater access token. *)
Definition two_pairs_world : World :=
  set_tokenItems
    [mkTokenItem "u1" "T1" (JStr "R1") 1700003600000 1700000000000 1700000000000;
     mkTokenItem "u2" "T5" (JStr "R5") 1700003600000 1700000000000 1700000000000]
    empty_world.

(** What a property set to [v] reads as once its object has been stored as
    JSON and parsed again: a property set to [undefined] is not stored. *)
Definition stored (v : JsValue) : JsValue :=
  match v with
  | JUndefined => JUndefined
  | _ => json_roundtrip v
  end.

(** A computation that never ends in an exception. *)
Definition succeeds {A : Type} (m : M A) : Prop :=
  forall w, exists a, fst (m w) = Ok a.

(** The store rejects every call. *)
Definition env_store_down : Env :=
  mkEnv default_config ticking (fun _ => Some throttled)
        (fun _ _ => Throw (error_status 503))
        (fun _ => 1 # 2)
        (fun _ _ _ => Throw (PlainErr "Error de conexión con el servicio de Tidal")).

(** What [handle] holds in [playbackState] after its read of the store,
    before it falls back on the session: the latest snapshot, [null] when
    there is none, [undefined] when the read failed. *)
Definition stored_state (E : Env) (userId : string) (w : World) : JsValue :=
  match fst (getLatestPlaybackState E userId w) with
  | Ok playbackState => playbackState
  | Throw _ => JUndefined
  end.

(** The store and the session as the handlers see them. *)
Definition same_state (w w' : World) : Prop :=
  playbackItems w' = playbackItems w /\ session w' = session w /\
  tokenItems w' = tokenItems w.

(** User [u1] plays one track outside of any playlist. *)
Definition single_track_world : World :=
  set_playbackItems
    [mkStateItem "u1" 1699999999000
       (SJson (JObj [("type", JStr "track"); ("trackId", JStr "tr9");
                     ("token", JStr "tr9"); ("offsetInMilliseconds", JNum 0)]))
       1700086399 1699999999000]
    empty_world.

(** * Properties *)

(** ** Maps *)

Section JsMapFacts.
Context {V : Type}.
Implicit Types (m : JsMap V) (k : string) (v : V).

Lemma map_get_set_same m k v : map_get k (map_set k v m) = Some v.
Proof.
  induction m as [|[k' v'] m IH]; simpl.
  - now rewrite String.eqb_refl.
  - destruct (String.eqb k k') eqn:Hk; simpl.
    + now rewrite String.eqb_refl.
    + now rewrite Hk.
Qed.

Lemma map_get_set_other m k k' v :
  k' <> k -> map_get k' (map_set k v m) = map_get k' m.
Proof.
  intros Hne. induction m as [|[k0 v0] m IH]; simpl.
  - destruct (String.eqb_spec k' k); [contradiction | reflexivity].
  - destruct (String.eqb_spec k k0) as [->|Hk]; simpl.
    + destruct (String.eqb_spec k' k0); [contradiction | reflexivity].
    + destruct (String.eqb_spec k' k0); [reflexivity | exact IH].
Qed.

Lemma map_get_delete_same m k : map_get k (map_delete k m) = None.
Proof.
  unfold map_delete. induction m as [|[k' v'] m IH]; simpl; [reflexivity|].
  destruct (String.eqb k k') eqn:Hk; simpl; [exact IH|].
  now rewrite Hk.
Qed.

Lemma map_get_delete_other m k k' :
  k' <> k -> map_get k' (map_delete k m) = map_get k' m.
Proof.
  intros Hne. unfold map_delete. induction m as [|[k0 v0] m IH]; simpl; [reflexivity|].
  destruct (String.eqb_spec k k0) as [->|Hk]; simpl.
  - destruct (String.eqb_spec k' k0); [contradiction | exact IH].
  - destruct (String.eqb_spec k' k0); [reflexivity | exact IH].
Qed.

Lemma map_set_length m k v :
  (List.length (map_set k v m) <= S (List.length m))%nat.
Proof.
  induction m as [|[k' v'] m IH]; simpl; [lia|].
  destruct (String.eqb k k'); simpl; lia.
Qed.

Lemma map_delete_length m k :
  (List.length (map_delete k m) <= List.length m)%nat.
Proof. unfold map_delete. apply filter_length_le. Qed.

Lemma map_delete_length_in m k v :
  In (k, v) m -> (List.length (map_delete k m) < List.length m)%nat.
Proof.
  unfold map_delete. induction m as [|[k' v'] m IH]; simpl; [tauto|].
  intros [Heq|Hin].
  - inversion Heq; subst. rewrite String.eqb_refl. simpl.
    pose proof (filter_length_le (fun kv => negb (String.eqb k (fst kv))) m). lia.
  - specialize (IH Hin). destruct (String.eqb k k'); simpl; lia.
Qed.
End JsMapFacts.

(** ** The cache *)

Module CacheFacts.
Import Cache.

Lemma namespace_put c ns m : namespace (put_namespace c ns m) ns = m.
Proof. unfold namespace, put_namespace; simpl. now rewrite map_get_set_same. Qed.

Lemma namespace_put_other c ns ns' m :
  ns' <> ns -> namespace (put_namespace c ns m) ns' = namespace c ns'.
Proof.
  intros Hne. unfold namespace, put_namespace; simpl.
  now rewrite map_get_set_other.
Qed.

(** [_getCache] hands out the namespace's map and changes nothing that
    can be observed through [namespace], the statistics or the settings. *)
Lemma getCache_spec c ns :
  fst (_getCache c ns) = namespace c ns /\
  (forall ns', namespace (snd (_getCache c ns)) ns' = namespace c ns') /\
  stats (snd (_getCache c ns)) = stats c /\
  enabled (snd (_getCache c ns)) = enabled c /\
  maxSize (snd (_getCache c ns)) = maxSize c.
Proof.
  unfold _getCache, map_has, namespace.
  destruct (map_get ns (caches c)) eqn:Hns; simpl.
  - repeat split; reflexivity.
  - repeat split; try reflexivity.
    intros ns'. destruct (String.eqb_spec ns' ns) as [->|Hne].
    + now rewrite map_get_set_same, Hns.
    + now rewrite map_get_set_other.
Qed.

Tactic Notation "use_getCache" constr(c) constr(ns) "as" ident(m) ident(c1) :=
  let Hm := fresh "Hmap" in
  let Hns := fresh "Hns" in
  let Hst := fresh "Hstats" in
  let Hen := fresh "Henabled" in
  let Hmx := fresh "HmaxSize" in
  destruct (getCache_spec c ns) as (Hm & Hns & Hst & Hen & Hmx);
  destruct (_getCache c ns) as [m c1]; simpl in Hm, Hns, Hst, Hen, Hmx.

(** An entry read after its expiry: [get] answers [undefined], removes the
    entry and counts one expiry and one miss. *)
Lemma get_expired c ns key e now now' :
  enabled c = true ->
  map_get key (namespace c ns) = Some e ->
  expiresAt e < now ->
  fst (get c ns key now now') = JUndefined /\
  map_get key (namespace (snd (get c ns key now now')) ns) = None /\
  stats_expired (stats (snd (get c ns key now now'))) = stats_expired (stats c) + 1 /\
  stats_misses (stats (snd (get c ns key now now'))) = stats_misses (stats c) + 1.
Proof.
  intros Hen Hget Hlt. unfold get. rewrite Hen; simpl.
  use_getCache c ns as m c1. subst m. rewrite Hget.
  unfold isExpired. replace (now >? expiresAt e) with true by (symmetry; lia).
  simpl. repeat split.
  - change (map_get key (namespace (put_namespace c1 ns (map_delete key (namespace c ns))) ns) = None).
    rewrite namespace_put. apply map_get_delete_same.
  - rewrite Hstats. reflexivity.
  - rewrite Hstats. reflexivity.
Qed.

(** What [set] leaves under the key it wrote. *)
Lemma set_stores c ns key v ttl t1 t2 :
  enabled c = true ->
  map_get key (namespace (snd (set c ns key v ttl t1 t2)) ns)
  = Some (newCacheEntry v (match ttl with Some t => t | None => defaultTTL c end) t1 t2).
Proof.
  intros Hen. unfold set. rewrite Hen; simpl.
  destruct (_getCache c ns) as [cache c1]; simpl.
  match goal with
  | |- map_get key (namespace (with_stats (put_namespace ?c2 ns ?m) _) ns) = _ =>
      change (map_get key (namespace (put_namespace c2 ns m) ns)
              = Some (newCacheEntry v (match ttl with Some t => t | None => defaultTTL c end) t1 t2))
  end.
  rewrite namespace_put. apply map_get_set_same.
Qed.

Lemma set_enabled c ns key v ttl t1 t2 :
  enabled (snd (set c ns key v ttl t1 t2)) = enabled c.
Proof.
  unfold set. destruct (enabled c) eqn:Hen; simpl; [|exact Hen].
  use_getCache c ns as m c1.
  destruct (map_size m >=? maxSize c1); simpl.
  - unfold _evictOne. use_getCache c1 ns as m' c2.
    destruct (map_size m' <? maxSize c2); simpl; [congruence|].
    destruct (oldest m') as [[k e]|]; simpl; [|congruence].
    destruct (truthy_string k); simpl; congruence.
  - congruence.
Qed.

(** Written at [t1], read at any instant later than [t1 + ttl * 1000]: absent,
    whether or not [cleanup] ever ran in between. *)
Lemma set_then_get_after_ttl c ns key v ttl t1 t2 now now' :
  enabled c = true ->
  t1 + ttl * 1000 < now ->
  fst (get (snd (set c ns key v (Some ttl) t1 t2)) ns key now now') = JUndefined.
Proof.
  intros Hen Hlt.
  eapply get_expired.
  - now rewrite set_enabled.
  - now apply set_stores.
  - simpl. exact Hlt.
Qed.

(** *** Eviction *)

Lemma fold_older_spec (m : JsMap CacheEntry) (acc : option (string * CacheEntry)) :
  match fold_left older m acc with
  | Some (k, e) =>
      (In (k, e) m \/ acc = Some (k, e)) /\
      (forall k' e', In (k', e') m -> createdAt e <= createdAt e') /\
      (forall ka ea, acc = Some (ka, ea) -> createdAt e <= createdAt ea)
  | None => acc = None /\ m = []
  end.
Proof.
  revert acc. induction m as [|[k0 e0] m IH]; intros acc; simpl.
  - destruct acc as [[k e]|]; [|auto].
    repeat split; [now right | intros ? ? [] | intros ka ea [= <- <-]; lia].
  - specialize (IH (older acc (k0, e0))).
    destruct (fold_left older m (older acc (k0, e0))) as [[k e]|].
    + destruct IH as (Hin & Hmin & Hacc).
      assert (Hstep : (older acc (k0, e0) = Some (k0, e0) \/ older acc (k0, e0) = acc) /\
                      (forall kb eb, older acc (k0, e0) = Some (kb, eb) ->
                         createdAt eb <= createdAt e0 /\
                         forall ka ea, acc = Some (ka, ea) -> createdAt eb <= createdAt ea)).
      { unfold older. destruct acc as [[ka ea]|]; simpl.
        - destruct (Z.ltb_spec (createdAt e0) (createdAt ea)).
          + split; [now left|]. intros kb eb [= <- <-]. split; [lia|].
            intros ? ? [= <- <-]. lia.
          + split; [now right|]. intros kb eb [= <- <-]. split; [lia|].
            intros ? ? [= <- <-]. lia.
        - split; [now left|]. intros kb eb [= <- <-]. split; [lia|]. discriminate. }
      destruct Hstep as (Hcase & Hle).
      repeat split.
      * destruct Hin as [Hin|Hin]; [left; now right|].
        destruct Hcase as [Hc|Hc]; rewrite Hc in Hin.
        -- left. left. now inversion Hin.
        -- now right.
      * intros k' e' [[= <- <-]|Hin']; [|now apply (Hmin k' e')].
        destruct (older acc (k0, e0)) as [[kb eb]|] eqn:Hold.
        -- specialize (Hacc kb eb eq_refl). destruct (Hle kb eb eq_refl). lia.
        -- unfold older in Hold. destruct acc as [[? ?]|]; [|discriminate].
           destruct (_ <? _); discriminate.
      * intros ka ea Ha.
        destruct (older acc (k0, e0)) as [[kb eb]|] eqn:Hold.
        -- specialize (Hacc kb eb eq_refl). destruct (Hle kb eb eq_refl) as [_ H].
           specialize (H ka ea Ha). lia.
        -- unfold older in Hold. rewrite Ha in Hold.
           destruct (_ <? _); discriminate.
    + destruct IH as [Hnone _]. unfold older in Hnone.
      destruct acc as [[? ?]|]; [|discriminate].
      destruct (_ <? _); discriminate.
Qed.

(** The scan of [_evictOne] finds an entry of the namespace with the
    smallest [createdAt]. *)
Lemma oldest_is_minimal (m : JsMap CacheEntry) k e :
  oldest m = Some (k, e) ->
  In (k, e) m /\ forall k' e', In (k', e') m -> createdAt e <= createdAt e'.
Proof.
  intros H. pose proof (fold_older_spec m None) as Hs.
  unfold oldest in H. rewrite H in Hs. destruct Hs as ([Hin|Hin] & Hmin & _).
  - auto.
  - discriminate.
Qed.

Lemma oldest_exists (m : JsMap CacheEntry) :
  m <> [] -> exists k e, oldest m = Some (k, e).
Proof.
  intros Hne. pose proof (fold_older_spec m None) as Hs. unfold oldest.
  destruct (fold_left older m None) as [[k e]|]; [eauto|].
  destruct Hs as [_ Hnil]. contradiction.
Qed.

Lemma in_map_set (m : JsMap CacheEntry) k v k' v' :
  In (k', v') (map_set k v m) -> (k' = k /\ v' = v) \/ In (k', v') m.
Proof.
  induction m as [|[k0 v0] m IH]; simpl.
  - intros [[= <- <-]|[]]. now left.
  - destruct (String.eqb k k0); simpl.
    + intros [[= <- <-]|Hin]; [now left | right; now right].
    + intros [Heq|Hin]; [right; now left|].
      destruct (IH Hin) as [?|?]; [now left | right; now right].
Qed.

Lemma in_map_delete (m : JsMap CacheEntry) k k' v' :
  In (k', v') (map_delete k m) -> In (k', v') m.
Proof. unfold map_delete. intros H. now apply filter_In in H. Qed.

(** When the namespace is full and all its keys are non-empty, [_evictOne]
    removes an entry with the smallest [createdAt]. *)
Lemma evictOne_full c ns :
  maxSize c <= map_size (namespace c ns) ->
  1 <= maxSize c ->
  keys_nonempty (namespace c ns) ->
  exists k e,
    oldest (namespace c ns) = Some (k, e) /\
    namespace (_evictOne c ns) ns = map_delete k (namespace c ns) /\
    (forall ns', ns' <> ns -> namespace (_evictOne c ns) ns' = namespace c ns') /\
    stats_evictions (stats (_evictOne c ns)) = stats_evictions (stats c) + 1 /\
    maxSize (_evictOne c ns) = maxSize c /\ enabled (_evictOne c ns) = enabled c.
Proof.
  intros Hfull Hpos Hkeys. unfold _evictOne.
  use_getCache c ns as m c1. subst m. rewrite HmaxSize.
  replace (map_size (namespace c ns) <? maxSize c) with false by (symmetry; lia).
  destruct (oldest_exists (namespace c ns)) as (k & e & Hold).
  { intros Hnil. rewrite Hnil in Hfull. unfold map_size in Hfull. simpl in Hfull. lia. }
  rewrite Hold. exists k, e. split; [reflexivity|].
  destruct (oldest_is_minimal _ _ _ Hold) as [Hin _].
  assert (Hk : truthy_string k = true).
  { unfold truthy_string. destruct (String.eqb_spec k ""); [|reflexivity].
    exfalso. eapply Hkeys; eauto. }
  rewrite Hk. repeat split.
  - change (namespace (put_namespace c1 ns (map_delete k (namespace c ns))) ns
            = map_delete k (namespace c ns)).
    apply namespace_put.
  - intros ns' Hne.
    change (namespace (put_namespace c1 ns (map_delete k (namespace c ns))) ns'
            = namespace c ns').
    rewrite namespace_put_other by exact Hne. apply Hns.
  - simpl. now rewrite Hstats.
  - simpl. exact HmaxSize.
  - simpl. exact Henabled.
Qed.

Lemma set_preserves_bounded c ns key v ttl t1 t2 :
  1 <= maxSize c ->
  key <> "" ->
  bounded c ->
  bounded (snd (set c ns key v ttl t1 t2)) /\
  maxSize (snd (set c ns key v ttl t1 t2)) = maxSize c.
Proof.
  intros Hpos Hkey Hb. unfold set.
  destruct (enabled c); simpl; [|auto].
  use_getCache c ns as m c1. subst m.
  assert (Hb1 : bounded c1).
  { intros ns'. rewrite Hns, HmaxSize. apply Hb. }
  destruct (Z.geb_spec (map_size (namespace c ns)) (maxSize c1)) as [Hfull|Hroom].
  - destruct (evictOne_full c1 ns) as (k & e & Hold & Hev & Hother & _ & Hmx & _).
    { rewrite Hns. lia. }
    { lia. }
    { apply Hb1. }
    destruct (oldest_is_minimal _ _ _ Hold) as [Hin _].
    pose proof (map_delete_length_in _ _ _ Hin) as Hlt.
    split; [|simpl; congruence].
    intros ns'. simpl.
    destruct (String.eqb_spec ns' ns) as [->|Hne].
    + match goal with
      | |- map_size (namespace (with_stats (put_namespace ?c2 ns ?mm) _) ns) <= _ /\ _ =>
          change (map_size (namespace (put_namespace c2 ns mm) ns) <= maxSize c2 /\
                  keys_nonempty (namespace (put_namespace c2 ns mm) ns))
      end.
      rewrite namespace_put, Hev, Hmx. split.
      * pose proof (map_set_length (map_delete k (namespace c1 ns)) key
                      (newCacheEntry v (match ttl with Some t => t | None => defaultTTL c end) t1 t2)).
        destruct (Hb1 ns) as [Hsz _]. unfold map_size in *. lia.
      * intros k' e' Hin'. apply in_map_set in Hin'. destruct Hin' as [[-> _]|Hin']; [exact Hkey|].
        apply in_map_delete in Hin'. now apply (proj2 (Hb1 ns)) in Hin'.
    + match goal with
      | |- map_size (namespace (with_stats (put_namespace ?c2 ns ?mm) _) ns') <= _ /\ _ =>
          change (map_size (namespace (put_namespace c2 ns mm) ns') <= maxSize c2 /\
                  keys_nonempty (namespace (put_namespace c2 ns mm) ns'))
      end.
      rewrite namespace_put_other by exact Hne. rewrite Hother by exact Hne. rewrite Hmx.
      apply Hb1.
  - split; [|simpl; congruence].
    intros ns'. simpl.
    destruct (String.eqb_spec ns' ns) as [->|Hne].
    + change (map_size (namespace (put_namespace c1 ns
                 (map_set key (newCacheEntry v (match ttl with Some t => t | None => defaultTTL c end) t1 t2)
                          (namespace c1 ns))) ns) <= maxSize c1 /\
              keys_nonempty (namespace (put_namespace c1 ns
                 (map_set key (newCacheEntry v (match ttl with Some t => t | None => defaultTTL c end) t1 t2)
                          (namespace c1 ns))) ns)).
      rewrite namespace_put. split.
      * pose proof (map_set_length (namespace c1 ns) key
                      (newCacheEntry v (match ttl with Some t => t | None => defaultTTL c end) t1 t2)).
        rewrite Hns in *. unfold map_size in *. lia.
      * intros k' e' Hin'. apply in_map_set in Hin'. destruct Hin' as [[-> _]|Hin']; [exact Hkey|].
        now apply (proj2 (Hb1 ns)) in Hin'.
    + change (map_size (namespace (put_namespace c1 ns
                 (map_set key (newCacheEntry v (match ttl with Some t => t | None => defaultTTL c end) t1 t2)
                          (namespace c1 ns))) ns') <= maxSize c1 /\
              keys_nonempty (namespace (put_namespace c1 ns
                 (map_set key (newCacheEntry v (match ttl with Some t => t | None => defaultTTL c end) t1 t2)
                          (namespace c1 ns))) ns')).
      rewrite namespace_put_other by exact Hne. apply Hb1.
Qed.

Lemma set_all_preserves_bounded calls : forall c,
  1 <= maxSize c ->
  Forall (fun call => sc_key call <> "") calls ->
  bounded c ->
  bounded (set_all c calls).
Proof.
  induction calls as [|call calls IH]; intros c Hpos Hkeys Hb; simpl; [exact Hb|].
  inversion Hkeys as [|? ? Hk Hrest]; subst.
  destruct (set_preserves_bounded c (sc_namespace call) (sc_key call) (sc_value call)
              (sc_ttl call) (sc_t1 call) (sc_t2 call) Hpos Hk Hb) as [Hb' Hmx].
  apply IH; [now rewrite Hmx | exact Hrest | exact Hb'].
Qed.

(** C5 (cache TTL).  For every entry stored under a namespace and key of an
    enabled cache, a [get] whose clock reading is strictly after the entry's
    [expiresAt] returns [undefined], deletes the entry, and adds one to both
    the [expired] and the [misses] counters; no sweep is involved. *)
Theorem cache_ttl :
  forall (c : CacheService) (ns key : string) (e : CacheEntry) (now now' : Z),
    enabled c = true ->
    map_get key (namespace c ns) = Some e ->
    expiresAt e < now ->
    fst (get c ns key now now') = JUndefined /\
    map_get key (namespace (snd (get c ns key now now')) ns) = None /\
    stats_expired (stats (snd (get c ns key now now'))) = stats_expired (stats c) + 1 /\
    stats_misses (stats (snd (get c ns key now now'))) = stats_misses (stats c) + 1.
Proof. intros. now apply get_expired with (e := e). Qed.

Lemma cache_ttl_witness :
  fst (get warm_cache "tidal" "userInfo:T1" 301001 301001) = JUndefined /\
  map_get "userInfo:T1"
          (namespace (snd (get warm_cache "tidal" "userInfo:T1" 301001 301001)) "tidal") = None /\
  stats_expired (stats (snd (get warm_cache "tidal" "userInfo:T1" 301001 301001)))
  = stats_expired (stats warm_cache) + 1 /\
  stats_misses (stats (snd (get warm_cache "tidal" "userInfo:T1" 301001 301001)))
  = stats_misses (stats warm_cache) + 1.
Proof.
  apply (cache_ttl warm_cache "tidal" "userInfo:T1"
           (newCacheEntry (JStr "profile") 300 1000 1000) 301001 301001).
  - reflexivity.
  - reflexivity.
  - vm_compute. reflexivity.
Defined.

(** C6 (cache bound and eviction order).  On a cache configured for two
    entries per namespace, three [set] calls of which the first uses the
    empty key leave three entries in the namespace and evict nothing: the
    scan of [_evictOne] finds the oldest entry, but its key [""] fails the
    test [if (oldestKey)], so the full namespace grows. *)
Theorem cache_bound_broken_by_empty_key :
  maxSize small_cache = 2 /\
  map_size (namespace (set_all small_cache three_sets) "tidal") = 3 /\
  stats_evictions (stats (set_all small_cache three_sets)) = 0 /\
  oldest (namespace (set_all small_cache (firstn 2 three_sets)) "tidal")
  = Some ("", newCacheEntry (JStr "first") 300 1000 1000).
Proof. vm_compute. repeat split; reflexivity. Qed.

End CacheFacts.

(** ** The retrying client *)

Ltac destruct_world w :=
  destruct w as [clockReads_ dbCalls_ httpCalls_ randomDraws_ apiCalls_ sleeps_
                 tokenItems_ playbackItems_ tokenCache_ cache_ session_].

Section ClientFacts.
Context (E : Env).
Implicit Types (w : World) (cfg : RequestConfig) (e : JsError).

Lemma claimed_retryable_is_retried e : claimed_retryable e = true -> noRetry e = false.
Proof.
  unfold claimed_retryable, noRetry. destruct (err_response e) as [r|]; [|reflexivity].
  simpl. intros H.
  destruct (Z.eqb_spec (status r) 400), (Z.eqb_spec (status r) 401),
           (Z.eqb_spec (status r) 403), (Z.eqb_spec (status r) 404); simpl; try reflexivity;
    exfalso; apply Bool.orb_true_iff in H; destruct H as [H|H];
    try (apply Z.eqb_eq in H; lia);
    apply Bool.andb_true_iff in H; destruct H as [H1 H2];
    apply Z.leb_le in H1; lia.
Qed.

Lemma claimed_final_is_not_retried e : claimed_final e = true -> noRetry e = true.
Proof.
  unfold claimed_final, noRetry. destruct (err_response e) as [r|]; [|discriminate].
  simpl. intros H.
  destruct (Z.eqb_spec (status r) 400), (Z.eqb_spec (status r) 401),
           (Z.eqb_spec (status r) 403), (Z.eqb_spec (status r) 404); simpl in *;
    try reflexivity; discriminate.
Qed.

(** One iteration that returns. *)
Lemma loop_success fuel cfg retries a last w r :
  a < retries ->
  outcome E (httpCalls w) cfg = Ok r ->
  retry_loop E (S fuel) cfg retries a last w
  = (Ok (Returned r), set_httpCalls (S (httpCalls w)) w).
Proof.
  intros Ha Ht. simpl. replace (a <? retries) with true by (symmetry; lia).
  unfold try_catch, bind, client_request. rewrite Ht. reflexivity.
Qed.

(** One iteration that leaves the loop through [break]. *)
Lemma loop_break fuel cfg retries a last w e :
  a < retries ->
  outcome E (httpCalls w) cfg = Throw e ->
  noRetry e = true \/ a = retries - 1 ->
  retry_loop E (S fuel) cfg retries a last w
  = (Ok (Fell (Some e)), set_httpCalls (S (httpCalls w)) w).
Proof.
  intros Ha Ht Hend. simpl. replace (a <? retries) with true by (symmetry; lia).
  unfold try_catch, bind, client_request. rewrite Ht.
  destruct (noRetry e) eqn:Hn; [reflexivity|].
  destruct Hend as [Hd | ->]; [discriminate|].
  now rewrite Z.eqb_refl.
Qed.

Lemma retried_step k a w :
  retried E k (a + 1) (retried E 1 a w) = retried E (S k) a w.
Proof.
  unfold retried. destruct_world w; simpl.
  rewrite <- app_assoc. simpl.
  replace (randomDraws_ + 1)%nat with (S randomDraws_) by lia.
  replace (S randomDraws_ + k)%nat with (randomDraws_ + S k)%nat by lia.
  replace (httpCalls_ + 1 + k)%nat with (httpCalls_ + S k)%nat by lia.
  reflexivity.
Qed.

(** One iteration that waits and goes round again. *)
Lemma loop_again fuel cfg retries a last w e :
  a < retries - 1 ->
  outcome E (httpCalls w) cfg = Throw e ->
  noRetry e = false ->
  retry_loop E (S fuel) cfg retries a last w
  = retry_loop E fuel cfg retries (a + 1) (Some e) (retried E 1 a w).
Proof.
  intros Ha Ht Hn. simpl. replace (a <? retries) with true by (symmetry; lia).
  unfold try_catch at 1. unfold bind at 1. unfold client_request. rewrite Ht, Hn.
  replace (a =? retries - 1) with false by (symmetry; lia).
  unfold bind, Math_random, sleep, modify, retried. destruct_world w; simpl.
  replace (randomDraws_ + 1)%nat with (S randomDraws_) by lia.
  replace (httpCalls_ + 1)%nat with (S httpCalls_) by lia.
  reflexivity.
Qed.

(** [k] failed attempts, none of them the last one, each followed by its
    wait. *)
Lemma loop_prefix cfg retries k : forall fuel a last w,
  a + Z.of_nat k < retries ->
  (k <= fuel)%nat ->
  first_fail E cfg w k (fun e => negb (noRetry e)) ->
  exists last',
    retry_loop E fuel cfg retries a last w
    = retry_loop E (fuel - k) cfg retries (a + Z.of_nat k) last' (retried E k a w).
Proof.
  induction k as [|k IH]; intros fuel a last w Ha Hfuel Hfail.
  - exists last. replace (fuel - 0)%nat with fuel by lia.
    replace (a + Z.of_nat 0) with a by lia.
    unfold retried. destruct_world w; simpl. rewrite app_nil_r, !Nat.add_0_r. reflexivity.
  - destruct fuel as [|fuel]; [lia|].
    destruct (Hfail 0%nat) as (e & Ht & Hn); [lia|].
    rewrite Nat.add_0_r in Ht. apply Bool.negb_true_iff in Hn.
    rewrite (loop_again fuel cfg retries a last w e) by (try assumption; lia).
    destruct (IH fuel (a + 1) (Some e) (retried E 1 a w)) as (last' & Heq).
    + lia.
    + lia.
    + intros i Hi. destruct (Hfail (S i)) as (e' & Ht' & Hn'); [lia|].
      exists e'. split; [|exact Hn'].
      unfold retried; simpl.
      replace (httpCalls w + 1 + i)%nat with (httpCalls w + S i)%nat by lia. exact Ht'.
    + exists last'. rewrite Heq, retried_step.
      replace (a + 1 + Z.of_nat k) with (a + Z.of_nat (S k)) by lia.
      reflexivity.
Qed.

(** A whole call: [k] retried failures, then the attempt that ends it. *)
Lemma requestWithRetry_run options w k :
  Z.of_nat k < retries_of E options ->
  first_fail E (config_of E options) w k (fun e => negb (noRetry e)) ->
  (forall r, outcome E (httpCalls w + k) (config_of E options) = Ok r ->
     requestWithRetry E options w
     = (Ok r, set_httpCalls (S (httpCalls w + k)) (retried E k 0 w))) /\
  (forall e, outcome E (httpCalls w + k) (config_of E options) = Throw e ->
     noRetry e = true \/ Z.of_nat k = retries_of E options - 1 ->
     requestWithRetry E options w
     = (Throw e, set_httpCalls (S (httpCalls w + k)) (retried E k 0 w))).
Proof.
  intros Hk Hfail.
  destruct (loop_prefix (config_of E options) (retries_of E options) k
              (Z.to_nat (retries_of E options)) 0 None w) as (last' & Heq);
    [lia | lia | exact Hfail |].
  assert (Hfuel : exists f, (Z.to_nat (retries_of E options) - k)%nat = S f).
  { exists (Z.to_nat (retries_of E options) - k - 1)%nat. lia. }
  destruct Hfuel as (f & Hf). rewrite Hf in Heq.
  assert (Hhttp : httpCalls (retried E k 0 w) = (httpCalls w + k)%nat)
    by (unfold retried; destruct_world w; reflexivity).
  split.
  - intros r Ht. unfold requestWithRetry, bind. rewrite Heq.
    rewrite (loop_success f _ _ _ last' _ r); [| lia | now rewrite Hhttp].
    now rewrite Hhttp.
  - intros e Ht Hend. unfold requestWithRetry, bind. rewrite Heq.
    rewrite (loop_break f _ _ _ last' _ e); [| lia | now rewrite Hhttp | ].
    + now rewrite Hhttp.
    + destruct Hend as [?|Hlast]; [now left | right; lia].
Qed.

Lemma first_fail_weaken cfg w k (p q : JsError -> bool) :
  (forall e, p e = true -> q e = true) ->
  first_fail E cfg w k p -> first_fail E cfg w k q.
Proof.
  intros Hpq Hp i Hi. destruct (Hp i Hi) as (e & Ht & He). eauto.
Qed.
End ClientFacts.

Lemma nth_delays E k : forall a d n,
  (n < k)%nat ->
  nth n (delays E k a d) 0%Q = delayMs E (a + Z.of_nat n) (random E (d + n)).
Proof.
  induction k as [|k IH]; intros a d n Hn; [lia|].
  destruct n as [|n]; simpl.
  - now rewrite Z.add_0_r, Nat.add_0_r.
  - rewrite IH by lia.
    replace (a + 1 + Z.of_nat n) with (a + Z.pos (Pos.of_succ_nat n)) by lia.
    now replace (S d + n)%nat with (d + S n)%nat by lia.
Qed.

Lemma length_delays E k : forall a d, List.length (delays E k a d) = k.
Proof. induction k as [|k IH]; intros a d; simpl; [reflexivity | now rewrite IH]. Qed.

Lemma baseDelay_nonneg E a :
  0 <= baseDelayMs (config E) -> 0 <= maxDelayMs (config E) -> 0 <= a ->
  0 <= baseDelay E a.
Proof.
  intros Hb Hm Ha. unfold baseDelay.
  pose proof (Z.pow_nonneg 2 a ltac:(lia)).
  apply Z.min_glb; [exact Hm | nia].
Qed.

(** C3 (retry classification).  A call of [requestWithRetry] whose first [k]
    attempts fail with retryable errors (no response, 429 or 5xx) and whose
    attempt [k] fails with [e]: if [e] carries status 400, 401, 403 or 404,
    [e] is thrown and no further attempt is made ([k + 1] calls of
    [client.request] in all, so a first-attempt 404 is never retried); if [e]
    is retryable and attempt [k] is the last of the [retries] attempts,
    exactly [retries] attempts were made and [e] itself is thrown. *)
Theorem retry_classification :
  forall (E : Env) (options : RequestOptions) (w : World) (k : nat) (e : JsError),
    Z.of_nat k < retries_of E options ->
    first_fail E (config_of E options) w k claimed_retryable ->
    outcome E (httpCalls w + k) (config_of E options) = Throw e ->
    claimed_final e = true \/
    (claimed_retryable e = true /\ Z.of_nat k = retries_of E options - 1) ->
    fst (requestWithRetry E options w) = Throw e /\
    httpCalls (snd (requestWithRetry E options w)) = (httpCalls w + k + 1)%nat.
Proof.
  intros E options w k e Hk Hfail Ht Hclass.
  destruct (requestWithRetry_run E options w k Hk) as [_ Hthrow].
  { eapply first_fail_weaken; [|exact Hfail].
    intros e' He'. now rewrite (claimed_retryable_is_retried e' He'). }
  rewrite (Hthrow e Ht).
  - simpl. split; [reflexivity | lia].
  - destruct Hclass as [Hfinal|[_ Hlast]].
    + left. now apply claimed_final_is_not_retried.
    + now right.
Qed.

Lemma retry_classification_witness :
  fst (requestWithRetry env_unavailable options_me empty_world) = Throw (error_status 503) /\
  httpCalls (snd (requestWithRetry env_unavailable options_me empty_world)) = 3%nat.
Proof.
  apply (retry_classification env_unavailable options_me empty_world 2 (error_status 503)).
  - vm_compute. reflexivity.
  - intros i Hi. exists (error_status 503). split; reflexivity.
  - reflexivity.
  - right. split; reflexivity.
Defined.

(** C4 (backoff schedule).  In a call of [requestWithRetry] whose attempts
    [0 .. k-1] fail and are retried and whose attempt [k] ends the call, the
    waits are exactly one per retried attempt, in order: after attempt [n]
    the call waits [min(maxDelayMs, baseDelayMs * 2^n) + jitter], where
    [jitter] is the [Math.random()] draw of that iteration scaled by
    [0.2 * min(maxDelayMs, baseDelayMs * 2^n)], hence within
    [0 .. 0.2 * min(maxDelayMs, baseDelayMs * 2^n)]; nothing is waited after
    the attempt that ends the call. *)
Theorem backoff_schedule :
  forall (E : Env) (options : RequestOptions) (w : World) (k : nat),
    0 <= baseDelayMs (config E) ->
    0 <= maxDelayMs (config E) ->
    (forall d, (0 <= random E d)%Q /\ (random E d < 1)%Q) ->
    Z.of_nat k < retries_of E options ->
    first_fail E (config_of E options) w k (fun e => negb (noRetry e)) ->
    ends_at E (config_of E options) w (retries_of E options) k ->
    let waited := delays E k 0 (randomDraws w) in
    sleeps (snd (requestWithRetry E options w)) = (sleeps w ++ waited)%list /\
    List.length waited = k /\
    forall n, (n < k)%nat ->
      let base := inject_Z (Z.min (maxDelayMs (config E))
                                  (baseDelayMs (config E) * 2 ^ Z.of_nat n)) in
      let jitter := (random E (randomDraws w + n) * (base * (2 # 10)))%Q in
      nth n waited 0%Q = (base + jitter)%Q /\
      (0 <= jitter)%Q /\ (jitter <= (2 # 10) * base)%Q.
Proof.
  intros E options w k Hb Hm Hrand Hk Hfail Hend waited.
  destruct (requestWithRetry_run E options w k Hk Hfail) as [Hok Hthrow].
  split; [|split].
  - destruct Hend as [(r & Ht)|(e & Ht & He)].
    + rewrite (Hok r Ht). unfold retried. destruct_world w. reflexivity.
    + rewrite (Hthrow e Ht He). unfold retried. destruct_world w. reflexivity.
  - apply length_delays.
  - intros n Hn base jitter. subst waited.
    rewrite nth_delays by exact Hn. unfold delayMs.
    assert (Hbase : inject_Z (baseDelay E (0 + Z.of_nat n)) = base).
    { unfold base, baseDelay. now rewrite Z.add_0_l, Z.mul_comm. }
    rewrite Hbase. split; [reflexivity|].
    assert (Hnonneg : (0 <= base)%Q).
    { rewrite <- Hbase. change 0%Q with (inject_Z 0). rewrite <- Zle_Qle.
      apply baseDelay_nonneg; lia. }
    destruct (Hrand (randomDraws w + n)%nat) as [Hr0 Hr1].
    unfold jitter. split.
    + apply Qmult_le_0_compat; [exact Hr0|].
      apply Qmult_le_0_compat; [exact Hnonneg | discriminate].
    + setoid_replace ((2 # 10) * base)%Q with (1 * (base * (2 # 10)))%Q by ring.
      apply Qmult_le_compat_r.
      * now apply Qlt_le_weak.
      * apply Qmult_le_0_compat; [exact Hnonneg | discriminate].
Qed.

Lemma backoff_schedule_witness :
  sleeps (snd (requestWithRetry env_unavailable options_me empty_world))
  = [ (inject_Z 1000 + (1 # 2) * (inject_Z 1000 * (2 # 10)))%Q;
      (inject_Z 2000 + (1 # 2) * (inject_Z 2000 * (2 # 10)))%Q ].
Proof.
  destruct (backoff_schedule env_unavailable options_me empty_world 2) as (Hs & _ & _).
  - vm_compute. discriminate.
  - vm_compute. discriminate.
  - intros d. split; vm_compute; [discriminate | reflexivity].
  - vm_compute. reflexivity.
  - intros i Hi. exists (error_status 503). split; reflexivity.
  - right. exists (error_status 503). split; [reflexivity | right; reflexivity].
  - exact Hs.
Defined.

(** ** The token store *)

Section TokenFacts.
Context (E : Env).

Lemma sdk_cases table w :
  (exists e, sdk E table w = (Throw e, set_dbCalls (S (dbCalls w)) w)) \/
  sdk E table w = (Ok tt, set_dbCalls (S (dbCalls w)) w).
Proof. unfold sdk. destruct (dbFault E (dbCalls w)); eauto. Qed.

(** [deleteTokens] either fails before touching the table or removes the
    pair. *)
Lemma deleteTokens_cases userId accessToken w :
  (exists e w', deleteTokens E userId accessToken w = (Throw e, w') /\
                tokenItems w' = tokenItems w) \/
  (exists w', deleteTokens E userId accessToken w = (Ok true, w') /\
              tokenItems w' = delete_token userId accessToken (tokenItems w)).
Proof.
  unfold deleteTokens, tokens_deleteItem, bind.
  destruct (sdk_cases (tokenTable (config E)) w) as [(e & ->)| ->].
  - left. eexists _, _. split; [reflexivity|]. now destruct_world w.
  - right. unfold modify, ret. destruct (cacheEnabled (config E)); simpl;
      eexists; (split; [reflexivity|]); now destruct_world w.
Qed.

Lemma updateCache_tokenItems a r w :
  tokenItems (snd (_updateCache E a r w)) = tokenItems w /\
  fst (_updateCache E a r w) = Ok tt.
Proof.
  unfold _updateCache. destruct (cacheEnabled (config E)); simpl; [|auto].
  unfold modify; simpl.
  destruct (map_size _ >? _); [destruct (first_key _)|]; simpl; now destruct_world w.
Qed.

(** [saveTokens] either fails before the table changed or puts the pair. *)
Lemma saveTokens_cases userId accessToken refreshToken expiresIn w :
  (exists e w', saveTokens E userId accessToken refreshToken expiresIn w = (Throw e, w') /\
                tokenItems w' = tokenItems w) \/
  (exists a expiresAt t w',
      saveTokens E userId accessToken refreshToken expiresIn w
      = (Ok (mkTokenPair accessToken refreshToken expiresAt), w') /\
      accessToken = JStr a /\
      tokenItems w' = put_token (mkTokenItem userId a refreshToken expiresAt t t) (tokenItems w)).
Proof.
  unfold saveTokens, bind, now, lift.
  set (w1 := set_clockReads (S (clockReads w)) w).
  assert (Hw1 : tokenItems w1 = tokenItems w) by now destruct_world w.
  destruct (toISOString (option_map _ _)) as [expiresAt|e]; [|left; eauto].
  destruct (toISOString (Some _)) as [t|e] eqn:Ht; [|left; eauto].
  unfold tokens_putItem, bind.
  destruct (sdk_cases (tokenTable (config E)) w1) as [(e & ->)| ->].
  { left. eexists _, _. split; [reflexivity|]. now destruct_world w. }
  destruct accessToken as [| | | | |a| |];
    try (left; unfold throw; eexists _, _; split; [reflexivity|]; now destruct_world w).
  right. unfold modify.
  set (w2 := set_tokenItems _ _).
  destruct (updateCache_tokenItems a refreshToken w2) as [Hitems Hok].
  exists a, expiresAt, t.
  destruct (cacheEnabled (config E)).
  - destruct (_updateCache E a refreshToken w2) as [r w3]; simpl in *. subst r.
    exists w3. unfold ret. split; [reflexivity|]. split; [reflexivity|].
    rewrite Hitems. unfold w2. now destruct_world w.
  - exists w2. unfold ret. split; [reflexivity|]. split; [reflexivity|].
    unfold w2. now destruct_world w.
Qed.
End TokenFacts.

Lemma find_put_token item items :
  find (same_token_key (tk_userId item) (tk_accessToken item)) (put_token item items)
  = Some item.
Proof.
  unfold put_token. induction items as [|it items IH]; simpl.
  - unfold same_token_key. now rewrite !String.eqb_refl.
  - destruct (same_token_key _ _ it) eqn:Hk; simpl; [exact IH|].
    now rewrite Hk.
Qed.

Lemma existsb_delete_token userId accessToken items :
  existsb (same_token_key userId accessToken) (delete_token userId accessToken items) = false.
Proof.
  unfold delete_token. induction items as [|it items IH]; simpl; [reflexivity|].
  destruct (same_token_key userId accessToken it) eqn:Hk; simpl; [exact IH|].
  now rewrite Hk, IH.
Qed.

Lemma existsb_put_token_other userId old item items :
  same_token_key userId old item = false ->
  existsb (same_token_key userId old) items = false ->
  existsb (same_token_key userId old) (put_token item items) = false.
Proof.
  intros Hitem Hitems. unfold put_token. rewrite existsb_app. simpl.
  rewrite Hitem, Bool.orb_false_r.
  induction items as [|it items IH]; simpl in *; [reflexivity|].
  apply Bool.orb_false_iff in Hitems. destruct Hitems as [H1 H2].
  destruct (negb _); simpl; [rewrite H1|]; auto.
Qed.

(** C9, as the code has it (token rotation is a delete followed by a save).
    For a non-empty old access token: when [updateTokens] succeeds, the table
    holds the new pair with the new refresh token and, if the two access
    tokens differ, no longer holds the old pair; when it fails, either the
    table is unchanged (the delete failed) or the old pair has been removed
    and the new pair was not inserted (the save failed). *)
Theorem token_rotation_two_steps :
  forall (E : Env) (w : World) (userId old : string)
         (newAccessToken newRefreshToken expiresIn : JsValue),
    truthy_string old = true ->
    let run := updateTokens E userId (Some old) newAccessToken newRefreshToken expiresIn w in
    (forall pair, fst run = Ok pair ->
       exists new,
         newAccessToken = JStr new /\
         stored_refresh (snd run) userId new = Some newRefreshToken /\
         (new <> old -> holds_pair (snd run) userId old = false)) /\
    (forall e, fst run = Throw e ->
       tokenItems (snd run) = tokenItems w \/
       tokenItems (snd run) = delete_token userId old (tokenItems w)).
Proof.
  intros E w userId old newAccessToken newRefreshToken expiresIn Hold run.
  unfold run, updateTokens. rewrite Hold. unfold bind.
  destruct (deleteTokens_cases E userId old w) as [(e & w1 & -> & Hw1)|(w1 & -> & Hw1)].
  - split; [intros pair [=] | intros e' _; simpl; now left].
  - unfold ret. cbv beta iota.
    destruct (saveTokens_cases E userId newAccessToken newRefreshToken expiresIn w1)
      as [(e & w2 & -> & Hw2)|(a & expiresAt & t & w2 & -> & -> & Hw2)]; simpl.
    + split; [intros pair [=] | intros e' _; right; simpl; now rewrite Hw2].
    + split; [|intros e' [=]].
      intros pair _. exists a. split; [reflexivity|]. split.
      * unfold stored_refresh. rewrite Hw2.
        now rewrite (find_put_token (mkTokenItem userId a newRefreshToken expiresAt t t)).
      * intros Hne. unfold holds_pair. rewrite Hw2, Hw1.
        apply existsb_put_token_other.
        -- unfold same_token_key; simpl. rewrite String.eqb_refl; simpl.
           now apply String.eqb_neq.
        -- apply existsb_delete_token.
Qed.

Lemma token_rotation_two_steps_witness :
  let run := updateTokens env_unavailable "u1" (Some "T1") (JStr "T2") (JStr "R2")
                          (JNum 3600) linked_world in
  stored_refresh (snd run) "u1" "T2" = Some (JStr "R2") /\
  holds_pair (snd run) "u1" "T1" = false.
Proof.
  destruct (token_rotation_two_steps env_unavailable linked_world "u1" "T1"
              (JStr "T2") (JStr "R2") (JNum 3600) eq_refl) as [Hok _].
  destruct (Hok (mkTokenPair (JStr "T2") (JStr "R2") 1700003600000) eq_refl)
    as (new & Hnew & Hstored & Hgone).
  injection Hnew as <-.
  split; [exact Hstored | apply Hgone; discriminate].
Defined.

(** C9, as stated, fails: the store accepts the delete and rejects the put;
    [updateTokens] throws, and the table that held the old pair [(u1, T1)]
    now holds neither that pair nor the new pair [(u1, T2)]. *)
Lemma token_rotation_not_atomic :
  let run := updateTokens env_second_call_fails "u1" (Some "T1") (JStr "T2") (JStr "R2")
                          (JNum 3600) linked_world in
  holds_pair linked_world "u1" "T1" = true /\
  (exists e, fst run = Throw e) /\
  holds_pair (snd run) "u1" "T1" = false /\
  holds_pair (snd run) "u1" "T2" = false.
Proof.
  vm_compute. repeat split; try reflexivity. eexists; reflexivity.
Qed.

(** ** The token-refresh coordinator *)

Section Frame.
Context (E : Env).

Lemma keeps_ret {A} (a : A) : keeps_calls (ret a).
Proof. intros w. reflexivity. Qed.

Lemma keeps_throw {A} e : keeps_calls (@throw A e).
Proof. intros w. reflexivity. Qed.

Lemma keeps_lift {A} (r : Res A) : keeps_calls (lift r).
Proof. intros w. reflexivity. Qed.

Lemma keeps_gets {A} (f : World -> A) : keeps_calls (gets f).
Proof. intros w. reflexivity. Qed.

Lemma keeps_modify (f : World -> World) :
  (forall w, apiCalls (f w) = apiCalls w) -> keeps_calls (modify f).
Proof. intros H w. apply H. Qed.

Lemma keeps_bind {A B} (m : M A) (f : A -> M B) :
  keeps_calls m -> (forall a, keeps_calls (f a)) -> keeps_calls (bind m f).
Proof.
  intros Hm Hf w. unfold bind. specialize (Hm w).
  destruct (m w) as [[a|e] w']; simpl in *.
  - now rewrite Hf.
  - exact Hm.
Qed.

Lemma keeps_try_catch {A} (m : M A) (h : JsError -> M A) :
  keeps_calls m -> (forall e, keeps_calls (h e)) -> keeps_calls (try_catch m h).
Proof.
  intros Hm Hh w. unfold try_catch. specialize (Hm w).
  destruct (m w) as [[a|e] w']; simpl in *.
  - exact Hm.
  - now rewrite Hh.
Qed.

Lemma keeps_now : keeps_calls (now E).
Proof. intros w. now destruct_world w. Qed.

Lemma keeps_random : keeps_calls (Math_random E).
Proof. intros w. now destruct_world w. Qed.

Lemma keeps_sleep d : keeps_calls (sleep d).
Proof. intros w. now destruct_world w. Qed.

Lemma keeps_sdk table : keeps_calls (sdk E table).
Proof. intros w. unfold sdk. destruct (dbFault E (dbCalls w)); now destruct_world w. Qed.

Lemma keeps_client_request cfg : keeps_calls (client_request E cfg).
Proof. intros w. now destruct_world w. Qed.

Lemma keeps_updateCache a r : keeps_calls (_updateCache E a r).
Proof.
  unfold _updateCache. destruct (cacheEnabled (config E)); simpl; [|apply keeps_ret].
  apply keeps_modify. intros w.
  destruct (map_size _ >? _); [destruct (first_key _)|]; now destruct_world w.
Qed.

Lemma keeps_cacheService_delete ns key : keeps_calls (cacheService_delete ns key).
Proof.
  intros w. unfold cacheService_delete.
  destruct (Cache.delete (cache w) ns key). now destruct_world w.
Qed.

Create HintDb frame.

#[local] Hint Resolve keeps_ret keeps_throw keeps_lift keeps_gets keeps_now keeps_random
  keeps_sleep keeps_sdk keeps_client_request keeps_updateCache
  keeps_cacheService_delete : frame.

Ltac frame :=
  repeat first
    [ solve [auto with frame]
    | apply keeps_bind; [|intros ?]
    | apply keeps_try_catch; [|intros ?]
    | apply keeps_modify; let w := fresh "w" in intros w; now destruct_world w
    | match goal with
      | |- keeps_calls (if ?b then _ else _) => destruct b
      | |- keeps_calls (match ?x with _ => _ end) => destruct x
      end ].

Lemma keeps_retry_loop cfg retries fuel : forall a last,
  keeps_calls (retry_loop E fuel cfg retries a last).
Proof.
  induction fuel as [|fuel IH]; intros a last; simpl; [apply keeps_ret|].
  destruct (a <? retries); [|apply keeps_ret].
  frame.
Qed.

Lemma keeps_requestWithRetry options : keeps_calls (requestWithRetry E options).
Proof.
  unfold requestWithRetry. apply keeps_bind; [apply keeps_retry_loop|].
  intros exit. frame.
Qed.

Lemma keeps_refreshAccessToken rt : keeps_calls (refreshAccessToken E rt).
Proof.
  unfold refreshAccessToken. apply keeps_bind; [apply keeps_requestWithRetry|].
  intros r. apply keeps_ret.
Qed.

Lemma keeps_saveTokens u a r x : keeps_calls (saveTokens E u a r x).
Proof. unfold saveTokens, tokens_putItem. frame. Qed.

Lemma keeps_deleteTokens u a : keeps_calls (deleteTokens E u a).
Proof. unfold deleteTokens, tokens_deleteItem. frame. Qed.

Lemma keeps_updateTokens u old a r x : keeps_calls (updateTokens E u old a r x).
Proof.
  unfold updateTokens. apply keeps_bind; [|intros; apply keeps_saveTokens].
  destruct old as [old|]; [|apply keeps_ret].
  destruct (truthy_string old); [|apply keeps_ret].
  apply keeps_bind; [apply keeps_deleteTokens | intros; apply keeps_ret].
Qed.

Lemma keeps_getTokensByUserId u : keeps_calls (getTokensByUserId E u).
Proof. unfold getTokensByUserId, tokens_query_user. frame. Qed.

Lemma keeps_getRefreshTokenByAccessToken a :
  keeps_calls (getRefreshTokenByAccessToken E a).
Proof. unfold getRefreshTokenByAccessToken, tokens_query_index. frame. Qed.

Lemma keeps_lookupRefreshToken u a : keeps_calls (lookupRefreshToken E u a).
Proof.
  unfold lookupRefreshToken. apply keeps_bind.
  - destruct u as [uid|]; [|apply keeps_ret].
    destruct (truthy_string uid); [|apply keeps_ret].
    apply keeps_bind; [apply keeps_getTokensByUserId|]. intros tokens. frame.
  - intros fromUser. destruct (negb (truthy fromUser));
      [apply keeps_getRefreshTokenByAccessToken | apply keeps_ret].
Qed.

Lemma keeps_clearTokenRelatedCache a : keeps_calls (_clearTokenRelatedCache a).
Proof. unfold _clearTokenRelatedCache, cacheService_makeKey. frame. Qed.

Lemma keeps_persistAndRetry f a u newTokens :
  keeps_calls (persistAndRetry E f a u newTokens).
Proof.
  unfold persistAndRetry, updatedApiCallFn.
  apply keeps_bind; [apply keeps_lift | intros access_token].
  apply keeps_bind; [apply keeps_lift | intros refresh_token].
  apply keeps_bind; [apply keeps_lift | intros expires_in].
  apply keeps_bind.
  - destruct (truthy_opt u); [apply keeps_updateTokens | apply keeps_saveTokens].
  - intros _. apply keeps_bind; [apply keeps_clearTokenRelatedCache|].
    intros _. apply keeps_ret.
Qed.

(** Whatever happens after the first call of [apiCallFn], it is not called
    again. *)
Lemma executeWithTokenRefresh_calls_once f accessToken userId w :
  keeps_calls (fn_body f) ->
  apiCalls (snd (_executeWithTokenRefresh E f accessToken userId w)) = S (apiCalls w).
Proof.
  intros Hbody.
  unfold _executeWithTokenRefresh, try_catch at 1, invoke.
  specialize (Hbody (set_apiCalls (S (apiCalls w)) w)).
  replace (apiCalls (set_apiCalls (S (apiCalls w)) w)) with (S (apiCalls w)) in Hbody
    by now destruct_world w.
  destruct (fn_body f (set_apiCalls (S (apiCalls w)) w)) as [[v|error] w1];
    simpl in Hbody; [exact Hbody|].
  rewrite <- Hbody.
  match goal with |- apiCalls (snd (?h w1)) = _ => assert (Hk : keeps_calls h) end.
  { destruct accessToken as [token|]; [|apply keeps_throw].
    destruct (negb (is401 error) || negb (truthy_string token)); [apply keeps_throw|].
    apply keeps_try_catch; [|intros; apply keeps_throw].
    apply keeps_bind; [apply keeps_lookupRefreshToken|]. intros refreshToken.
    destruct (negb (truthy refreshToken)); [apply keeps_throw|].
    apply keeps_bind; [apply keeps_refreshAccessToken|]. intros newTokens.
    apply keeps_persistAndRetry. }
  apply Hk.
Qed.

(** With the cache module as it is exported, [getStreamUrl] fails at once,
    on its first statement, whatever its arguments, and changes nothing. *)
Lemma getStreamUrl_fails accessToken trackId userId w :
  getStreamUrl E accessToken trackId userId w
  = (Throw (PlainErr "Error de conexión con el servicio de Tidal"), w).
Proof. reflexivity. Qed.

(** The arrow function built for the retry only produces text. *)
Lemma updatedApiCallFn_is_text f accessToken new_access_token w :
  updatedApiCallFn f accessToken new_access_token w
  = (Ok (JStr (replace (fn_source f) accessToken (to_string new_access_token))), w).
Proof. reflexivity. Qed.

(** A failure of the wrapped call is either rethrown as it is, or replaced
    by the text that [updatedApiCallFn] returns. *)
Lemma executeWithTokenRefresh_after_failure f accessToken userId w error w1 :
  invoke f w = (Throw error, w1) ->
  fst (_executeWithTokenRefresh E f accessToken userId w) = Throw error \/
  exists text, fst (_executeWithTokenRefresh E f accessToken userId w) = Ok (JStr text).
Proof.
  intros Hf. unfold _executeWithTokenRefresh, try_catch at 1. rewrite Hf.
  destruct accessToken as [token|]; [|now left].
  destruct (negb (is401 error) || negb (truthy_string token)); [now left|].
  unfold try_catch.
  match goal with |- context [bind ?m ?k ?w1] => destruct (bind m k w1) as [[v|e] w2] eqn:Hrun end;
    [|now left].
  right. simpl.
  unfold bind in Hrun.
  destruct (lookupRefreshToken E userId token _) as [[rt|e1] w3]; [|discriminate].
  destruct (negb (truthy rt)); [discriminate|].
  destruct (refreshAccessToken E rt w3) as [[newTokens|e2] w4]; [|discriminate].
  unfold persistAndRetry, bind, lift in Hrun.
  repeat match type of Hrun with
         | context [match ?x with _ => _ end] =>
             match x with
             | context [match _ with _ => _ end] => fail 1
             | _ => destruct x eqn:?; try discriminate
             end
         end.
Qed.
End Frame.

(** C1 (refresh-once).  The wrapped call is rejected with 401, user [u1] has
    the pair [(T1, R1)] stored, the exchange answers with the pair
    [(T2, R2)], and a second invocation of the wrapped call would succeed.
    The coordinator persists the new pair in place of the old one, but the
    wrapped call has been invoked once, not twice, and the caller receives
    the 401 error, not the result of a second invocation: after the pair is
    saved, [_clearTokenRelatedCache] calls [cacheService.makeKey], which the
    exported cache instance does not have, and the error handler rethrows
    the 401; and [updatedApiCallFn], had it been reached, yields the source
    text of the wrapped call (here unchanged, since the text does not
    contain the token) without calling it. *)
Theorem refresh_once_not_retried :
  let run := _executeWithTokenRefresh env_refresh_ok expired_once
               (Some "T1") (Some "u1") linked_world in
  fst (invoke expired_once linked_world) = Throw (error_status 401) /\
  (exists result, fst (invoke expired_once (snd run)) = Ok result) /\
  holds_pair linked_world "u1" "T1" = true /\
  stored_refresh (snd run) "u1" "T2" = Some (JStr "R2") /\
  holds_pair (snd run) "u1" "T1" = false /\
  apiCalls (snd run) = 1%nat /\
  fst run = Throw (error_status 401) /\
  fst (updatedApiCallFn expired_once "T1" (JStr "T2") (snd run))
  = Ok (JStr "() => tidalApi.get('/me', {}, accessToken)") /\
  apiCalls (snd (updatedApiCallFn expired_once "T1" (JStr "T2") (snd run))) = 1%nat.
Proof.
  vm_compute. repeat split; try reflexivity. eexists; reflexivity.
Qed.

(** C2 (refresh failure propagation).  When the wrapped call fails with a 401
    error [error] and the access token is present, then, if the lookup by
    [userId] and by the access-token index yields no refresh token, or if it
    yields one and the exchange [refreshAccessToken] throws, the coordinator
    throws [error] itself. *)
Theorem refresh_failure_propagates_original :
  forall (E : Env) (apiCallFn : JsFunction) (token : string) (userId : option string)
         (w w1 : World) (error : JsError),
    invoke apiCallFn w = (Throw error, w1) ->
    is401 error = true ->
    truthy_string token = true ->
    (exists refreshToken w',
        lookupRefreshToken E userId token w1 = (Ok refreshToken, w') /\
        (truthy refreshToken = false \/
         exists refreshError w'',
           refreshAccessToken E refreshToken w' = (Throw refreshError, w''))) ->
    fst (_executeWithTokenRefresh E apiCallFn (Some token) userId w) = Throw error.
Proof.
  intros E apiCallFn token userId w w1 error Hcall H401 Htoken
         (refreshToken & w' & Hlookup & Hfail).
  unfold _executeWithTokenRefresh, try_catch at 1. rewrite Hcall, H401, Htoken.
  change (negb true || negb true) with false. cbv iota.
  unfold try_catch, bind. rewrite Hlookup.
  destruct Hfail as [Hnone|(refreshError & w'' & Hexchange)].
  - rewrite Hnone. reflexivity.
  - destruct (truthy refreshToken); simpl; [|reflexivity].
    rewrite Hexchange. reflexivity.
Qed.

Lemma refresh_failure_propagates_original_witness :
  fst (_executeWithTokenRefresh env_unavailable expired_once (Some "T1") (Some "u1")
         linked_world)
  = Throw (error_status 401).
Proof.
  apply (refresh_failure_propagates_original env_unavailable expired_once "T1" (Some "u1")
           linked_world (set_apiCalls 1 linked_world) (error_status 401)).
  - reflexivity.
  - reflexivity.
  - reflexivity.
  - eexists _, _. split; [vm_compute; reflexivity|].
    right. eexists _, _. vm_compute. reflexivity.
Defined.

(** ** The playback store *)

Lemma toISOString_valid t : valid_instant t -> toISOString (Some t) = Ok t.
Proof.
  unfold valid_instant, toISOString. intros H.
  now replace (Z.abs t <=? 8640000000000000) with true by (symmetry; lia).
Qed.

Lemma ticking_valid n : valid_instant (ticking n).
Proof. unfold valid_instant, ticking. lia. Qed.

Lemma assign_absent k (source : list (string * JsValue)) : forall target,
  map_get k source = None -> map_get k (assign target source) = map_get k target.
Proof.
  unfold assign. induction source as [|[k0 v0] source IH]; intros target Hk; simpl in *.
  - reflexivity.
  - destruct (String.eqb_spec k k0) as [->|Hne]; [discriminate|].
    rewrite IH by exact Hk. now apply map_get_set_other.
Qed.

Lemma truthy_get_prop state k : truthy state = true -> exists v, get_prop state k = Ok v.
Proof.
  destruct state; simpl; try discriminate; intros _; eauto.
  - destruct (String.eqb k "length"); eauto.
  - destruct (String.eqb k "length"); eauto.
Qed.

Lemma truthy_token_of state :
  truthy state = true -> get_prop state "token" = Ok (token_of state).
Proof.
  intros H. unfold token_of.
  destruct (truthy_get_prop state "token" H) as (v & ->). reflexivity.
Qed.

(** Among the items of one user, the fold of the descending query keeps an
    item of the list. *)
Lemma latest_item_fold userId (P : StateItem -> Prop) items : forall acc,
  (forall it, In it items -> st_userId it = userId -> P it) ->
  (forall b, acc = Some b -> P b) ->
  forall b,
    fold_left
      (fun acc it =>
         if String.eqb (st_userId it) userId then
           match acc with
           | None => Some it
           | Some best => if st_timestamp best <? st_timestamp it then Some it else acc
           end
         else acc)
      items acc = Some b -> P b.
Proof.
  induction items as [|it items IH]; intros acc Hitems Hacc b; simpl.
  - apply Hacc.
  - apply IH.
    + intros it' Hin. apply Hitems. now right.
    + intros b'. destruct (String.eqb_spec (st_userId it) userId) as [Hu|Hu]; [|apply Hacc].
      destruct acc as [best|].
      * destruct (st_timestamp best <? st_timestamp it).
        -- intros [= <-]. apply Hitems; [now left | exact Hu].
        -- apply Hacc.
      * intros [= <-]. apply Hitems; [now left | exact Hu].
Qed.

(** A snapshot written at an instant no earlier than the user's other items
    is the latest one. *)
Lemma latest_item_put userId t state ttl created items :
  not_after t userId items ->
  latest_item userId (put_state (mkStateItem userId t state ttl created) items)
  = Some (mkStateItem userId t state ttl created).
Proof.
  intros Hna. unfold latest_item, put_state. rewrite fold_left_app. simpl.
  rewrite String.eqb_refl.
  match goal with |- match ?acc with _ => _ end = _ => destruct acc as [best|] eqn:Hacc end;
    [|reflexivity].
  assert (Hbest : st_timestamp best < t).
  { revert Hacc.
    apply (latest_item_fold userId (fun b => st_timestamp b < t)); [|discriminate].
    intros it Hin Hu. apply filter_In in Hin. destruct Hin as [Hin Hkey].
    specialize (Hna it Hin Hu). unfold same_state_key in Hkey. simpl in Hkey.
    rewrite Hu, String.eqb_refl in Hkey. simpl in Hkey.
    apply Bool.negb_true_iff, Z.eqb_neq in Hkey. lia. }
  now replace (st_timestamp best <? t) with true by (symmetry; lia).
Qed.

Section PlaybackFacts.
Context (E : Env).
Hypothesis Hcalm : calm E.

Lemma sdk_ok table w : sdk E table w = (Ok tt, set_dbCalls (S (dbCalls w)) w).
Proof. unfold sdk. now rewrite (proj1 Hcalm). Qed.

Lemma nowISO_ok w :
  nowISO E w
  = (Ok (JStr (iso_text (clock E (clockReads w)))), set_clockReads (S (clockReads w)) w).
Proof.
  unfold nowISO, bind, now, lift.
  now rewrite (toISOString_valid _ (proj2 Hcalm (clockReads w))).
Qed.

(** The world [savePlaybackState] leaves. *)
Lemma savePlaybackState_ok userId props w :
  savePlaybackState E userId (JObj props) w
  = (Ok (JObj props),
     set_playbackItems
       (put_state (snapshot_item userId (clock E (clockReads w)) (JObj props))
                  (playbackItems w))
       (set_dbCalls (S (dbCalls w)) (set_clockReads (S (clockReads w)) w))).
Proof.
  unfold savePlaybackState, bind, now, lift.
  rewrite (toISOString_valid _ (proj2 Hcalm (clockReads w))).
  unfold playback_putItem, bind. rewrite sdk_ok. unfold modify, ret, snapshot_item.
  destruct_world w. reflexivity.
Qed.

Lemma getLatestPlaybackState_ok userId w :
  getLatestPlaybackState E userId w
  = (match latest_item userId (playbackItems w) with
     | None => Ok JNull
     | Some item =>
         match st_state item with
         | SJson playbackState => Ok playbackState
         | SInvalid => Ok JNull
         | SAbsent => Throw (TypeErr "Cannot read properties of undefined (reading 'substring')")
         end
     end,
     set_dbCalls (S (dbCalls w)) w).
Proof.
  unfold getLatestPlaybackState, playback_query_latest, bind. rewrite sdk_ok.
  unfold gets. replace (playbackItems (set_dbCalls (S (dbCalls w)) w)) with (playbackItems w)
    by now destruct_world w.
  destruct (latest_item userId (playbackItems w)) as [item|]; [|reflexivity].
  destruct (st_state item); reflexivity.
Qed.

(** [updateTrackState] with a token other than the latest snapshot's. *)
Lemma updateTrackState_mismatch userId token updates w item currentState :
  latest_item userId (playbackItems w) = Some item ->
  st_state item = SJson currentState ->
  truthy currentState = true ->
  strict_eq (token_of currentState) token = false ->
  let props := map_set "updatedAt" (JStr (iso_text (clock E (clockReads w))))
                 (map_set "token" token (assign [] (own_props updates))) in
  updateTrackState E userId token updates w
  = (Ok (JObj props),
     set_playbackItems
       (put_state (snapshot_item userId (clock E (S (clockReads w))) (JObj props))
                  (playbackItems w))
       (set_dbCalls (S (S (dbCalls w))) (set_clockReads (S (S (clockReads w))) w))).
Proof.
  intros Hlatest Hstate Htruthy Hneq props.
  unfold updateTrackState. unfold bind at 1. rewrite getLatestPlaybackState_ok.
  rewrite Hlatest, Hstate, Htruthy. change (negb true) with false. cbv beta iota.
  unfold bind at 1, lift at 1. rewrite (truthy_token_of _ Htruthy). rewrite Hneq.
  change (negb false) with true. cbv beta iota.
  unfold bind at 1. rewrite nowISO_ok.
  replace (clockReads (set_dbCalls (S (dbCalls w)) w)) with (clockReads w)
    by now destruct_world w.
  fold props. rewrite savePlaybackState_ok.
  destruct_world w. reflexivity.
Qed.
End PlaybackFacts.

Lemma map_get_not_key {V : Type} (m : JsMap V) k :
  ~ In k (map_keys m) -> map_get k m = None.
Proof.
  induction m as [|[k0 v0] m IH]; simpl; [reflexivity|].
  intros Hnin. destruct (String.eqb_spec k k0) as [->|Hne].
  - exfalso. apply Hnin. now left.
  - apply IH. intros Hin. apply Hnin. now right.
Qed.

Lemma assign_present k v (source : list (string * JsValue)) : forall target,
  NoDup (map_keys source) ->
  map_get k source = Some v -> map_get k (assign target source) = Some v.
Proof.
  unfold assign. induction source as [|[k0 v0] source IH]; intros target Hnd Hk; simpl in *.
  - discriminate.
  - inversion Hnd as [|? ? Hnin Hnd']; subst.
    destruct (String.eqb_spec k k0) as [->|Hne].
    + injection Hk as <-.
      pose proof (assign_absent k0 source (map_set k0 v0 target)
                    (map_get_not_key source k0 Hnin)) as Habs.
      unfold assign in Habs. rewrite Habs. apply map_get_set_same.
    + now apply IH.
Qed.

(** C10 (implicit: a token mismatch in [updateTrackState] writes a sparse
    snapshot).  When the user's latest snapshot exists and its token is not
    the [token] argument, [updateTrackState] returns and stores a new object
    whose [token] is the argument, whose [updatedAt] is the current instant,
    which has every property of [updates] (other than [token] and
    [updatedAt]) with the value given there, and which has no property
    other than these: nothing of the previous snapshot ([type],
    [trackList], [currentIndex], ...) is carried over.  Written no earlier
    than the user's other snapshots, it is the user's latest item. *)
Theorem stale_token_update_is_sparse :
  forall (E : Env) (userId : string) (token updates : JsValue) (w : World)
         (item : StateItem) (currentState : JsValue),
    calm E ->
    latest_item userId (playbackItems w) = Some item ->
    st_state item = SJson currentState ->
    truthy currentState = true ->
    strict_eq (token_of currentState) token = false ->
    not_after (clock E (S (clockReads w))) userId (playbackItems w) ->
    exists props,
      fst (updateTrackState E userId token updates w) = Ok (JObj props) /\
      map_get "token" props = Some token /\
      map_get "updatedAt" props = Some (JStr (iso_text (clock E (clockReads w)))) /\
      (NoDup (map_keys (own_props updates)) ->
       forall k v, k <> "token" -> k <> "updatedAt" ->
                   map_get k (own_props updates) = Some v -> map_get k props = Some v) /\
      (forall k, k <> "token" -> k <> "updatedAt" ->
                 map_get k (own_props updates) = None -> map_get k props = None) /\
      latest_item userId (playbackItems (snd (updateTrackState E userId token updates w)))
      = Some (snapshot_item userId (clock E (S (clockReads w))) (JObj props)).
Proof.
  intros E userId token updates w item currentState Hcalm Hlatest Hstate Htruthy Hneq Hna.
  rewrite (updateTrackState_mismatch E Hcalm userId token updates w item currentState
             Hlatest Hstate Htruthy Hneq).
  eexists. split; [reflexivity|]. simpl fst. simpl snd.
  split; [|split; [|split; [|split]]].
  - rewrite map_get_set_other by discriminate. apply map_get_set_same.
  - apply map_get_set_same.
  - intros Hnodup k v Ht Hu Hget.
    rewrite map_get_set_other by exact Hu. rewrite map_get_set_other by exact Ht.
    now apply assign_present.
  - intros k Ht Hu Habs.
    rewrite map_get_set_other by exact Hu. rewrite map_get_set_other by exact Ht.
    now rewrite assign_absent.
  - unfold snapshot_item.
    replace (playbackItems (set_playbackItems _ _)) with
      (put_state (mkStateItem userId (clock E (S (clockReads w)))
                    (stringify (JObj (map_set "updatedAt"
                       (JStr (iso_text (clock E (clockReads w))))
                       (map_set "token" token (assign [] (own_props updates))))))
                    (clock E (S (clockReads w)) / 1000 + PLAYBACK_TTL_SECONDS)
                    (clock E (S (clockReads w))))
                 (playbackItems w))
      by (unfold snapshot_item; now destruct_world w).
    now apply latest_item_put.
Qed.

Lemma calm_catalog_ok : calm env_catalog_ok.
Proof. split; intros k; [reflexivity | apply ticking_valid]. Qed.

Lemma stale_token_update_is_sparse_witness :
  exists props,
    fst (updateTrackState env_catalog_ok "u1" (JStr "stale")
           (JObj [("offsetInMilliseconds", JNum 5000)]) (playing_world 1 "tr1"))
    = Ok (JObj props) /\
    map_get "token" props = Some (JStr "stale") /\
    map_get "offsetInMilliseconds" props = Some (JNum 5000) /\
    map_get "type" props = None /\
    map_get "trackList" props = None /\
    map_get "currentIndex" props = None.
Proof.
  destruct (stale_token_update_is_sparse env_catalog_ok "u1" (JStr "stale")
              (JObj [("offsetInMilliseconds", JNum 5000)]) (playing_world 1 "tr1")
              (mkStateItem "u1" 1699999999000 (SJson (playlist_state 1 "tr1"))
                           1700086399 1699999999000)
              (playlist_state 1 "tr1"))
    as (props & Hres & Htoken & _ & Hgiven & Habsent & _).
  - exact calm_catalog_ok.
  - reflexivity.
  - reflexivity.
  - reflexivity.
  - reflexivity.
  - intros it [<-|[]] _. vm_compute. discriminate.
  - exists props. split; [exact Hres|]. split; [exact Htoken|]. split.
    + apply Hgiven; try discriminate; [|reflexivity].
      repeat constructor; simpl; intuition discriminate.
    + repeat split; apply Habsent; (discriminate || reflexivity).
Defined.

(** A [PlaybackStopped] event whose token is not the latest snapshot's:
    the latest snapshot becomes the four-property record, and [getPlaylist],
    which found the playlist before, finds none. *)
Example stopped_with_stale_token :
  let run := handle env_catalog_ok (stopped (JStr "stale") 5000) (playing_world 1 "tr1") in
  token_of (playlist_state 1 "tr1") = JStr "tr1" /\
  fst run = Ok EmptyResponse /\
  latest_snapshot (snd run) "u1"
  = Some (JObj [("offsetInMilliseconds", JNum 5000);
                ("pausedAt", JStr "2023-11-14T22:13:20.000Z");
                ("token", JStr "stale");
                ("updatedAt", JStr "2023-11-14T22:13:20.001Z")]) /\
  fst (getPlaylist env_catalog_ok "u1" (playing_world 1 "tr1")) <> Ok None /\
  fst (getPlaylist env_catalog_ok "u1" (snd run)) = Ok None.
Proof. vm_compute. repeat split; (reflexivity || discriminate). Qed.

(** ** The playback handler *)





Lemma or_else_index i : or_else (JNum i) (JNum 0) = JNum i.
Proof.
  unfold or_else. simpl. destruct (Z.eqb_spec i 0) as [->|]; reflexivity.
Qed.

Section HandlerFacts.
Context (E : Env).
Hypothesis Hcalm : calm E.

(** [getPlaylist] on a latest snapshot that is an object. *)
Lemma getPlaylist_ok userId w item props :
  latest_item userId (playbackItems w) = Some item ->
  st_state item = SJson (JObj props) ->
  getPlaylist E userId w
  = (Ok (if strict_eq (obj_get "type" props) (JStr "playlist")
         then Some (mkPlaylist (or_else (obj_get "trackList" props) (JArr []))
                               (or_else (obj_get "currentIndex" props) (JNum 0)))
         else None),
     set_dbCalls (S (dbCalls w)) w).
Proof.
  intros Hlatest Hstate. unfold getPlaylist. unfold bind at 1.
  rewrite (getLatestPlaybackState_ok E Hcalm), Hlatest, Hstate.
  change (truthy (JObj props)) with true. change (negb true) with false. cbv beta iota.
  unfold bind, lift. cbn [get_prop].
  destruct (strict_eq (obj_get "type" props) (JStr "playlist")); reflexivity.
Qed.

End HandlerFacts.

Lemma playbackItems_set_dbCalls n w : playbackItems (set_dbCalls n w) = playbackItems w.
Proof. now destruct_world w. Qed.

Lemma playbackItems_set_session s w : playbackItems (set_session s w) = playbackItems w.
Proof. now destruct_world w. Qed.

Lemma clockReads_set_dbCalls n w : clockReads (set_dbCalls n w) = clockReads w.
Proof. now destruct_world w. Qed.

Lemma last_index_array tracks :
  last_index (JArr tracks) = Ok (Some (Z.of_nat (List.length tracks) - 1)).
Proof. reflexivity. Qed.

Lemma get_prop_obj props k : get_prop (JObj props) k = Ok (obj_get k props).
Proof. reflexivity. Qed.

Section HandlerRun.
Context (E : Env).
Hypothesis Hcalm : calm E.

Variables (userId : string) (accessToken : option string) (token offset err : JsValue).
Variables (w : World) (item : StateItem) (props : list (string * JsValue)).
Variables (tracks : list JsValue) (i : Z).

Hypothesis Hlatest : latest_item userId (playbackItems w) = Some item.
Hypothesis Hstate : st_state item = SJson (JObj props).
Hypothesis Htype : obj_get "type" props = JStr "playlist".
Hypothesis Htracks : obj_get "trackList" props = JArr tracks.
Hypothesis Hindex : obj_get "currentIndex" props = JNum i.





End HandlerRun.



Lemma latest_snapshot_put userId t props items w :
  playbackItems w = put_state (snapshot_item userId t (JObj props)) items ->
  not_after t userId items ->
  latest_snapshot w userId = Some (json_roundtrip (JObj props)).
Proof.
  intros Hitems Hna. unfold latest_snapshot. rewrite Hitems.
  unfold snapshot_item. now rewrite latest_item_put.
Qed.


Lemma monotone_catalog_ok : monotone env_catalog_ok.
Proof. intros a b Hab. simpl. unfold ticking. lia. Qed.



(** C8, as the code has it: a [PlaybackFinished] event is handled without
    reading its token.  Whatever token the event carries, [handle] gives the
    same response and leaves the same state as for any other token, the
    matching one included. *)
Theorem finished_ignores_token :
  forall (E : Env) (userId : string) (accessToken : option string)
         (token token' offset err : JsValue) (hasSession : bool) (w : World),
    handle E (mkInput "PlaybackFinished" userId accessToken token offset err hasSession) w
    = handle E (mkInput "PlaybackFinished" userId accessToken token' offset err hasSession) w.
Proof. intros. reflexivity. Qed.

(** C8, as stated, fails.  The latest snapshot plays token [tr3] at the last
    index, 3 of 4: a [Finished] event carrying the token [stale] appends a
    snapshot with [isComplete = true].  The latest snapshot plays token [tr1]
    at index 1 of 4 and the catalog layer resolves the next track: a
    [Finished] event carrying the token [stale] appends two snapshots and
    moves the latest [currentIndex] to 2. *)
Lemma stale_finished_event_changes_state :
  let w3 := playing_world 3 "tr3" in
  let run3 := handle env_unavailable (finished (JStr "stale") (Some "T1")) w3 in
  let w1 := playing_world 1 "tr1" in
  let run1 := handle env_catalog_ok (finished (JStr "stale") (Some "T1")) w1 in
  (strict_eq (token_of (playlist_state 3 "tr3")) (JStr "stale") = false /\
   List.length (playbackItems w3) = 1%nat /\
   List.length (playbackItems (snd run3)) = 2%nat /\
   option_map (fun s => field s "isComplete") (latest_snapshot w3 "u1")
   = Some JUndefined /\
   option_map (fun s => field s "isComplete") (latest_snapshot (snd run3) "u1")
   = Some (JBool true)) /\
  (strict_eq (token_of (playlist_state 1 "tr1")) (JStr "stale") = false /\
   field (playlist_state 1 "tr1") "currentIndex" = JNum 1 /\
   List.length (playbackItems w1) = 1%nat /\
   List.length (playbackItems (snd run1)) = 3%nat /\
   option_map (fun s => field s "currentIndex") (latest_snapshot (snd run1) "u1")
   = Some (JNum 2)).
Proof. vm_compute. repeat split; reflexivity. Qed.

(** With a catalog layer that fails, as [getStreamUrl] does above, the same
    event records the failure: the latest snapshot keeps [currentIndex = 1]
    and carries [error]. *)
Example finished_with_failing_catalog :
  let run := handle env_unavailable (finished (JStr "tr1") (Some "T1")) (playing_world 1 "tr1") in
  streamUrlOf env_unavailable (Some "T1") (JStr "tr2") "u1"
  = fst (getStreamUrl env_unavailable (Some "T1") (JStr "tr2") (Some "u1") (playing_world 1 "tr1")) /\
  fst run = Ok EmptyResponse /\
  option_map (fun s => field s "currentIndex") (latest_snapshot (snd run) "u1")
  = Some (JNum 1) /\
  option_map (fun s => field s "error") (latest_snapshot (snd run) "u1")
  = Some (JStr "No se pudo reproducir la siguiente pista").
Proof. vm_compute. repeat split; reflexivity. Qed.

(** The same event in a request without session, with a catalog layer that
    resolves the track: the two snapshots of the advance are written, then
    the attributes manager refuses, and the snapshot written by the [catch]
    block is the latest one, at [currentIndex = 1] again. *)
Example finished_out_of_session_keeps_the_index :
  let run := handle env_catalog_ok (finished_out_of_session (JStr "tr1") (Some "T1"))
                    (playing_world 1 "tr1") in
  fst run = Ok EmptyResponse /\
  List.length (playbackItems (snd run)) = 4%nat /\
  option_map (fun s => field s "currentIndex") (latest_snapshot (snd run) "u1")
  = Some (JNum 1) /\
  option_map (fun s => field s "error") (latest_snapshot (snd run) "u1")
  = Some (JStr "No se pudo reproducir la siguiente pista").
Proof. vm_compute. repeat split; reflexivity. Qed.

(** * Further properties of the code *)

(** ** The retrying client, whatever the remote service does *)

Section ClientRuns.
Context (E : Env).

Lemma retried_none a w : retried E 0 a w = w.
Proof. unfold retried. destruct_world w; simpl. now rewrite app_nil_r, !Nat.add_0_r. Qed.

Lemma httpCalls_retried k a w : httpCalls (retried E k a w) = (httpCalls w + k)%nat.
Proof. unfold retried. now destruct_world w. Qed.

(** The loop entered at [attempt = a] with enough fuel: either no attempt is
    left and nothing happens, or it makes [k + 1] attempts, waits after each
    of the first [k], and leaves with a response or an error. *)
Lemma retry_loop_shape cfg retries : forall fuel a last w,
  retries - a <= Z.of_nat fuel ->
  (retries <= a /\ retry_loop E fuel cfg retries a last w = (Ok (Fell last), w)) \/
  (exists k exit,
      a + Z.of_nat k < retries /\
      exit <> Fell None /\
      retry_loop E fuel cfg retries a last w
      = (Ok exit, set_httpCalls (S (httpCalls w + k)) (retried E k a w))).
Proof.
  induction fuel as [|fuel IH]; intros a last w Hfuel.
  - left. split; [lia | reflexivity].
  - destruct (Z.ltb_spec a retries) as [Ha|Ha].
    2:{ left. split; [lia|]. simpl.
        replace (a <? retries) with false by (symmetry; lia). reflexivity. }
    right. destruct (outcome E (httpCalls w) cfg) as [r|e] eqn:Hout.
    + exists 0%nat, (Returned r). split; [lia|]. split; [discriminate|].
      rewrite (loop_success E fuel cfg retries a last w r Ha Hout).
      now rewrite retried_none, Nat.add_0_r.
    + destruct (noRetry e) eqn:Hn.
      * exists 0%nat, (Fell (Some e)). split; [lia|]. split; [discriminate|].
        rewrite (loop_break E fuel cfg retries a last w e Ha Hout (or_introl Hn)).
        now rewrite retried_none, Nat.add_0_r.
      * destruct (Z.eq_dec a (retries - 1)) as [Hlast|Hmore].
        -- exists 0%nat, (Fell (Some e)). split; [lia|]. split; [discriminate|].
           rewrite (loop_break E fuel cfg retries a last w e Ha Hout (or_intror Hlast)).
           now rewrite retried_none, Nat.add_0_r.
        -- rewrite (loop_again E fuel cfg retries a last w e) by (try assumption; lia).
           destruct (IH (a + 1) (Some e) (retried E 1 a w)) as [[Hno _]|(k & exit & Hk & Hexit & Hrun)];
             [lia | lia |].
           exists (S k), exit. split; [lia|]. split; [exact Hexit|].
           rewrite Hrun, retried_step, httpCalls_retried.
           now replace (httpCalls w + 1 + k)%nat with (httpCalls w + S k)%nat by lia.
Qed.

(** The same for a whole call. *)
Lemma requestWithRetry_shape options w :
  (retries_of E options <= 0 /\
   exists message, requestWithRetry E options w = (Throw (TypeErr message), w)) \/
  (exists k result,
      Z.of_nat k < retries_of E options /\
      requestWithRetry E options w
      = (result, set_httpCalls (S (httpCalls w + k)) (retried E k 0 w))).
Proof.
  unfold requestWithRetry, bind.
  destruct (retry_loop_shape (config_of E options) (retries_of E options)
              (Z.to_nat (retries_of E options)) 0 None w) as [[Hno Hrun]|(k & exit & Hk & Hexit & Hrun)].
  - lia.
  - left. split; [lia|]. rewrite Hrun. eexists. reflexivity.
  - right. rewrite Hrun. exists k.
    destruct exit as [r|[e|]]; [eexists; split; [lia | reflexivity] ..| contradiction].
Qed.
End ClientRuns.

Lemma total_wait_app l1 l2 : (total_wait (l1 ++ l2) == total_wait l1 + total_wait l2)%Q.
Proof.
  unfold total_wait. induction l1 as [|d l1 IH]; simpl.
  - ring.
  - rewrite IH. ring.
Qed.

Lemma delayMs_le E a r :
  0 <= baseDelayMs (config E) -> 0 <= maxDelayMs (config E) -> 0 <= a ->
  (0 <= r)%Q -> (r <= 1)%Q ->
  (delayMs E a r <= (12 # 10) * inject_Z (maxDelayMs (config E)))%Q.
Proof.
  intros Hb Hm Ha Hr0 Hr1. unfold delayMs.
  pose proof (baseDelay_nonneg E a Hb Hm Ha) as Hnonneg.
  assert (Hcap : baseDelay E a <= maxDelayMs (config E)) by (unfold baseDelay; lia).
  rewrite Zle_Qle in Hnonneg, Hcap. change (inject_Z 0) with 0%Q in Hnonneg.
  set (b := inject_Z (baseDelay E a)) in *.
  set (m := inject_Z (maxDelayMs (config E))) in *.
  assert (H1 : (r * (b * (2 # 10)) <= 1 * (b * (2 # 10)))%Q).
  { apply Qmult_le_compat_r; [exact Hr1|].
    apply Qmult_le_0_compat; [exact Hnonneg | discriminate]. }
  assert (H2 : (b + 1 * (b * (2 # 10)) == (12 # 10) * b)%Q) by ring.
  assert (H3 : ((12 # 10) * b <= (12 # 10) * m)%Q).
  { rewrite !(Qmult_comm (12 # 10)). apply Qmult_le_compat_r; [exact Hcap | discriminate]. }
  apply Qle_trans with (b + 1 * (b * (2 # 10)))%Q.
  - apply Qplus_le_r. exact H1.
  - rewrite H2. exact H3.
Qed.

Lemma total_wait_delays E k : forall a d,
  0 <= baseDelayMs (config E) -> 0 <= maxDelayMs (config E) -> 0 <= a ->
  (forall n, (0 <= random E n)%Q /\ (random E n <= 1)%Q) ->
  (total_wait (delays E k a d)
   <= inject_Z (Z.of_nat k) * ((12 # 10) * inject_Z (maxDelayMs (config E))))%Q.
Proof.
  induction k as [|k IH]; intros a d Hb Hm Ha Hrand.
  - change (total_wait (delays E 0 a d)) with 0%Q. change (inject_Z (Z.of_nat 0)) with 0%Q.
    rewrite Qmult_0_l. apply Qle_refl.
  - change (delays E (S k) a d) with (delayMs E a (random E d) :: delays E k (a + 1) (S d)).
    change (total_wait (delayMs E a (random E d) :: delays E k (a + 1) (S d)))
      with (delayMs E a (random E d) + total_wait (delays E k (a + 1) (S d)))%Q.
    replace (Z.of_nat (S k)) with (1 + Z.of_nat k) by lia.
    rewrite inject_Z_plus. rewrite Qmult_plus_distr_l. rewrite Qmult_1_l.
    apply Qplus_le_compat.
    + destruct (Hrand d). now apply delayMs_le.
    + apply IH; try assumption. lia.
Qed.

(** X1 (success after transient failures).  When the first [k] attempts of
    a call fail with errors the loop retries and attempt [k], still within
    the [retries] allowed, is answered, [requestWithRetry] returns that
    response: it has made exactly [k + 1] attempts and waited after each of
    the [k] failed ones. *)
Theorem retry_eventual_success :
  forall (E : Env) (options : RequestOptions) (w : World) (k : nat) (r : HttpResponse),
    Z.of_nat k < retries_of E options ->
    first_fail E (config_of E options) w k (fun e => negb (noRetry e)) ->
    outcome E (httpCalls w + k) (config_of E options) = Ok r ->
    fst (requestWithRetry E options w) = Ok r /\
    httpCalls (snd (requestWithRetry E options w)) = (httpCalls w + k + 1)%nat /\
    sleeps (snd (requestWithRetry E options w))
    = (sleeps w ++ delays E k 0 (randomDraws w))%list.
Proof.
  intros E options w k r Hk Hfail Hok.
  destruct (requestWithRetry_run E options w k Hk Hfail) as [Hrun _].
  rewrite (Hrun r Hok). unfold retried. destruct_world w; simpl.
  repeat split. lia.
Qed.

Lemma retry_eventual_success_witness :
  fst (requestWithRetry env_recovers options_me empty_world)
  = Ok (mkResponse 200 (JObj [("id", JNum 42)])) /\
  httpCalls (snd (requestWithRetry env_recovers options_me empty_world)) = 3%nat /\
  List.length (sleeps (snd (requestWithRetry env_recovers options_me empty_world))) = 2%nat.
Proof.
  destruct (retry_eventual_success env_recovers options_me empty_world 2
              (mkResponse 200 (JObj [("id", JNum 42)]))) as (Hres & Hcalls & Hsleeps).
  - vm_compute. reflexivity.
  - intros i Hi. exists (error_status 503).
    destruct i as [|[|i]]; [split; reflexivity | split; reflexivity | lia].
  - reflexivity.
  - split; [exact Hres|]. split; [exact Hcalls|]. now rewrite Hsleeps.
Defined.

(** X2 (the attempts are bounded).  Whatever the remote service answers, a
    call of [requestWithRetry] makes at most [retries] attempts (none when
    [retries <= 0]), and it waits once less than it attempts: never after
    the attempt that ends the call. *)
Theorem retry_attempts_bounded :
  forall (E : Env) (options : RequestOptions) (w : World),
    exists attempts waited,
      httpCalls (snd (requestWithRetry E options w)) = (httpCalls w + attempts)%nat /\
      sleeps (snd (requestWithRetry E options w)) = (sleeps w ++ waited)%list /\
      Z.of_nat attempts <= Z.max 0 (retries_of E options) /\
      List.length waited = (attempts - 1)%nat.
Proof.
  intros E options w.
  destruct (requestWithRetry_shape E options w) as [[Hno (msg & Hrun)]|(k & result & Hk & Hrun)].
  - exists 0%nat, []. rewrite Hrun. simpl. rewrite app_nil_r, Nat.add_0_r.
    repeat split. lia.
  - exists (S k), (delays E k 0 (randomDraws w)). rewrite Hrun.
    unfold retried. destruct_world w; simpl. rewrite length_delays.
    repeat split; lia.
Qed.

(** X3 (the total wait is bounded).  With non-negative delay settings and
    random draws within [0, 1], the waits of one call add up to at most
    [(retries - 1) * 1.2 * maxDelayMs]. *)
Theorem retry_total_wait_bounded :
  forall (E : Env) (options : RequestOptions) (w : World),
    0 <= baseDelayMs (config E) ->
    0 <= maxDelayMs (config E) ->
    (forall n, (0 <= random E n)%Q /\ (random E n <= 1)%Q) ->
    exists waited,
      sleeps (snd (requestWithRetry E options w)) = (sleeps w ++ waited)%list /\
      (total_wait waited
       <= inject_Z (Z.max 0 (retries_of E options - 1))
          * ((12 # 10) * inject_Z (maxDelayMs (config E))))%Q.
Proof.
  intros E options w Hb Hm Hrand.
  assert (Hunit : (0 <= (12 # 10) * inject_Z (maxDelayMs (config E)))%Q).
  { apply Qmult_le_0_compat; [discriminate|].
    change 0%Q with (inject_Z 0). now rewrite <- Zle_Qle. }
  destruct (requestWithRetry_shape E options w) as [[Hno (msg & Hrun)]|(k & result & Hk & Hrun)].
  - exists []. rewrite Hrun. simpl. rewrite app_nil_r. split; [reflexivity|].
    apply Qmult_le_0_compat; [|exact Hunit].
    change 0%Q with (inject_Z 0). rewrite <- Zle_Qle. lia.
  - exists (delays E k 0 (randomDraws w)). rewrite Hrun. split.
    + unfold retried. now destruct_world w.
    + apply Qle_trans with
        (inject_Z (Z.of_nat k) * ((12 # 10) * inject_Z (maxDelayMs (config E))))%Q.
      * apply total_wait_delays; try assumption. lia.
      * apply Qmult_le_compat_r; [|exact Hunit]. rewrite <- Zle_Qle. lia.
Qed.

Lemma retry_total_wait_bounded_witness :
  exists waited,
    sleeps (snd (requestWithRetry env_unavailable options_me empty_world)) = waited /\
    (total_wait waited <= 24000)%Q.
Proof.
  destruct (retry_total_wait_bounded env_unavailable options_me empty_world)
    as (waited & Hs & Hle).
  - vm_compute. discriminate.
  - vm_compute. discriminate.
  - intros n. split; vm_compute; discriminate.
  - exists waited. split; [exact Hs|].
    eapply Qle_trans; [exact Hle|]. vm_compute. discriminate.
Defined.

(** X4 (no attempt allowed).  With [retries <= 0] the loop body never runs:
    no request is made, nothing is waited, and the call is rejected with the
    [TypeError] of reading [lastError.message] on [null]. *)
Theorem retry_without_attempts :
  forall (E : Env) (options : RequestOptions) (w : World),
    retries_of E options <= 0 ->
    exists message,
      requestWithRetry E options w = (Throw (TypeErr message), w).
Proof.
  intros E options w Hno.
  destruct (requestWithRetry_shape E options w) as [[_ Hrun]|(k & result & Hk & _)];
    [exact Hrun | lia].
Qed.

Lemma retry_without_attempts_witness :
  exists message,
    tidalApi_get env_recovers "/me" [] (Some "T1") (Some 0) empty_world
    = (Throw (TypeErr message), empty_world).
Proof.
  apply (retry_without_attempts env_recovers options_no_attempt empty_world).
  vm_compute. discriminate.
Defined.

(** ** What the request interceptor does to the request *)

Lemma substring_to_length n : forall s, (String.length (substring_to n s) <= n)%nat.
Proof.
  unfold substring_to. induction n as [|n IH]; intros [|c s]; simpl; try lia.
  specialize (IH s). lia.
Qed.

Lemma append_length s1 s2 :
  String.length (s1 ++ s2) = (String.length s1 + String.length s2)%nat.
Proof. induction s1 as [|c s1 IH]; simpl; [reflexivity | now rewrite IH]. Qed.

(** X5 (the [Authorization] header that is sent).  For a request with an
    access token whose [headers] option does not set [Authorization], the
    request interceptor rewrites the header of the request itself: what the
    transport receives is the first 15 characters of [Bearer <token>]
    followed by three dots.  For a token of more than 11 characters this is
    not the bearer header that [_getAuthHeaders] built. *)
Theorem authorization_header_is_shortened :
  forall (E : Env) (options : RequestOptions) (a : string),
    accessToken options = Some a ->
    a <> "" ->
    (forall h, headers options = Some h -> map_get "Authorization" h = None) ->
    exists sent,
      request_interceptor (config_of E options) = Ok sent /\
      (forall k, outcome E k (config_of E options) = transport E k sent) /\
      obj_get "Authorization" (req_headers (config_of E options)) = JStr ("Bearer " ++ a) /\
      obj_get "Authorization" (req_headers sent)
      = JStr (substring_to 15 ("Bearer " ++ a) ++ "...") /\
      ((11 < String.length a)%nat ->
       obj_get "Authorization" (req_headers sent) <> JStr ("Bearer " ++ a)).
Proof.
  intros E options a Htoken Ha Hheaders.
  assert (Hauth : map_get "Authorization" (req_headers (config_of E options))
                  = Some (JStr ("Bearer " ++ a))).
  { unfold config_of. cbn [req_headers]. rewrite assign_absent.
    - unfold _getAuthHeaders. rewrite Htoken. unfold truthy_string.
      destruct (String.eqb_spec a ""); [contradiction|]. reflexivity.
    - destruct (headers options) as [h|]; [now apply Hheaders | reflexivity]. }
  unfold outcome, request_interceptor, obj_get. rewrite Hauth.
  cbn [truthy]. change (String.eqb ("Bearer " ++ a) "") with false. cbn [negb].
  eexists. split; [reflexivity|]. split; [reflexivity|]. split; [reflexivity|].
  cbn [req_headers]. rewrite map_get_set_same. split; [reflexivity|].
  intros Hlong Heq. injection Heq as Heq.
  apply (f_equal String.length) in Heq.
  rewrite !append_length in Heq.
  pose proof (substring_to_length 8 a) as Hle. unfold substring_to in Hle.
  simpl String.length in Heq. lia.
Qed.

Lemma authorization_header_is_shortened_witness :
  exists sent,
    request_interceptor (config_of env_recovers options_me) = Ok sent /\
    obj_get "Authorization" (req_headers (config_of env_recovers options_me)) = JStr "Bearer T1" /\
    obj_get "Authorization" (req_headers sent) = JStr "Bearer T1...".
Proof.
  destruct (authorization_header_is_shortened env_recovers options_me "T1")
    as (sent & Hsent & _ & Hbuilt & Hheader & _).
  - reflexivity.
  - discriminate.
  - discriminate.
  - exists sent. split; [exact Hsent|]. split; [exact Hbuilt | exact Hheader].
Defined.

(** ** The catalog service *)

(** X6 (only a 401 starts a refresh).  Unless [apiCallFn] fails with status
    401 while an access token is at hand, [_executeWithTokenRefresh] is
    [apiCallFn()] and nothing more: a result is returned as it is, any other
    failure is rethrown as it is, and neither the token store nor the token
    endpoint is touched. *)
Theorem token_refresh_only_on_401 :
  forall (E : Env) (f : JsFunction) (accessToken userId : option string) (w : World),
    match fst (invoke f w) with
    | Ok _ => True
    | Throw e => is401 e = false \/ truthy_opt accessToken = false
    end ->
    _executeWithTokenRefresh E f accessToken userId w = invoke f w.
Proof.
  intros E f accessToken userId w H.
  unfold _executeWithTokenRefresh, try_catch.
  destruct (invoke f w) as [[v|e] w1]; [reflexivity|].
  simpl in H. destruct accessToken as [token|]; [|reflexivity].
  simpl in H. destruct H as [-> | ->]; [reflexivity|].
  now rewrite Bool.orb_true_r.
Qed.

Lemma token_refresh_only_on_401_witness :
  _executeWithTokenRefresh env_refresh_ok server_error (Some "T1") (Some "u1") linked_world
  = (Throw (error_status 500), set_apiCalls 1 linked_world).
Proof.
  rewrite (token_refresh_only_on_401 env_refresh_ok server_error (Some "T1") (Some "u1")
             linked_world).
  - reflexivity.
  - left. reflexivity.
Defined.

(** X7 (the catalog operations never reach the network).  [getUserInfo] and
    [getStreamUrl] begin with [cacheService.makeKey(...)] on the exported
    cache object, which has no such method: for every input they are
    rejected with the connection-error message, and no request is sent, no
    cache entry read or written, no store call made. *)
Theorem catalog_operations_never_reach_the_network :
  forall (E : Env) (accessToken userId : option string) (trackId : JsValue) (w : World),
    getUserInfo E accessToken userId w
    = (Throw (PlainErr "Error de conexión con el servicio de Tidal"), w) /\
    getStreamUrl E accessToken trackId userId w
    = (Throw (PlainErr "Error de conexión con el servicio de Tidal"), w).
Proof. intros. split; reflexivity. Qed.

(** X8 (a playback-info answer without URL).  In the service that calls the
    client directly, when the request is answered, [getStreamUrl] returns
    [response.data.manifest.url] if it is truthy; if [data], [manifest] or
    [url] is missing, the error raised for it is caught by the method's own
    [catch] and replaced: the caller gets the connection-error message, not
    the message about the streaming URL. *)
Theorem stream_url_missing_is_a_connection_error :
  forall (E : Env) (accessToken : option string) (trackId : JsValue) (w w1 : World)
         (r : HttpResponse),
    tidalApi_get E ("/tracks/" ++ to_string trackId ++ "/playbackinfo")
      [("soundQuality", JStr "HIGH"); ("countryCode", JStr "US")] accessToken None w
    = (Ok r, w1) ->
    (forall manifest url,
        truthy (data r) = true ->
        get_prop (data r) "manifest" = Ok manifest -> truthy manifest = true ->
        get_prop manifest "url" = Ok url -> truthy url = true ->
        Direct.getStreamUrl E accessToken trackId w = (Ok url, w1)) /\
    (truthy (data r) = false \/
     (exists manifest,
         get_prop (data r) "manifest" = Ok manifest /\
         (truthy manifest = false \/
          exists url, get_prop manifest "url" = Ok url /\ truthy url = false)) ->
     Direct.getStreamUrl E accessToken trackId w
     = (Throw (PlainErr "Error de conexión con el servicio de Tidal"), w1)).
Proof.
  intros E accessToken trackId w w1 r Hget. split.
  - intros manifest url Hdata Hmanifest Htm Hurl Htu.
    unfold Direct.getStreamUrl, try_catch, bind. rewrite Hget, Hdata. simpl.
    unfold lift. now rewrite Hmanifest, Htm, Hurl, Htu.
  - intros Hmissing.
    unfold Direct.getStreamUrl, try_catch, bind. rewrite Hget.
    destruct Hmissing as [Hdata|(manifest & Hmanifest & Hrest)].
    + rewrite Hdata. reflexivity.
    + destruct (truthy (data r)); [|reflexivity]. simpl. unfold lift. rewrite Hmanifest.
      destruct Hrest as [Htm|(url & Hurl & Htu)].
      * rewrite Htm. reflexivity.
      * destruct (truthy manifest); [|reflexivity]. simpl. rewrite Hurl, Htu. reflexivity.
Qed.

Lemma stream_url_missing_is_a_connection_error_witness :
  fst (Direct.getStreamUrl env_manifest_without_url (Some "fake-token") (JStr "12345") empty_world)
  = Throw (PlainErr "Error de conexión con el servicio de Tidal").
Proof.
  destruct (stream_url_missing_is_a_connection_error env_manifest_without_url
              (Some "fake-token") (JStr "12345") empty_world
              (set_httpCalls 1 empty_world)
              (mkResponse 200 (JObj [("manifest", JObj [])]))) as [_ Hmissing].
  - reflexivity.
  - rewrite Hmissing; [reflexivity|].
    right. exists (JObj []). split; [reflexivity|].
    right. exists JUndefined. split; reflexivity.
Defined.

Lemma prefix_has_colon t : forall s,
  String.prefix (t ++ ":") s = true -> has_colon s = true.
Proof.
  induction t as [|c t IH]; intros [|c' s];
    cbn [String.prefix String.append has_colon]; try discriminate.
  - destruct (Ascii.ascii_dec ":" c') as [<-|Hne]; intros H; [reflexivity | discriminate H].
  - destruct (Ascii.ascii_dec c c') as [<-|Hne]; intros H; [|discriminate H].
    rewrite (IH s H). apply Bool.orb_true_r.
Qed.

Lemma delete_keeps_other (c : Cache.CacheService) ns ns' key key' :
  key <> key' ->
  map_get key (Cache.namespace (snd (Cache.delete c ns key')) ns')
  = map_get key (Cache.namespace c ns').
Proof.
  intros Hne. unfold Cache.delete. destruct (Cache.enabled c); [|reflexivity]. simpl.
  destruct (CacheFacts.getCache_spec c ns) as (Hmap & Hns & _).
  destruct (Cache._getCache c ns) as [m c1]. simpl in *. subst m.
  destruct (String.eqb_spec ns' ns) as [->|Hother].
  - rewrite CacheFacts.namespace_put. now apply map_get_delete_other.
  - rewrite CacheFacts.namespace_put_other by exact Hother. now rewrite Hns.
Qed.

(** X9 ([clearCache(type)] removes at most one key).  With a type,
    [clearCache] deletes nothing but the cache key that is the type name
    itself: the names of [CACHE_TTL] hold no colon, so none starts with
    [type:], and every entry stored under another key, [type:...] included,
    stays. *)
Theorem clearCache_with_type_keeps_other_keys :
  forall (c : Cache.CacheService) (type ns key : string),
    type <> "" ->
    key <> type ->
    map_get key (Cache.namespace (tidalService_clearCache (Some type) c) ns)
    = map_get key (Cache.namespace c ns).
Proof.
  intros c type ns key Htype Hkey. unfold tidalService_clearCache, truthy_string.
  destruct (String.eqb_spec type ""); [contradiction|]. cbn [negb].
  assert (Hnames : Forall (fun name => has_colon name = false) CACHE_TTL_keys)
    by (repeat constructor).
  revert c. induction Hnames as [|name names Hname _ IH]; intros c; simpl; [reflexivity|].
  rewrite IH.
  destruct (String.eqb_spec name type) as [->|Hne]; simpl.
  - now apply delete_keeps_other.
  - unfold startsWith. destruct (String.prefix (type ++ ":") name) eqn:Hp; [|reflexivity].
    apply prefix_has_colon in Hp. congruence.
Qed.

Lemma clearCache_with_type_keeps_other_keys_witness :
  map_get "userInfo:T1" (Cache.namespace (tidalService_clearCache (Some "userInfo") warm_cache) "tidal")
  = map_get "userInfo:T1" (Cache.namespace warm_cache "tidal") /\
  map_get "userInfo:T1" (Cache.namespace warm_cache "tidal")
  = Some (Cache.newCacheEntry (JStr "profile") 300 1000 1000).
Proof.
  split; [|reflexivity].
  apply (clearCache_with_type_keeps_other_keys warm_cache "userInfo" "tidal" "userInfo:T1");
    discriminate.
Defined.

(** ** The token store: cache and queries *)

Section MapShape.
Context {V : Type}.
Implicit Types (m : JsMap V) (k : string) (v : V).

Lemma map_set_absent m k v : map_get k m = None -> map_set k v m = (m ++ [(k, v)])%list.
Proof.
  induction m as [|[k0 v0] m IH]; simpl; [reflexivity|].
  destruct (String.eqb k k0); [discriminate|]. intros H. now rewrite IH.
Qed.

Lemma map_set_present m k v v0 :
  map_get k m = Some v0 -> List.length (map_set k v m) = List.length m.
Proof.
  induction m as [|[k1 v1] m IH]; simpl; [discriminate|].
  destruct (String.eqb k k1); simpl; [reflexivity|]. intros H. now rewrite IH.
Qed.

Lemma first_key_get m k : first_key m = Some k -> map_get k m <> None.
Proof.
  destruct m as [|[k0 v0] m]; simpl; [discriminate|].
  intros [= ->]. now rewrite String.eqb_refl.
Qed.

Lemma first_key_app m1 m2 : m1 <> [] -> first_key (m1 ++ m2)%list = first_key m1.
Proof. destruct m1 as [|[k0 v0] m1]; [contradiction | reflexivity]. Qed.
End MapShape.

Section TokenCache.
Context (E : Env).

(** The cache [_updateCache] leaves. *)
Lemma updateCache_cache a r w :
  cacheEnabled (config E) = true ->
  tokenCache (snd (_updateCache E a r w))
  = (let m := map_set a r (tokenCache w) in
     if map_size m >? cacheMaxSize (config E) then
       match first_key m with
       | Some oldestKey => map_delete oldestKey m
       | None => m
       end
     else m).
Proof.
  intros Hen. unfold _updateCache. rewrite Hen. simpl. unfold modify. simpl.
  destruct (map_size _ >? _); [destruct (first_key _)|]; now destruct_world w.
Qed.

Lemma updateCache_within a r w :
  0 <= cacheMaxSize (config E) ->
  within_bound E w -> within_bound E (snd (_updateCache E a r w)).
Proof.
  unfold within_bound. intros Hmax Hw.
  destruct (cacheEnabled (config E)) eqn:Hen.
  2:{ unfold _updateCache. rewrite Hen. exact Hw. }
  rewrite (updateCache_cache a r w Hen). cbv zeta.
  pose proof (map_set_length (tokenCache w) a r) as Hset.
  destruct (Z.gtb_spec (map_size (map_set a r (tokenCache w))) (cacheMaxSize (config E)))
    as [Hover|Hfits]; [|exact Hfits].
  destruct (map_set a r (tokenCache w)) as [|[k0 v0] m] eqn:Hm.
  - unfold map_size in *. simpl in *. lia.
  - cbn [first_key]. unfold map_delete. cbn [filter fst]. rewrite String.eqb_refl. cbn [negb].
    pose proof (filter_length_le (fun kv : string * JsValue => negb (String.eqb k0 (fst kv))) m).
    unfold map_size in *. simpl in *. lia.
Qed.

(** The pair just cached is still there: the one evicted, if any, is an
    older one. *)
Lemma updateCache_holds a r w :
  cacheEnabled (config E) = true ->
  1 <= cacheMaxSize (config E) ->
  within_bound E w ->
  map_get a (tokenCache (snd (_updateCache E a r w))) = Some r.
Proof.
  unfold within_bound. intros Hen Hmax Hw.
  rewrite (updateCache_cache a r w Hen). cbv zeta.
  destruct (Z.gtb_spec (map_size (map_set a r (tokenCache w))) (cacheMaxSize (config E)))
    as [Hover|Hfits]; [|apply map_get_set_same].
  destruct (map_get a (tokenCache w)) as [r0|] eqn:Hget.
  - pose proof (map_set_present (tokenCache w) a r r0 Hget). unfold map_size in *. lia.
  - rewrite (map_set_absent _ _ r Hget) in *.
    assert (Hne : tokenCache w <> []).
    { intros Hnil. rewrite Hnil in Hover. unfold map_size in Hover. simpl in Hover. lia. }
    rewrite first_key_app by exact Hne.
    destruct (first_key (tokenCache w)) as [k0|] eqn:Hfirst.
    + rewrite map_get_delete_other.
      * rewrite <- (map_set_absent _ _ r Hget). apply map_get_set_same.
      * intros ->. apply (first_key_get _ _ Hfirst). exact Hget.
    + rewrite <- (map_set_absent _ _ r Hget). apply map_get_set_same.
Qed.

(** What a successful [saveTokens] leaves. *)
Lemma saveTokens_success userId accessToken refreshToken expiresIn w p :
  fst (saveTokens E userId accessToken refreshToken expiresIn w) = Ok p ->
  exists a expiresAt t,
    accessToken = JStr a /\
    let w2 := set_tokenItems
                (put_token (mkTokenItem userId a refreshToken expiresAt t t) (tokenItems w))
                (set_dbCalls (S (dbCalls w)) (set_clockReads (S (clockReads w)) w)) in
    snd (saveTokens E userId accessToken refreshToken expiresIn w)
    = (if cacheEnabled (config E) then snd (_updateCache E a refreshToken w2) else w2).
Proof.
  unfold saveTokens, bind, now, lift.
  destruct (toISOString (option_map _ _)) as [expiresAt|e]; [|discriminate].
  destruct (toISOString (Some _)) as [t|e] eqn:Ht; [|discriminate].
  unfold tokens_putItem, bind, sdk.
  replace (dbCalls (set_clockReads (S (clockReads w)) w)) with (dbCalls w)
    by now destruct_world w.
  destruct (dbFault E (dbCalls w)); [discriminate|].
  destruct accessToken as [| | | | |a| |]; try discriminate.
  intros _. exists a, expiresAt, t. split; [reflexivity|]. cbv zeta.
  unfold modify, ret.
  replace (tokenItems (set_dbCalls (S (dbCalls w)) (set_clockReads (S (clockReads w)) w)))
    with (tokenItems w) by now destruct_world w.
  destruct (cacheEnabled (config E)); [|reflexivity].
  destruct (updateCache_tokenItems E a refreshToken
              (set_tokenItems
                 (put_token (mkTokenItem userId a refreshToken expiresAt t t) (tokenItems w))
                 (set_dbCalls (S (dbCalls w)) (set_clockReads (S (clockReads w)) w))))
    as [_ Hok].
  destruct (_updateCache E a refreshToken _) as [res w3]. simpl in Hok. subst res. reflexivity.
Qed.
End TokenCache.

(** *** Invariants of the world *)

Section Preservation.
Context (E : Env) (P : World -> Prop).
Hypothesis Hstable : stable P.

Lemma preserves_ret {A} (a : A) : preserves P (ret a).
Proof. intros w H. exact H. Qed.

Lemma preserves_throw {A} e : preserves P (@throw A e).
Proof. intros w H. exact H. Qed.

Lemma preserves_lift {A} (r : Res A) : preserves P (lift r).
Proof. intros w H. exact H. Qed.

Lemma preserves_gets {A} (f : World -> A) : preserves P (gets f).
Proof. intros w H. exact H. Qed.

Lemma preserves_modify (f : World -> World) :
  (forall w, P w -> P (f w)) -> preserves P (modify f).
Proof. intros H w Hw. now apply H. Qed.

Lemma preserves_bind {A B} (m : M A) (f : A -> M B) :
  preserves P m -> (forall a, preserves P (f a)) -> preserves P (bind m f).
Proof.
  intros Hm Hf w Hw. unfold bind. specialize (Hm w Hw).
  destruct (m w) as [[a|e] w']; simpl in *; [now apply Hf | exact Hm].
Qed.

Lemma preserves_try_catch {A} (m : M A) (h : JsError -> M A) :
  preserves P m -> (forall e, preserves P (h e)) -> preserves P (try_catch m h).
Proof.
  intros Hm Hh w Hw. unfold try_catch. specialize (Hm w Hw).
  destruct (m w) as [[a|e] w']; simpl in *; [exact Hm | now apply Hh].
Qed.

Lemma preserves_now : preserves P (now E).
Proof. intros w Hw. apply (Hstable w Hw). Qed.

Lemma preserves_random : preserves P (Math_random E).
Proof. intros w Hw. apply (Hstable w Hw). Qed.

Lemma preserves_sleep d : preserves P (sleep d).
Proof. intros w Hw. apply (Hstable w Hw). Qed.

Lemma preserves_sdk table : preserves P (sdk E table).
Proof.
  intros w Hw. unfold sdk. destruct (dbFault E (dbCalls w)); apply (Hstable w Hw).
Qed.

Lemma preserves_client_request cfg : preserves P (client_request E cfg).
Proof. intros w Hw. apply (Hstable w Hw). Qed.

Lemma preserves_nowISO : preserves P (nowISO E).
Proof.
  unfold nowISO. apply preserves_bind; [apply preserves_now | intros t].
  apply preserves_bind; [apply preserves_lift | intros ms; apply preserves_ret].
Qed.
End Preservation.

Create HintDb preserve.

#[local] Hint Resolve preserves_ret preserves_throw preserves_lift preserves_gets
  preserves_now preserves_random preserves_sleep preserves_sdk preserves_client_request
  preserves_nowISO : preserve.

Ltac preserve :=
  repeat first
    [ solve [auto with preserve]
    | apply preserves_bind; [|intros ?]
    | apply preserves_try_catch; [|intros ?]
    | match goal with
      | |- preserves _ (if ?b then _ else _) => destruct b
      | |- preserves _ (match ?x with _ => _ end) => destruct x
      end ].

Lemma stable_within E : stable (within_bound E).
Proof. intros w Hw. unfold within_bound in *. repeat split; intros; now destruct_world w. Qed.

Section TokenCacheBound.
Context (E : Env).
Hypothesis Hmax : 0 <= cacheMaxSize (config E).

Lemma within_updateCache a r : preserves (within_bound E) (_updateCache E a r).
Proof. intros w Hw. now apply updateCache_within. Qed.

Lemma within_set_tokenItems l w : within_bound E w -> within_bound E (set_tokenItems l w).
Proof. unfold within_bound. now destruct_world w. Qed.

Lemma within_cache_delete a w :
  within_bound E w -> within_bound E (set_tokenCache (map_delete a (tokenCache w)) w).
Proof.
  unfold within_bound. intros Hw.
  pose proof (map_delete_length (tokenCache w) a).
  replace (tokenCache (set_tokenCache (map_delete a (tokenCache w)) w))
    with (map_delete a (tokenCache w)) by now destruct_world w.
  unfold map_size in *. lia.
Qed.

Lemma within_putItem u a r x c d :
  preserves (within_bound E) (tokens_putItem E u a r x c d).
Proof.
  unfold tokens_putItem. apply preserves_bind; [apply preserves_sdk, stable_within | intros _].
  destruct a; try now apply preserves_throw.
  apply preserves_modify. intros w. apply within_set_tokenItems.
Qed.

Lemma within_deleteItem u a : preserves (within_bound E) (tokens_deleteItem E u a).
Proof.
  unfold tokens_deleteItem. apply preserves_bind; [apply preserves_sdk, stable_within | intros _].
  apply preserves_bind; [|intros; apply preserves_ret].
  apply preserves_modify. intros w. apply within_set_tokenItems.
Qed.

Lemma within_saveTokens u a r x : preserves (within_bound E) (saveTokens E u a r x).
Proof.
  unfold saveTokens.
  apply preserves_bind; [apply preserves_now, stable_within | intros t].
  apply preserves_bind; [apply preserves_lift | intros expiresAt].
  apply preserves_bind; [apply preserves_lift | intros createdAt].
  apply preserves_bind; [apply preserves_lift | intros updatedAt].
  apply preserves_bind; [apply within_putItem | intros _].
  apply preserves_bind; [|intros; apply preserves_ret].
  destruct a; try apply preserves_ret.
  destruct (cacheEnabled (config E)); [apply within_updateCache | apply preserves_ret].
Qed.

Lemma within_deleteTokens u a : preserves (within_bound E) (deleteTokens E u a).
Proof.
  unfold deleteTokens. apply preserves_bind; [apply within_deleteItem | intros _].
  apply preserves_bind; [|intros; apply preserves_ret].
  destruct (cacheEnabled (config E)); [|apply preserves_ret].
  apply preserves_modify. intros w. apply within_cache_delete.
Qed.

Lemma within_delete_each u tokens : forall rejected,
  preserves (within_bound E) (delete_each E u tokens rejected).
Proof.
  induction tokens as [|token rest IH]; intros rejected; simpl; [apply preserves_ret|].
  apply preserves_bind.
  - destruct (cacheEnabled (config E)); [|apply preserves_ret].
    apply preserves_modify. intros w. apply within_cache_delete.
  - intros _. apply preserves_bind; [|intros outcome; apply IH].
    apply preserves_try_catch; [|intros; apply preserves_ret].
    apply preserves_bind; [apply within_deleteItem | intros; apply preserves_ret].
Qed.

(** X10 (the token cache stays within its bound).  With a non-negative
    [cacheMaxSize], a token cache that holds at most [cacheMaxSize] pairs
    still does after any operation of the token service, whether the
    operation succeeds or fails. *)
Theorem token_cache_stays_within_bound :
  forall (w : World),
    within_bound E w ->
    (forall u a r x, within_bound E (snd (saveTokens E u a r x w))) /\
    (forall u, within_bound E (snd (getTokensByUserId E u w))) /\
    (forall a, within_bound E (snd (getRefreshTokenByAccessToken E a w))) /\
    (forall u a, within_bound E (snd (deleteTokens E u a w))) /\
    (forall u old a r x, within_bound E (snd (updateTokens E u old a r x w))) /\
    (forall u, within_bound E (snd (deleteAllUserTokens E u w))).
Proof.
  intros w Hw. repeat split.
  - intros u a r x. now apply within_saveTokens.
  - intros u. revert w Hw. change (preserves (within_bound E) (getTokensByUserId E u)).
    unfold getTokensByUserId, tokens_query_user.
    apply preserves_bind.
    + apply preserves_bind; [apply preserves_sdk, stable_within | intros; apply preserves_gets].
    + intros [tokenData|]; [|apply preserves_ret].
      apply preserves_bind; [|intros; apply preserves_ret].
      destruct (cacheEnabled (config E)); [apply within_updateCache | apply preserves_ret].
  - intros a. revert w Hw.
    change (preserves (within_bound E) (getRefreshTokenByAccessToken E a)).
    unfold getRefreshTokenByAccessToken, tokens_query_index.
    apply preserves_bind; [apply preserves_gets | intros cached].
    destruct (if cacheEnabled (config E) then cached else None); [apply preserves_ret|].
    apply preserves_bind.
    + apply preserves_bind; [apply preserves_sdk, stable_within | intros; apply preserves_gets].
    + intros [item|]; [|apply preserves_ret].
      apply preserves_bind; [|intros; apply preserves_ret].
      destruct (cacheEnabled (config E)); [apply within_updateCache | apply preserves_ret].
  - intros u a. now apply within_deleteTokens.
  - intros u old a r x. revert w Hw.
    change (preserves (within_bound E) (updateTokens E u old a r x)).
    unfold updateTokens. apply preserves_bind; [|intros; apply within_saveTokens].
    destruct old as [old|]; [|apply preserves_ret].
    destruct (truthy_string old); [|apply preserves_ret].
    apply preserves_bind; [apply within_deleteTokens | intros; apply preserves_ret].
  - intros u. revert w Hw. change (preserves (within_bound E) (deleteAllUserTokens E u)).
    unfold deleteAllUserTokens, tokens_query_all.
    apply preserves_bind.
    + apply preserves_bind; [apply preserves_sdk, stable_within | intros; apply preserves_gets].
    + intros [|token rest]; [apply preserves_ret|].
      apply preserves_bind; [apply within_delete_each | intros [error|]];
        [apply preserves_throw | apply preserves_ret].
Qed.
End TokenCacheBound.

Lemma token_cache_stays_within_bound_witness :
  within_bound env_unavailable
    (snd (saveTokens env_unavailable "u1" (JStr "T2") (JStr "R2") (JNum 3600) linked_world)).
Proof.
  destruct (token_cache_stays_within_bound env_unavailable) with (w := linked_world)
    as [Hsave _].
  - vm_compute. discriminate.
  - vm_compute. discriminate.
  - apply Hsave.
Defined.

(** X11 (a saved pair is served from the cache).  With the token cache
    enabled, room for at least one pair and the cache within its bound,
    once [saveTokens(userId, accessToken, refreshToken)] has succeeded,
    [getRefreshTokenByAccessToken(accessToken)] answers [refreshToken]
    without any call to the store. *)
Theorem saved_refresh_token_is_served_from_cache :
  forall (E : Env) (u a : string) (r x : JsValue) (w : World) (p : TokenPair),
    cacheEnabled (config E) = true ->
    1 <= cacheMaxSize (config E) ->
    within_bound E w ->
    fst (saveTokens E u (JStr a) r x w) = Ok p ->
    getRefreshTokenByAccessToken E a (snd (saveTokens E u (JStr a) r x w))
    = (Ok r, snd (saveTokens E u (JStr a) r x w)).
Proof.
  intros E u a r x w p Hen Hmax Hw Hok.
  destruct (saveTokens_success E u (JStr a) r x w p Hok)
    as (a' & expiresAt & t & [= <-] & Hworld).
  cbv zeta in Hworld. rewrite Hen in Hworld. rewrite Hworld.
  unfold getRefreshTokenByAccessToken, bind, gets. rewrite Hen.
  rewrite updateCache_holds; [reflexivity | exact Hen | exact Hmax |].
  unfold within_bound in *. now destruct_world w.
Qed.

Lemma saved_refresh_token_is_served_from_cache_witness :
  let w1 := snd (saveTokens env_unavailable "u1" (JStr "T2") (JStr "R2") (JNum 3600)
                            linked_world) in
  getRefreshTokenByAccessToken env_unavailable "T2" w1 = (Ok (JStr "R2"), w1).
Proof.
  apply (saved_refresh_token_is_served_from_cache env_unavailable "u1" "T2" (JStr "R2")
           (JNum 3600) linked_world (mkTokenPair (JStr "T2") (JStr "R2") 1700003600000)).
  - reflexivity.
  - vm_compute. discriminate.
  - vm_compute. discriminate.
  - reflexivity.
Defined.

(** *** The order of the sort key *)

Lemma ascii_compare_refl a : Ascii.compare a a = Eq.
Proof. unfold Ascii.compare. apply N.compare_refl. Qed.

Lemma ascii_compare_lt_trans a b c :
  Ascii.compare a b = Lt -> Ascii.compare b c = Lt -> Ascii.compare a c = Lt.
Proof.
  unfold Ascii.compare. rewrite !N.compare_lt_iff. apply N.lt_trans.
Qed.

Lemma string_compare_refl s : String.compare s s = Eq.
Proof. induction s as [|a s IH]; simpl; [reflexivity | now rewrite ascii_compare_refl]. Qed.

Lemma string_compare_lt_trans : forall s1 s2 s3,
  String.compare s1 s2 = Lt -> String.compare s2 s3 = Lt -> String.compare s1 s3 = Lt.
Proof.
  induction s1 as [|a s1 IH]; intros [|b s2] [|c s3]; simpl; try easy.
  destruct (Ascii.compare a b) eqn:Hab; destruct (Ascii.compare b c) eqn:Hbc;
    try discriminate; intros H1 H2.
  - apply Ascii.compare_eq_iff in Hab, Hbc. subst. rewrite ascii_compare_refl. now apply (IH s2).
  - apply Ascii.compare_eq_iff in Hab. subst. now rewrite Hbc.
  - apply Ascii.compare_eq_iff in Hbc. subst. now rewrite Hab.
  - now rewrite (ascii_compare_lt_trans a b c).
Qed.

Lemma ltb_trans s1 s2 s3 :
  String.ltb s1 s2 = true -> String.ltb s2 s3 = true -> String.ltb s1 s3 = true.
Proof.
  unfold String.ltb. intros H1 H2.
  destruct (String.compare s1 s2) eqn:H12; try discriminate.
  destruct (String.compare s2 s3) eqn:H23; try discriminate.
  now rewrite (string_compare_lt_trans s1 s2 s3).
Qed.

Lemma ltb_irrefl s : String.ltb s s = false.
Proof. unfold String.ltb. now rewrite string_compare_refl. Qed.

Lemma ltb_false_cases s1 s2 :
  String.ltb s1 s2 = false -> s1 = s2 \/ String.ltb s2 s1 = true.
Proof.
  unfold String.ltb. intros H. destruct (String.compare s1 s2) eqn:Hc; try discriminate.
  - left. now apply String.compare_eq_iff.
  - right. rewrite String.compare_antisym, Hc. reflexivity.
Qed.

(** [s3 <= s2] and [s2 <= s1] give [s3 <= s1]. *)
Lemma not_ltb_trans s1 s2 s3 :
  String.ltb s1 s2 = false -> String.ltb s2 s3 = false -> String.ltb s1 s3 = false.
Proof.
  intros H12 H23. destruct (String.ltb s1 s3) eqn:H13; [|reflexivity].
  destruct (ltb_false_cases _ _ H12) as [->|H21]; [congruence|].
  pose proof (ltb_trans _ _ _ H21 H13). congruence.
Qed.

(** [s1 < s2] and [s2 <= s3] give [s1 < s3]. *)
Lemma ltb_not_ltb_trans s1 s2 s3 :
  String.ltb s1 s2 = true -> String.ltb s3 s2 = false -> String.ltb s1 s3 = true.
Proof.
  intros H12 H32. destruct (ltb_false_cases _ _ H32) as [->|H23]; [exact H12|].
  now apply (ltb_trans s1 s2 s3).
Qed.

(** The descending query with [Limit: 1] answers with an item of the user
    whose access token no other item of the user exceeds. *)
Lemma greatest_token_fold u items : forall acc,
  match acc with Some b => tk_userId b = u | None => True end ->
  match
    fold_left
      (fun acc it =>
         if String.eqb (tk_userId it) u then
           match acc with
           | None => Some it
           | Some best => if String.ltb (tk_accessToken best) (tk_accessToken it)
                          then Some it else acc
           end
         else acc)
      items acc
  with
  | Some best =>
      (In best items \/ acc = Some best) /\
      tk_userId best = u /\
      (forall it, In it items -> tk_userId it = u ->
                  String.ltb (tk_accessToken best) (tk_accessToken it) = false) /\
      (forall b, acc = Some b -> String.ltb (tk_accessToken best) (tk_accessToken b) = false)
  | None => acc = None /\ forall it, In it items -> tk_userId it <> u
  end.
Proof.
  induction items as [|it items IH]; intros acc Hacc; simpl.
  - destruct acc as [b|]; [|split; [reflexivity | intros ? []]].
    repeat split; [now right | exact Hacc | intros ? [] |].
    intros b' [= <-]. apply ltb_irrefl.
  - destruct (String.eqb_spec (tk_userId it) u) as [Hu|Hu].
    + destruct acc as [b|].
      * destruct (String.ltb (tk_accessToken b) (tk_accessToken it)) eqn:Hlt.
        -- specialize (IH (Some it) Hu).
           destruct (fold_left _ items (Some it)) as [best|]; [|destruct IH; discriminate].
           destruct IH as (Hin & Hbu & Hmax & Hseed). repeat split.
           ++ destruct Hin as [Hin|[= <-]]; left; [now right | now left].
           ++ exact Hbu.
           ++ intros it' [<-|Hin'] Hu'; [now apply Hseed | now apply Hmax].
           ++ intros b' [= <-]. specialize (Hseed it eq_refl).
              destruct (String.ltb (tk_accessToken best) (tk_accessToken b)) eqn:Hbb;
                [|reflexivity].
              pose proof (ltb_trans _ _ _ Hbb Hlt). congruence.
        -- specialize (IH (Some b) Hacc).
           destruct (fold_left _ items (Some b)) as [best|]; [|destruct IH; discriminate].
           destruct IH as (Hin & Hbu & Hmax & Hseed). repeat split.
           ++ destruct Hin as [Hin|Hin]; [left; now right | now right].
           ++ exact Hbu.
           ++ intros it' [<-|Hin'] Hu'; [|now apply Hmax].
              apply (not_ltb_trans _ (tk_accessToken b)); [now apply Hseed | exact Hlt].
           ++ exact Hseed.
      * specialize (IH (Some it) Hu).
        destruct (fold_left _ items (Some it)) as [best|]; [|destruct IH; discriminate].
        destruct IH as (Hin & Hbu & Hmax & Hseed). repeat split.
        -- destruct Hin as [Hin|[= <-]]; left; [now right | now left].
        -- exact Hbu.
        -- intros it' [<-|Hin'] Hu'; [now apply Hseed | now apply Hmax].
        -- discriminate.
    + specialize (IH acc Hacc).
      destruct (fold_left _ items acc) as [best|].
      * destruct IH as (Hin & Hbu & Hmax & Hseed). repeat split.
        -- destruct Hin as [Hin|Hin]; [left; now right | now right].
        -- exact Hbu.
        -- intros it' [<-|Hin'] Hu'; [contradiction | now apply Hmax].
        -- exact Hseed.
      * destruct IH as [Hnone Hall]. split; [exact Hnone|].
        intros it' [<-|Hin']; [exact Hu | now apply Hall].
Qed.

Lemma greatest_token_spec u items :
  match greatest_token u items with
  | Some best =>
      In best items /\ tk_userId best = u /\
      forall it, In it items -> tk_userId it = u ->
                 String.ltb (tk_accessToken best) (tk_accessToken it) = false
  | None => forall it, In it items -> tk_userId it <> u
  end.
Proof.
  pose proof (greatest_token_fold u items None I) as H. unfold greatest_token.
  destruct (fold_left _ items None) as [best|].
  - destruct H as ([Hin|Hin] & Hu & Hmax & _); [|discriminate]. auto.
  - apply H.
Qed.

Lemma updateCache_frame E a r w :
  dbCalls (snd (_updateCache E a r w)) = dbCalls w.
Proof.
  unfold _updateCache. destruct (cacheEnabled (config E)); simpl; [|reflexivity].
  unfold modify; simpl.
  destruct (map_size _ >? _); [destruct (first_key _)|]; simpl; now destruct_world w.
Qed.

(** X12 (which pair [getTokensByUserId] returns).  The pair returned is
    chosen by the order of the access tokens, the sort key, not by the time
    of saving: once a pair has been saved whose access token is smaller, as
    a string, than that of a pair the table already holds for the user,
    [getTokensByUserId] (its query accepted by the store) returns one of the
    pairs that were there before, with a greater access token, and not the
    pair just saved. *)
Theorem latest_pair_is_greatest_access_token :
  forall (E : Env) (u a : string) (r x : JsValue) (w : World) (p : TokenPair)
         (item0 : TokenItem),
    fst (saveTokens E u (JStr a) r x w) = Ok p ->
    dbFault E (S (dbCalls w)) = None ->
    In item0 (tokenItems w) ->
    tk_userId item0 = u ->
    String.ltb a (tk_accessToken item0) = true ->
    exists best,
      fst (getTokensByUserId E u (snd (saveTokens E u (JStr a) r x w)))
      = Ok (Some (pair_of best)) /\
      In best (tokenItems w) /\
      tk_userId best = u /\
      String.ltb a (tk_accessToken best) = true.
Proof.
  intros E u a r x w p item0 Hok Hquery Hin0 Hu0 Hlt.
  destruct (saveTokens_success E u (JStr a) r x w p Hok)
    as (a' & expiresAt & t & [= <-] & Hworld).
  cbv zeta in Hworld.
  set (new := mkTokenItem u a r expiresAt t t) in *.
  set (w2 := set_tokenItems (put_token new (tokenItems w))
               (set_dbCalls (S (dbCalls w)) (set_clockReads (S (clockReads w)) w))) in *.
  set (w1 := snd (saveTokens E u (JStr a) r x w)) in *.
  assert (Hitems : tokenItems w1 = put_token new (tokenItems w)).
  { rewrite Hworld. destruct (cacheEnabled (config E)).
    - rewrite (proj1 (updateCache_tokenItems E a r w2)). unfold w2. now destruct_world w.
    - unfold w2. now destruct_world w. }
  assert (Hcalls : dbCalls w1 = S (dbCalls w)).
  { rewrite Hworld. destruct (cacheEnabled (config E)).
    - rewrite updateCache_frame. unfold w2. now destruct_world w.
    - unfold w2. now destruct_world w. }
  pose proof (greatest_token_spec u (put_token new (tokenItems w))) as Hspec.
  assert (Hin0' : In item0 (put_token new (tokenItems w))).
  { unfold put_token. apply in_or_app. left. apply filter_In. split; [exact Hin0|].
    unfold same_token_key. cbn [tk_userId tk_accessToken new].
    destruct (String.eqb_spec (tk_accessToken item0) a) as [Heq|Hne].
    - rewrite Heq, ltb_irrefl in Hlt. discriminate.
    - now rewrite Bool.andb_false_r. }
  destruct (greatest_token u (put_token new (tokenItems w))) as [best|] eqn:Hbest.
  2:{ exfalso. exact (Hspec item0 Hin0' Hu0). }
  destruct Hspec as (Hin & Hbu & Hmax).
  exists best.
  assert (Hbest_lt : String.ltb a (tk_accessToken best) = true).
  { apply (ltb_not_ltb_trans a (tk_accessToken item0)); [exact Hlt|].
    now apply Hmax. }
  split; [|split; [|split; [exact Hbu | exact Hbest_lt]]].
  - unfold getTokensByUserId, tokens_query_user, bind, sdk, gets.
    rewrite Hcalls, Hquery.
    replace (tokenItems (set_dbCalls (S (S (dbCalls w))) w1)) with (tokenItems w1)
      by now destruct w1.
    rewrite Hitems, Hbest.
    destruct (cacheEnabled (config E)); [|reflexivity].
    destruct (updateCache_tokenItems E (tk_accessToken best) (tk_refreshToken best)
                (set_dbCalls (S (S (dbCalls w))) w1)) as [_ Hres].
    destruct (_updateCache E (tk_accessToken best) (tk_refreshToken best)
                (set_dbCalls (S (S (dbCalls w))) w1)) as [res w3].
    cbn [fst] in Hres. rewrite Hres. reflexivity.
  - unfold put_token in Hin. apply in_app_or in Hin. destruct Hin as [Hin|[<-|[]]].
    + now apply filter_In in Hin.
    + cbn [tk_accessToken new] in Hbest_lt. rewrite ltb_irrefl in Hbest_lt. discriminate.
Qed.

Lemma latest_pair_is_greatest_access_token_witness :
  exists best,
    fst (getTokensByUserId env_unavailable "u1"
           (snd (saveTokens env_unavailable "u1" (JStr "T0") (JStr "R0") (JNum 3600)
                            linked_world)))
    = Ok (Some (pair_of best)) /\
    tk_accessToken best = "T1".
Proof.
  destruct (latest_pair_is_greatest_access_token env_unavailable "u1" "T0" (JStr "R0")
              (JNum 3600) linked_world
              (mkTokenPair (JStr "T0") (JStr "R0") 1700003600000)
              (mkTokenItem "u1" "T1" (JStr "R1") 1700003600000 1700000000000 1700000000000))
    as (best & Hres & Hin & _ & _).
  - reflexivity.
  - reflexivity.
  - now left.
  - reflexivity.
  - reflexivity.
  - exists best. split; [exact Hres|].
    destruct Hin as [<-|[]]. reflexivity.
Defined.

(** *** Deleting every pair of a user *)

Lemma In_insert_token item x : forall sorted,
  In x (insert_token item sorted) <-> x = item \/ In x sorted.
Proof.
  induction sorted as [|first rest IH]; simpl.
  - intuition.
  - destruct (String.leb _ _); simpl; [intuition|]. rewrite IH. intuition.
Qed.

Lemma In_user_tokens u x items :
  In x (user_tokens u items) <-> In x items /\ tk_userId x = u.
Proof.
  unfold user_tokens.
  assert (Hsort : forall l, In x (fold_right insert_token [] l) <-> In x l).
  { induction l as [|it l IH]; simpl; [tauto|]. rewrite In_insert_token, IH. intuition. }
  rewrite Hsort, filter_In. now rewrite String.eqb_eq.
Qed.

Lemma filter_all {A} (f : A -> bool) l : (forall x, f x = true) -> filter f l = l.
Proof.
  intros H. induction l as [|x l IH]; simpl; [reflexivity|]. now rewrite H, IH.
Qed.

Lemma filter_filter {A} (f g : A -> bool) l :
  filter f (filter g l) = filter (fun x => g x && f x) l.
Proof.
  induction l as [|x l IH]; simpl; [reflexivity|].
  destruct (g x); simpl; [destruct (f x); now rewrite IH | exact IH].
Qed.

(** The access tokens of [tokens]. *)
Lemma delete_all_filter u tokens : forall items,
  fold_left (fun l t => delete_token u (tk_accessToken t) l) tokens items
  = filter (fun it => negb (String.eqb (tk_userId it) u
                            && existsb (String.eqb (tk_accessToken it))
                                       (List.map tk_accessToken tokens)))
           items.
Proof.
  induction tokens as [|t tokens IH]; intros items; simpl.
  - symmetry. apply filter_all. intros it. now rewrite Bool.andb_false_r.
  - rewrite IH. unfold delete_token. rewrite filter_filter. apply filter_ext.
    intros it. unfold same_token_key.
    destruct (String.eqb (tk_userId it) u); simpl; [|reflexivity].
    destruct (String.eqb (tk_accessToken it) (tk_accessToken t)); reflexivity.
Qed.

Lemma map_get_delete_all k tokens : forall m : JsMap JsValue,
  In k (List.map tk_accessToken tokens) ->
  map_get k (fold_left (fun m t => map_delete (tk_accessToken t) m) tokens m) = None.
Proof.
  induction tokens as [|t tokens IH]; intros m0; simpl; [tauto|].
  intros [<-|Hin]; [|now apply IH].
  clear IH. revert m0. induction tokens as [|t' tokens IH']; intros m0; simpl.
  - apply map_get_delete_same.
  - destruct (String.eqb_spec (tk_accessToken t) (tk_accessToken t')) as [Heq|Hne].
    + rewrite <- Heq.
      replace (map_delete (tk_accessToken t) (map_delete (tk_accessToken t) m0))
        with (map_delete (tk_accessToken t) m0).
      * apply IH'.
      * unfold map_delete. rewrite filter_filter. apply filter_ext.
        intros kv. now rewrite Bool.andb_diag.
    + replace (map_delete (tk_accessToken t') (map_delete (tk_accessToken t) m0))
        with (map_delete (tk_accessToken t) (map_delete (tk_accessToken t') m0)).
      * apply IH'.
      * unfold map_delete. rewrite !filter_filter. apply filter_ext.
        intros kv. apply Bool.andb_comm.
Qed.

Section DeleteAll.
Context (E : Env).
Hypothesis Hstore : forall k, dbFault E k = None.

Lemma delete_each_ok u tokens : forall rejected w,
  exists w',
    delete_each E u tokens rejected w = (Ok rejected, w') /\
    tokenItems w'
    = fold_left (fun l t => delete_token u (tk_accessToken t) l) tokens (tokenItems w) /\
    (cacheEnabled (config E) = true ->
     tokenCache w'
     = fold_left (fun m t => map_delete (tk_accessToken t) m) tokens (tokenCache w)).
Proof.
  induction tokens as [|t tokens IH]; intros rejected w; simpl.
  - exists w. repeat split.
  - unfold bind at 1.
    set (w1 := if cacheEnabled (config E)
               then set_tokenCache (map_delete (tk_accessToken t) (tokenCache w)) w
               else w).
    assert (Hstep : (if cacheEnabled (config E)
                     then modify (fun w => set_tokenCache
                                             (map_delete (tk_accessToken t) (tokenCache w)) w)
                     else ret tt) w = (Ok tt, w1)).
    { unfold w1. destruct (cacheEnabled (config E)); reflexivity. }
    rewrite Hstep.
    unfold bind at 1, try_catch, tokens_deleteItem, bind, sdk. rewrite Hstore.
    unfold modify, ret.
    set (w2 := set_tokenItems _ _).
    destruct (IH (match rejected with Some _ => rejected | None => None end) w2)
      as (w' & Hrun & Hitems & Hcache).
    exists w'. split.
    + rewrite Hrun. now destruct rejected.
    + split.
      * rewrite Hitems. unfold w2, w1.
        destruct (cacheEnabled (config E)); now destruct_world w.
      * intros Hen. rewrite (Hcache Hen). unfold w2, w1. rewrite Hen. now destruct_world w.
Qed.

(** X13 ([deleteAllUserTokens] on a store that accepts every call).  The
    call answers [true]; afterwards the table holds no pair of the user and
    every pair of the other users, and with the cache enabled none of the
    user's access tokens is cached any more. *)
Theorem deleteAllUserTokens_removes_every_pair :
  forall (u : string) (w : World),
    exists w',
      deleteAllUserTokens E u w = (Ok true, w') /\
      tokenItems w'
      = filter (fun it => negb (String.eqb (tk_userId it) u)) (tokenItems w) /\
      (cacheEnabled (config E) = true ->
       forall it, In it (tokenItems w) -> tk_userId it = u ->
                  map_get (tk_accessToken it) (tokenCache w') = None).
Proof.
  intros u w. unfold deleteAllUserTokens, tokens_query_all, bind, sdk, gets.
  rewrite Hstore.
  replace (tokenItems (set_dbCalls (S (dbCalls w)) w)) with (tokenItems w)
    by now destruct_world w.
  assert (Hfilter :
    filter (fun it => negb (String.eqb (tk_userId it) u
                            && existsb (String.eqb (tk_accessToken it))
                                 (List.map tk_accessToken (user_tokens u (tokenItems w)))))
           (tokenItems w)
    = filter (fun it => negb (String.eqb (tk_userId it) u)) (tokenItems w)).
  { apply filter_ext_in. intros it Hin.
    destruct (String.eqb_spec (tk_userId it) u) as [Hu|Hu]; [|reflexivity].
    simpl. replace (existsb _ _) with true; [reflexivity|].
    symmetry. apply existsb_exists. exists (tk_accessToken it).
    split; [|apply String.eqb_refl].
    apply in_map. now apply In_user_tokens. }
  destruct (user_tokens u (tokenItems w)) as [|t tokens] eqn:Htokens.
  - exists (set_dbCalls (S (dbCalls w)) w). split; [reflexivity|]. split.
    + rewrite <- Hfilter. simpl.
      replace (tokenItems (set_dbCalls (S (dbCalls w)) w)) with (tokenItems w)
        by now destruct_world w.
      symmetry. apply filter_all. intros it. now rewrite Bool.andb_false_r.
    + intros _ it Hin Hu. exfalso.
      assert (H : In it (user_tokens u (tokenItems w))) by now apply In_user_tokens.
      now rewrite Htokens in H.
  - destruct (delete_each_ok u (t :: tokens) None (set_dbCalls (S (dbCalls w)) w))
      as (w' & Hrun & Hitems & Hcache).
    exists w'. rewrite Hrun. split; [reflexivity|]. split.
    + rewrite Hitems, delete_all_filter.
      replace (tokenItems (set_dbCalls (S (dbCalls w)) w)) with (tokenItems w)
        by now destruct_world w.
      exact Hfilter.
    + intros Hen it Hin Hu. rewrite (Hcache Hen).
      apply map_get_delete_all.
      rewrite <- Htokens. apply in_map. now apply In_user_tokens.
Qed.
End DeleteAll.

Lemma deleteAllUserTokens_removes_every_pair_witness :
  exists w',
    deleteAllUserTokens env_unavailable "u1" two_pairs_world = (Ok true, w') /\
    List.map tk_accessToken (tokenItems w') = ["T5"].
Proof.
  destruct (deleteAllUserTokens_removes_every_pair env_unavailable (fun _ => eq_refl)
              "u1" two_pairs_world) as (w' & Hrun & Hitems & _).
  exists w'. split; [exact Hrun|]. now rewrite Hitems.
Defined.

(** ** The playback store: round trips and updates *)

Lemma field_roundtrip k (props : list (string * JsValue)) :
  field (json_roundtrip (JObj props)) k
  = match map_get k (filter (fun kv => match snd kv with JUndefined => false | _ => true end) props) with
    | Some v => json_roundtrip v
    | None => JUndefined
    end.
Proof.
  simpl. unfold obj_get.
  induction props as [|[k0 v0] props IH]; simpl; [reflexivity|].
  destruct v0; simpl; try (destruct (String.eqb k k0); [reflexivity | exact IH]).
  exact IH.
Qed.

(** A property defined once in an object literal reads back as its stored
    image. *)
Lemma field_roundtrip_first k v (props : list (string * JsValue)) :
  map_get k props = Some v ->
  (forall v', In (k, v') props -> v' = v) ->
  field (json_roundtrip (JObj props)) k = stored v.
Proof.
  intros Hget Huniq. rewrite field_roundtrip.
  induction props as [|[k0 v0] props IH]; simpl in *; [discriminate|].
  destruct (String.eqb_spec k k0) as [->|Hne].
  - injection Hget as ->.
    destruct v; simpl; try (rewrite String.eqb_refl; reflexivity).
    clear IH. induction props as [|[k1 v1] props IH]; simpl; [reflexivity|].
    assert (Hrest : forall v', In (k0, v') props -> v' = JUndefined).
    { intros v' Hin. apply Huniq. right. now right. }
    destruct (String.eqb_spec k0 k1) as [->|Hne].
    + rewrite (Huniq v1) by (right; now left). simpl. apply IH.
      intros v' [Heq|Hin]; [now inversion Heq | now apply Hrest].
    + assert (Hstep : match map_get k0 (filter (fun kv => match snd kv with
                                                           | JUndefined => false
                                                           | _ => true
                                                           end) props) with
                      | Some v => json_roundtrip v
                      | None => JUndefined
                      end = JUndefined).
      { apply IH. intros v' [Heq|Hin]; [now inversion Heq | now apply Hrest]. }
      destruct v1; simpl; try (destruct (String.eqb_spec k0 k1); [contradiction|]);
        exact Hstep.
  - assert (Hrest : forall v', In (k, v') props -> v' = v).
    { intros v' Hin. apply Huniq. now right. }
    specialize (IH Hget Hrest).
    destruct v0; simpl; try (destruct (String.eqb_spec k k0); [contradiction|]); exact IH.
Qed.

Section PlaybackRoundTrips.
Context (E : Env).
Hypothesis Hcalm : calm E.

Lemma latest_after_save userId props w :
  not_after (clock E (clockReads w)) userId (playbackItems w) ->
  latest_item userId (playbackItems (snd (savePlaybackState E userId (JObj props) w)))
  = Some (snapshot_item userId (clock E (clockReads w)) (JObj props)).
Proof.
  intros Hna. rewrite (savePlaybackState_ok E Hcalm). cbn [snd].
  replace (playbackItems (set_playbackItems _ _))
    with (put_state (snapshot_item userId (clock E (clockReads w)) (JObj props))
                    (playbackItems w)) by now destruct_world w.
  unfold snapshot_item. now apply latest_item_put.
Qed.

(** X14 (a saved snapshot is the latest one).  On a store that accepts the
    calls, a snapshot saved at an instant no earlier than the user's other
    items is what [getLatestPlaybackState] returns next, as its JSON image:
    properties set to [undefined] are gone and [NaN] has become [null]. *)
Theorem saved_snapshot_is_read_back :
  forall (userId : string) (props : list (string * JsValue)) (w : World),
    not_after (clock E (clockReads w)) userId (playbackItems w) ->
    fst (savePlaybackState E userId (JObj props) w) = Ok (JObj props) /\
    fst (getLatestPlaybackState E userId (snd (savePlaybackState E userId (JObj props) w)))
    = Ok (json_roundtrip (JObj props)).
Proof.
  intros userId props w Hna. split.
  - now rewrite (savePlaybackState_ok E Hcalm).
  - rewrite (getLatestPlaybackState_ok E Hcalm).
    now rewrite (latest_after_save userId props w Hna).
Qed.

(** X15 (a saved playlist is read back).  After [savePlaylist(userId,
    trackList, currentIndex)], [getPlaylist] returns the track list and the
    index as stored; a missing track list reads as the empty list, and a
    missing, zero or otherwise falsy index as 0. *)
Theorem saved_playlist_is_read_back :
  forall (userId : string) (tracks index : JsValue) (w : World),
    not_after (clock E (S (clockReads w))) userId (playbackItems w) ->
    fst (getPlaylist E userId (snd (savePlaylist E userId tracks index w)))
    = Ok (Some (mkPlaylist
                  (or_else (stored tracks) (JArr []))
                  (or_else (stored (match index with JUndefined => JNum 0 | v => v end))
                           (JNum 0)))).
Proof.
  intros userId tracks index w Hna.
  set (index' := match index with JUndefined => JNum 0 | v => v end).
  set (props := [("type", JStr "playlist"); ("trackList", tracks);
                 ("currentIndex", index');
                 ("updatedAt", JStr (iso_text (clock E (clockReads w))))]).
  assert (Hrun : savePlaylist E userId tracks index w
                 = savePlaybackState E userId (JObj props)
                     (set_clockReads (S (clockReads w)) w)).
  { unfold savePlaylist. fold index'. unfold bind at 1. now rewrite (nowISO_ok E Hcalm). }
  rewrite Hrun.
  assert (Hlatest :
    latest_item userId
      (playbackItems (snd (savePlaybackState E userId (JObj props)
                             (set_clockReads (S (clockReads w)) w))))
    = Some (snapshot_item userId (clock E (S (clockReads w))) (JObj props))).
  { replace (clock E (S (clockReads w)))
      with (clock E (clockReads (set_clockReads (S (clockReads w)) w)))
      by now destruct_world w.
    apply latest_after_save.
    replace (clockReads (set_clockReads (S (clockReads w)) w)) with (S (clockReads w))
      by now destruct_world w.
    replace (playbackItems (set_clockReads (S (clockReads w)) w)) with (playbackItems w)
      by now destruct_world w.
    exact Hna. }
  unfold getPlaylist, bind. rewrite (getLatestPlaybackState_ok E Hcalm), Hlatest.
  cbn [snapshot_item st_state stringify].
  change (truthy (json_roundtrip (JObj props))) with true. cbn [negb].
  unfold lift.
  assert (Hfield : forall k, get_prop (json_roundtrip (JObj props)) k
                             = Ok (field (json_roundtrip (JObj props)) k)) by reflexivity.
  rewrite !Hfield.
  rewrite (field_roundtrip_first "type" (JStr "playlist") props) by
    (try reflexivity; intros v' [[= <-]|[[=]|[[=]|[[=]|[]]]]]; reflexivity).
  rewrite (field_roundtrip_first "trackList" tracks props) by
    (try reflexivity; intros v' [[=]|[[= <-]|[[=]|[[=]|[]]]]]; reflexivity).
  rewrite (field_roundtrip_first "currentIndex" index' props) by
    (try reflexivity; intros v' [[=]|[[=]|[[= <-]|[[=]|[]]]]]; reflexivity).
  reflexivity.
Qed.
End PlaybackRoundTrips.

Lemma saved_snapshot_is_read_back_witness :
  fst (getLatestPlaybackState env_catalog_ok "u1"
         (snd (savePlaybackState env_catalog_ok "u1"
                 (JObj [("type", JStr "track"); ("albumName", JUndefined)])
                 (playing_world 1 "tr1"))))
  = Ok (JObj [("type", JStr "track")]).
Proof.
  destruct (saved_snapshot_is_read_back env_catalog_ok calm_catalog_ok "u1"
              [("type", JStr "track"); ("albumName", JUndefined)] (playing_world 1 "tr1"))
    as [_ Hread].
  - intros it [<-|[]] _. vm_compute. discriminate.
  - exact Hread.
Defined.

Lemma saved_playlist_is_read_back_witness :
  fst (getPlaylist env_catalog_ok "u1"
         (snd (savePlaylist env_catalog_ok "u1" four_tracks JUndefined (playing_world 1 "tr1"))))
  = Ok (Some (mkPlaylist four_tracks (JNum 0))).
Proof.
  rewrite (saved_playlist_is_read_back env_catalog_ok calm_catalog_ok "u1" four_tracks
             JUndefined (playing_world 1 "tr1")).
  - reflexivity.
  - intros it [<-|[]] _. vm_compute. discriminate.
Defined.

Lemma assign_fresh k (props : list (string * JsValue)) :
  NoDup (map_keys props) -> map_get k (assign [] props) = map_get k props.
Proof.
  intros Hnd. destruct (map_get k props) as [v|] eqn:Hget.
  - now apply assign_present.
  - now rewrite assign_absent.
Qed.

Section PlaybackUpdates.
Context (E : Env).
Hypothesis Hcalm : calm E.

(** [updatePlaylistIndex] with any numeric index, on a latest snapshot that
    is a playlist whose track list is an array. *)
Lemma updatePlaylistIndex_run userId w item props tracks n :
  latest_item userId (playbackItems w) = Some item ->
  st_state item = SJson (JObj props) ->
  obj_get "type" props = JStr "playlist" ->
  obj_get "trackList" props = JArr tracks ->
  let validIndex := Z.max 0 (Z.min n (Z.of_nat (List.length tracks) - 1)) in
  let indexState :=
    JObj [("type", JStr "playlist"); ("trackList", JArr tracks);
          ("currentIndex", JNum validIndex);
          ("updatedAt", JStr (iso_text (clock E (clockReads w))))] in
  updatePlaylistIndex E userId (JNum n) w
  = (Ok (Some (mkPlaylist (JArr tracks) (JNum validIndex))),
     set_playbackItems
       (put_state (snapshot_item userId (clock E (S (clockReads w))) indexState)
                  (playbackItems w))
       (set_dbCalls (S (S (dbCalls w))) (set_clockReads (S (S (clockReads w))) w))).
Proof.
  intros Hlatest Hstate Htype Htracks validIndex indexState.
  unfold updatePlaylistIndex. unfold bind at 1.
  rewrite (getPlaylist_ok E Hcalm userId w item props Hlatest Hstate), Htype, Htracks.
  change (strict_eq (JStr "playlist") (JStr "playlist")) with true. cbv beta iota.
  change (or_else (JArr tracks) (JArr [])) with (JArr tracks).
  cbn [trackList].
  unfold bind at 1, lift at 1, last_index. cbn [get_prop].
  change (String.eqb "length" "length") with true. cbv beta iota.
  cbn [to_number option_map of_number]. fold validIndex.
  unfold bind at 1. rewrite (nowISO_ok E Hcalm).
  replace (clockReads (set_dbCalls (S (dbCalls w)) w)) with (clockReads w)
    by now destruct_world w.
  unfold bind at 1. rewrite (savePlaybackState_ok E Hcalm).
  unfold ret. destruct_world w. reflexivity.
Qed.

(** X16 (the playlist index is clamped).  For a stored playlist whose track
    list is an array, [updatePlaylistIndex(userId, n)] stores and returns
    [max(0, min(n, length - 1))]: an index of the list whenever the list is
    not empty, and 0 for an empty list, whatever number [n] is. *)
Theorem playlist_index_is_clamped :
  forall (userId : string) (w : World) (item : StateItem)
         (props : list (string * JsValue)) (tracks : list JsValue) (n : Z),
    latest_item userId (playbackItems w) = Some item ->
    st_state item = SJson (JObj props) ->
    obj_get "type" props = JStr "playlist" ->
    obj_get "trackList" props = JArr tracks ->
    not_after (clock E (S (clockReads w))) userId (playbackItems w) ->
    exists index,
      fst (updatePlaylistIndex E userId (JNum n) w)
      = Ok (Some (mkPlaylist (JArr tracks) (JNum index))) /\
      index = Z.max 0 (Z.min n (Z.of_nat (List.length tracks) - 1)) /\
      0 <= index /\
      (tracks <> [] -> index < Z.of_nat (List.length tracks)) /\
      (tracks = [] -> index = 0) /\
      option_map (fun s => field s "currentIndex")
                 (latest_snapshot (snd (updatePlaylistIndex E userId (JNum n) w)) userId)
      = Some (JNum index).
Proof.
  intros userId w item props tracks n Hlatest Hstate Htype Htracks Hna.
  rewrite (updatePlaylistIndex_run userId w item props tracks n Hlatest Hstate Htype Htracks).
  eexists. split; [reflexivity|]. split; [reflexivity|].
  split; [lia|]. split; [|split].
  - intros Hne. destruct tracks; [contradiction|]. simpl List.length. lia.
  - intros ->. simpl List.length. lia.
  - cbn [snd].
    rewrite (latest_snapshot_put userId (clock E (S (clockReads w)))
               [("type", JStr "playlist"); ("trackList", JArr tracks);
                ("currentIndex",
                 JNum (Z.max 0 (Z.min n (Z.of_nat (List.length tracks) - 1))));
                ("updatedAt", JStr (iso_text (clock E (clockReads w))))]
               (playbackItems w)).
    + cbn [option_map]. f_equal.
    + now destruct_world w.
    + exact Hna.
Qed.

(** [updateTrackState] with the token of the latest snapshot. *)
Lemma updateTrackState_match userId token updates w item currentState :
  latest_item userId (playbackItems w) = Some item ->
  st_state item = SJson currentState ->
  truthy currentState = true ->
  strict_eq (token_of currentState) token = true ->
  let props := map_set "updatedAt" (JStr (iso_text (clock E (clockReads w))))
                 (assign (assign [] (own_props currentState)) (own_props updates)) in
  updateTrackState E userId token updates w
  = (Ok (JObj props),
     set_playbackItems
       (put_state (snapshot_item userId (clock E (S (clockReads w))) (JObj props))
                  (playbackItems w))
       (set_dbCalls (S (S (dbCalls w))) (set_clockReads (S (S (clockReads w))) w))).
Proof.
  intros Hlatest Hstate Htruthy Heq props.
  unfold updateTrackState. unfold bind at 1. rewrite (getLatestPlaybackState_ok E Hcalm).
  rewrite Hlatest, Hstate, Htruthy. change (negb true) with false. cbv beta iota.
  unfold bind at 1, lift at 1. rewrite (truthy_token_of _ Htruthy). rewrite Heq.
  change (negb true) with false. cbv beta iota.
  unfold bind at 1. rewrite (nowISO_ok E Hcalm).
  replace (clockReads (set_dbCalls (S (dbCalls w)) w)) with (clockReads w)
    by now destruct_world w.
  fold props. rewrite (savePlaybackState_ok E Hcalm).
  destruct_world w. reflexivity.
Qed.

(** X17 (an update with the current token merges).  When [token] is the
    token of the user's latest snapshot, [updateTrackState] stores and
    returns the snapshot with the properties of [updates] laid over it:
    every property of [updates] has its new value, every other property of
    the snapshot (the track list, the index, ...) keeps its value, and
    [updatedAt] is the current instant. *)
Theorem update_with_current_token_merges :
  forall (userId : string) (token : JsValue) (w : World) (item : StateItem)
         (props updates : list (string * JsValue)),
    latest_item userId (playbackItems w) = Some item ->
    st_state item = SJson (JObj props) ->
    strict_eq (obj_get "token" props) token = true ->
    NoDup (map_keys props) ->
    NoDup (map_keys updates) ->
    exists merged,
      fst (updateTrackState E userId token (JObj updates) w) = Ok (JObj merged) /\
      map_get "updatedAt" merged = Some (JStr (iso_text (clock E (clockReads w)))) /\
      (forall k v, k <> "updatedAt" -> map_get k updates = Some v ->
                   map_get k merged = Some v) /\
      (forall k, k <> "updatedAt" -> map_get k updates = None ->
                 map_get k merged = map_get k props) /\
      playbackItems (snd (updateTrackState E userId token (JObj updates) w))
      = put_state (snapshot_item userId (clock E (S (clockReads w))) (JObj merged))
                  (playbackItems w).
Proof.
  intros userId token w item props updates Hlatest Hstate Htoken Hnp Hnu.
  rewrite (updateTrackState_match userId token (JObj updates) w item (JObj props)
             Hlatest Hstate eq_refl Htoken).
  eexists. split; [reflexivity|]. cbn [own_props snd]. repeat split.
  - apply map_get_set_same.
  - intros k v Hk Hget. rewrite map_get_set_other by exact Hk. now apply assign_present.
  - intros k Hk Hget. rewrite map_get_set_other by exact Hk.
    rewrite assign_absent by exact Hget. now apply assign_fresh.
Qed.
End PlaybackUpdates.

Lemma playlist_index_is_clamped_witness :
  fst (updatePlaylistIndex env_catalog_ok "u1" (JNum 99) (playing_world 1 "tr1"))
  = Ok (Some (mkPlaylist four_tracks (JNum 3))).
Proof.
  destruct (playlist_index_is_clamped env_catalog_ok calm_catalog_ok "u1"
              (playing_world 1 "tr1")
              (mkStateItem "u1" 1699999999000 (SJson (playlist_state 1 "tr1"))
                           1700086399 1699999999000)
              [("type", JStr "playlist"); ("trackList", four_tracks);
               ("currentIndex", JNum 1); ("token", JStr "tr1");
               ("offsetInMilliseconds", JNum 0)]
              [track "tr0" "Uno" "A"; track "tr1" "Dos" "B";
               track "tr2" "Tres" "C"; track "tr3" "Cuatro" "D"] 99)
    as (index & Hres & Hindex & _).
  - reflexivity.
  - reflexivity.
  - reflexivity.
  - reflexivity.
  - intros it [<-|[]] _. vm_compute. discriminate.
  - rewrite Hres, Hindex. reflexivity.
Defined.

Lemma update_with_current_token_merges_witness :
  exists merged,
    fst (updateTrackState env_catalog_ok "u1" (JStr "tr1")
           (JObj [("offsetInMilliseconds", JNum 5000)]) (playing_world 1 "tr1"))
    = Ok (JObj merged) /\
    map_get "offsetInMilliseconds" merged = Some (JNum 5000) /\
    map_get "trackList" merged = Some four_tracks /\
    map_get "currentIndex" merged = Some (JNum 1).
Proof.
  destruct (update_with_current_token_merges env_catalog_ok calm_catalog_ok "u1" (JStr "tr1")
              (playing_world 1 "tr1")
              (mkStateItem "u1" 1699999999000 (SJson (playlist_state 1 "tr1"))
                           1700086399 1699999999000)
              [("type", JStr "playlist"); ("trackList", four_tracks);
               ("currentIndex", JNum 1); ("token", JStr "tr1");
               ("offsetInMilliseconds", JNum 0)]
              [("offsetInMilliseconds", JNum 5000)])
    as (merged & Hres & _ & Hnew & Hold & _).
  - reflexivity.
  - reflexivity.
  - reflexivity.
  - repeat constructor; simpl; intuition discriminate.
  - repeat constructor; simpl; intuition discriminate.
  - exists merged. split; [exact Hres|]. split; [|split].
    + apply Hnew; [discriminate | reflexivity].
    + rewrite Hold; [reflexivity | discriminate | reflexivity].
    + rewrite Hold; [reflexivity | discriminate | reflexivity].
Defined.

(** ** The audio-player handler: robustness *)

Section Succeeds.

Lemma succeeds_ret {A} (a : A) : succeeds (ret a).
Proof. intros w. now exists a. Qed.

Lemma succeeds_gets {A} (f : World -> A) : succeeds (gets f).
Proof. intros w. now exists (f w). Qed.

Lemma succeeds_modify (f : World -> World) : succeeds (modify f).
Proof. intros w. now exists tt. Qed.

Lemma succeeds_bind {A B} (m : M A) (f : A -> M B) :
  succeeds m -> (forall a, succeeds (f a)) -> succeeds (bind m f).
Proof.
  intros Hm Hf w. unfold bind. destruct (Hm w) as (a & Ha).
  destruct (m w) as [r w']. simpl in Ha. subst r. apply Hf.
Qed.

Lemma bind_answers {A B} (m : M A) (f : A -> M B) w :
  succeeds m -> (forall a, succeeds (f a)) -> exists b, fst (bind m f w) = Ok b.
Proof. intros Hm Hf. exact (succeeds_bind m f Hm Hf w). Qed.

(** A [try] whose [catch] block cannot fail. *)
Lemma succeeds_catch {A} (m : M A) (h : JsError -> M A) :
  (forall e, succeeds (h e)) -> succeeds (try_catch m h).
Proof.
  intros Hh w. unfold try_catch. destruct (m w) as [[a|e] w']; [now exists a | apply Hh].
Qed.

Lemma succeeds_swallow {A} (m : M unit) (a : A) :
  succeeds (try_catch m (fun _ => ret tt) ;;; ret a).
Proof.
  apply succeeds_bind; [|intros; apply succeeds_ret].
  apply succeeds_catch. intros e. apply succeeds_ret.
Qed.

Lemma succeeds_getSessionAttributes handlerInput :
  in_session handlerInput = true -> succeeds (getSessionAttributes handlerInput).
Proof. intros H. unfold getSessionAttributes. rewrite H. apply succeeds_gets. Qed.
End Succeeds.

Lemma get_prop_defined v k :
  v <> JUndefined -> v <> JNull -> exists x, get_prop v k = Ok x.
Proof.
  intros Hu Hn. destruct v; try contradiction; simpl; eauto.
  - destruct (String.eqb k "length"); eauto.
  - destruct (String.eqb k "length"); eauto.
Qed.

Lemma stable_same_state w0 : stable (same_state w0).
Proof. intros w Hw. unfold same_state in *. repeat split; intros; now destruct_world w. Qed.

Lemma same_state_refl w : same_state w w.
Proof. now repeat split. Qed.

Lemma preserves_getLatestPlaybackState E (P : World -> Prop) userId :
  stable P -> preserves P (getLatestPlaybackState E userId).
Proof.
  intros HP. unfold getLatestPlaybackState, playback_query_latest.
  apply preserves_bind.
  - apply preserves_bind; [now apply preserves_sdk | intros; apply preserves_gets].
  - intros [item|]; [|apply preserves_ret].
    destruct (st_state item); [apply preserves_ret | apply preserves_ret | apply preserves_throw].
Qed.

(** The read that opens [handle]: a failure leaves [playbackState]
    undefined; nothing is written. *)
Lemma handle_read E userId w :
  try_catch (getLatestPlaybackState E userId) (fun error => ret JUndefined) w
  = (Ok (stored_state E userId w), snd (getLatestPlaybackState E userId w)).
Proof.
  unfold try_catch, stored_state, ret.
  now destruct (getLatestPlaybackState E userId w) as [[v|e] w'].
Qed.

Lemma read_same_state E userId w :
  same_state w (snd (getLatestPlaybackState E userId w)).
Proof.
  exact (preserves_getLatestPlaybackState E (same_state w) userId (stable_same_state w)
           w (same_state_refl w)).
Qed.

(** The read on a store that accepts the call. *)
Lemma stored_state_accepted E userId w item state :
  dbFault E (dbCalls w) = None ->
  latest_item userId (playbackItems w) = Some item ->
  st_state item = SJson state ->
  stored_state E userId w = state.
Proof.
  intros Hfault Hlatest Hstate.
  unfold stored_state, getLatestPlaybackState, playback_query_latest, bind, sdk, gets.
  rewrite Hfault, playbackItems_set_dbCalls, Hlatest, Hstate. reflexivity.
Qed.

(** The fallback on the attributes of the session when no state was read. *)
Lemma fallback_on_session handlerInput stored w :
  (if negb (truthy stored)
   then sessionAttributes <- getSessionAttributes handlerInput ;;
        ret (or_else (obj_get "currentlyPlaying" sessionAttributes) (JObj []))
   else ret stored) w
  = if truthy stored then (Ok stored, w)
    else if in_session handlerInput
         then (Ok (or_else (obj_get "currentlyPlaying" (session w)) (JObj [])), w)
         else (Throw out_of_session, w).
Proof.
  unfold getSessionAttributes. now destruct (truthy stored), (in_session handlerInput).
Qed.

(** With a state read or a session to fall back on, [handle] goes on with
    some [playbackState] in the world its read has left. *)
Lemma fallback_answers handlerInput stored w :
  in_session handlerInput = true \/ truthy stored = true ->
  exists playbackState,
    (if truthy stored then (Ok stored, w)
     else if in_session handlerInput
          then (Ok (or_else (obj_get "currentlyPlaying" (session w)) (JObj [])), w)
          else (Throw out_of_session, w))
    = (Ok playbackState, w).
Proof.
  intros [Hs|Ht].
  - rewrite Hs. destruct (truthy stored); eexists; reflexivity.
  - rewrite Ht. eexists; reflexivity.
Qed.

Lemma swallow_ok (m : M unit) w :
  exists w', try_catch m (fun _ => ret tt) w = (Ok tt, w').
Proof.
  unfold try_catch, ret. destruct (m w) as [[[]|e] w']; eexists; reflexivity.
Qed.

(** When [handle] answers. *)
Lemma handle_answers E handlerInput w :
  in_session handlerInput = true \/
  (truthy (stored_state E (in_userId handlerInput) w) = true /\
   audioPlayerEventName handlerInput <> "PlaybackStopped") ->
  (audioPlayerEventName handlerInput = "PlaybackFailed" ->
   in_error handlerInput <> JUndefined /\ in_error handlerInput <> JNull) ->
  exists response, fst (handle E handlerInput w) = Ok response.
Proof.
  intros Hcase Herror. unfold handle. cbv zeta. unfold bind at 1. rewrite handle_read.
  cbv beta iota. apply bind_answers.
  { destruct (negb (truthy (stored_state E (in_userId handlerInput) w))) eqn:Hst;
      [|apply succeeds_ret].
    apply succeeds_bind; [|intros; apply succeeds_ret].
    apply succeeds_getSessionAttributes.
    destruct Hcase as [Hs|[Ht _]]; [exact Hs|]. rewrite Ht in Hst. discriminate. }
  intros playbackState.
  destruct (String.eqb (audioPlayerEventName handlerInput) "PlaybackStarted");
    [apply succeeds_ret|].
  destruct (String.eqb (audioPlayerEventName handlerInput) "PlaybackFinished").
  { apply succeeds_bind; [apply succeeds_catch; intros; apply succeeds_ret | intros playlist].
    destruct playlist as [playlist|]; [|apply succeeds_swallow].
    match goal with |- succeeds (if ?c then _ else _) => destruct c end;
      [|apply succeeds_swallow].
    apply succeeds_catch. intros error. apply succeeds_swallow. }
  destruct (String.eqb_spec (audioPlayerEventName handlerInput) "PlaybackStopped")
    as [Hstop|_].
  { apply succeeds_bind; [apply succeeds_catch; intros; apply succeeds_ret | intros _].
    apply succeeds_bind.
    - apply succeeds_getSessionAttributes.
      destruct Hcase as [Hs|[_ Hne]]; [exact Hs | contradiction].
    - intros _. apply succeeds_bind; [apply succeeds_modify | intros; apply succeeds_ret]. }
  destruct (String.eqb_spec (audioPlayerEventName handlerInput) "PlaybackFailed") as [Hf|_];
    [|apply succeeds_ret].
  destruct (Herror Hf) as [Hu Hn].
  destruct (get_prop_defined (in_error handlerInput) "type" Hu Hn) as (errorType & ->).
  destruct (get_prop_defined (in_error handlerInput) "message" Hu Hn) as (errorMessage & ->).
  apply succeeds_bind; [apply succeeds_ret | intros ?].
  apply succeeds_bind; [apply succeeds_ret | intros ?].
  apply succeeds_swallow.
Qed.

(** No state read and no session: [handle] is rejected at the fallback. *)
Lemma handle_without_state_or_session E handlerInput w :
  in_session handlerInput = false ->
  truthy (stored_state E (in_userId handlerInput) w) = false ->
  handle E handlerInput w
  = (Throw out_of_session, snd (getLatestPlaybackState E (in_userId handlerInput) w)).
Proof.
  intros Hs Ht. unfold handle. cbv zeta. unfold bind at 1. rewrite handle_read.
  unfold bind at 1. rewrite fallback_on_session, Ht, Hs. reflexivity.
Qed.

(** A [PlaybackStopped] request without session is rejected after its [try]. *)
Lemma handle_stopped_out_of_session E handlerInput w :
  in_session handlerInput = false ->
  truthy (stored_state E (in_userId handlerInput) w) = true ->
  audioPlayerEventName handlerInput = "PlaybackStopped" ->
  fst (handle E handlerInput w) = Throw out_of_session.
Proof.
  intros Hs Ht Hname. unfold handle. cbv zeta. unfold bind at 1. rewrite handle_read.
  unfold bind at 1. rewrite fallback_on_session, Ht. rewrite Hname.
  change (String.eqb "PlaybackStopped" "PlaybackStarted") with false.
  change (String.eqb "PlaybackStopped" "PlaybackFinished") with false.
  change (String.eqb "PlaybackStopped" "PlaybackStopped") with true.
  cbv iota. unfold bind at 1.
  match goal with
  | |- context [try_catch ?m ?h ?w1] => destruct (swallow_ok m w1) as (w2 & ->)
  end.
  unfold bind at 1, getSessionAttributes. rewrite Hs. reflexivity.
Qed.

(** A [PlaybackFailed] request without [error], once past the fallback. *)
Lemma handle_failed_without_error E handlerInput w :
  in_session handlerInput = true \/
  truthy (stored_state E (in_userId handlerInput) w) = true ->
  audioPlayerEventName handlerInput = "PlaybackFailed" ->
  in_error handlerInput = JUndefined \/ in_error handlerInput = JNull ->
  exists message,
    handle E handlerInput w
    = (Throw (TypeErr message), snd (getLatestPlaybackState E (in_userId handlerInput) w)).
Proof.
  intros Hcase Hname Herr.
  destruct (fallback_answers handlerInput (stored_state E (in_userId handlerInput) w)
              (snd (getLatestPlaybackState E (in_userId handlerInput) w)) Hcase)
    as (playbackState & Hfall).
  unfold handle. cbv zeta. unfold bind at 1. rewrite handle_read.
  unfold bind at 1. rewrite fallback_on_session, Hfall. rewrite Hname.
  change (String.eqb "PlaybackFailed" "PlaybackStarted") with false.
  change (String.eqb "PlaybackFailed" "PlaybackFinished") with false.
  change (String.eqb "PlaybackFailed" "PlaybackStopped") with false.
  change (String.eqb "PlaybackFailed" "PlaybackFailed") with true.
  cbv iota.
  destruct Herr as [-> | ->]; unfold get_prop, lift, bind; eexists; reflexivity.
Qed.

(** The events that are only logged, once past the fallback. *)
Lemma handle_logged_only E handlerInput w :
  in_session handlerInput = true \/
  truthy (stored_state E (in_userId handlerInput) w) = true ->
  audioPlayerEventName handlerInput <> "PlaybackFinished" ->
  audioPlayerEventName handlerInput <> "PlaybackStopped" ->
  audioPlayerEventName handlerInput <> "PlaybackFailed" ->
  handle E handlerInput w
  = (Ok EmptyResponse, snd (getLatestPlaybackState E (in_userId handlerInput) w)).
Proof.
  intros Hcase Hfin Hstop Hfail.
  destruct (fallback_answers handlerInput (stored_state E (in_userId handlerInput) w)
              (snd (getLatestPlaybackState E (in_userId handlerInput) w)) Hcase)
    as (playbackState & Hfall).
  unfold handle. cbv zeta. unfold bind at 1. rewrite handle_read.
  unfold bind at 1. rewrite fallback_on_session, Hfall.
  apply String.eqb_neq in Hfin, Hstop, Hfail. rewrite Hfin, Hstop, Hfail.
  now destruct (String.eqb (audioPlayerEventName handlerInput) "PlaybackStarted").
Qed.

(** X18 (when the handler of audio-player events rejects).  Every failure
    of the store, the clock and the catalog layer is caught and logged:
    [handle] is rejected in these cases only.  The request carries no
    session and either no state could be read from the store (none
    stored, or the read failed), so that [handle] falls back on the
    attributes of the session, or the event is [PlaybackStopped], which
    reads them after its [try] block; or the event is [PlaybackFailed] and
    the request has no [error] object.  In every other case [handle]
    returns a response. *)
Theorem audio_player_handler_rejects_exactly_when :
  forall (E : Env) (handlerInput : HandlerInput) (w : World),
    (exists error, fst (handle E handlerInput w) = Throw error) <->
    (in_session handlerInput = false /\
     (truthy (stored_state E (in_userId handlerInput) w) = false \/
      audioPlayerEventName handlerInput = "PlaybackStopped")) \/
    (audioPlayerEventName handlerInput = "PlaybackFailed" /\
     (in_error handlerInput = JUndefined \/ in_error handlerInput = JNull)).
Proof.
  intros E handlerInput w. split.
  - intros (error & Hthrow).
    assert (Hdec : (audioPlayerEventName handlerInput = "PlaybackFailed" /\
                    (in_error handlerInput = JUndefined \/ in_error handlerInput = JNull)) \/
                   (audioPlayerEventName handlerInput = "PlaybackFailed" ->
                    in_error handlerInput <> JUndefined /\ in_error handlerInput <> JNull)).
    { destruct (String.eqb_spec (audioPlayerEventName handlerInput) "PlaybackFailed")
        as [Hf|Hnf]; [|right; intros Hf; contradiction].
      destruct (in_error handlerInput); try (right; intros _; split; discriminate);
        left; split; auto. }
    destruct Hdec as [Hbad|Hgood]; [right; exact Hbad|]. left.
    destruct (in_session handlerInput) eqn:Hs.
    { destruct (handle_answers E handlerInput w (or_introl Hs) Hgood) as (r & Hr).
      congruence. }
    split; [reflexivity|].
    destruct (truthy (stored_state E (in_userId handlerInput) w)) eqn:Ht; [|now left].
    destruct (String.eqb_spec (audioPlayerEventName handlerInput) "PlaybackStopped")
      as [Hstop|Hne]; [now right|].
    destruct (handle_answers E handlerInput w (or_intror (conj Ht Hne)) Hgood) as (r & Hr).
    congruence.
  - intros [[Hs Hcase] | [Hf Herr]].
    + destruct (truthy (stored_state E (in_userId handlerInput) w)) eqn:Ht.
      * destruct Hcase as [Hfalse|Hstop]; [discriminate|].
        exists out_of_session. now apply handle_stopped_out_of_session.
      * exists out_of_session. now rewrite handle_without_state_or_session.
    + destruct (in_session handlerInput) eqn:Hs.
      * destruct (handle_failed_without_error E handlerInput w (or_introl Hs) Hf Herr)
          as (message & ->). now eexists.
      * destruct (truthy (stored_state E (in_userId handlerInput) w)) eqn:Ht.
        -- destruct (handle_failed_without_error E handlerInput w (or_intror Ht) Hf Herr)
             as (message & ->). now eexists.
        -- exists out_of_session. now rewrite handle_without_state_or_session.
Qed.

(** X19 (events that only log).  For [PlaybackStarted],
    [PlaybackNearlyFinished] and every event name other than
    [PlaybackFinished], [PlaybackStopped] and [PlaybackFailed], [handle]
    writes nothing: the playback table, the token table and the session
    attributes are as before.  It answers with the empty response when a
    state was read from the store or the request carries a session; when
    no state could be read and the request carries no session it is
    rejected with the error of the attributes manager. *)
Theorem other_events_write_nothing :
  forall (E : Env) (handlerInput : HandlerInput) (w : World),
    audioPlayerEventName handlerInput <> "PlaybackFinished" ->
    audioPlayerEventName handlerInput <> "PlaybackStopped" ->
    audioPlayerEventName handlerInput <> "PlaybackFailed" ->
    same_state w (snd (handle E handlerInput w)) /\
    (in_session handlerInput = true \/
     truthy (stored_state E (in_userId handlerInput) w) = true ->
     fst (handle E handlerInput w) = Ok EmptyResponse) /\
    (in_session handlerInput = false ->
     truthy (stored_state E (in_userId handlerInput) w) = false ->
     fst (handle E handlerInput w) = Throw out_of_session).
Proof.
  intros E handlerInput w Hfin Hstop Hfail.
  split; [|split].
  - destruct (in_session handlerInput) eqn:Hs.
    + rewrite (handle_logged_only E handlerInput w (or_introl Hs) Hfin Hstop Hfail).
      apply read_same_state.
    + destruct (truthy (stored_state E (in_userId handlerInput) w)) eqn:Ht.
      * rewrite (handle_logged_only E handlerInput w (or_intror Ht) Hfin Hstop Hfail).
        apply read_same_state.
      * rewrite (handle_without_state_or_session E handlerInput w Hs Ht).
        apply read_same_state.
  - intros Hcase. now rewrite (handle_logged_only E handlerInput w Hcase Hfin Hstop Hfail).
  - intros Hs Ht. now rewrite (handle_without_state_or_session E handlerInput w Hs Ht).
Qed.

Lemma other_events_write_nothing_witness :
  fst (handle env_store_down
         (mkInput "PlaybackNearlyFinished" "u1" (Some "T1") (JStr "tr1") (JNum 0) JUndefined
                  false)
         (playing_world 1 "tr1"))
  = Throw out_of_session.
Proof.
  apply (other_events_write_nothing env_store_down
           (mkInput "PlaybackNearlyFinished" "u1" (Some "T1") (JStr "tr1") (JNum 0) JUndefined
                    false)
           (playing_world 1 "tr1")); try (intros [=]); reflexivity.
Defined.

(** X20 ([PlaybackFailed] without an error object).  When the request of a
    [PlaybackFailed] event has no [error] ([undefined] or [null]),
    [handle] is rejected before the [try] block of the case: no error
    snapshot is written, and the tables and the session attributes are as
    before.  The error is the [TypeError] of reading [error.type] when a
    state was read from the store or the request carries a session. *)
Theorem failed_event_without_error_object :
  forall (E : Env) (handlerInput : HandlerInput) (w : World),
    audioPlayerEventName handlerInput = "PlaybackFailed" ->
    in_error handlerInput = JUndefined \/ in_error handlerInput = JNull ->
    (exists error, fst (handle E handlerInput w) = Throw error) /\
    same_state w (snd (handle E handlerInput w)) /\
    (in_session handlerInput = true \/
     truthy (stored_state E (in_userId handlerInput) w) = true ->
     exists message, fst (handle E handlerInput w) = Throw (TypeErr message)).
Proof.
  intros E handlerInput w Hname Herr.
  assert (Hpast : in_session handlerInput = true \/
                  truthy (stored_state E (in_userId handlerInput) w) = true ->
                  exists message,
                    handle E handlerInput w
                    = (Throw (TypeErr message),
                       snd (getLatestPlaybackState E (in_userId handlerInput) w))).
  { intros Hcase. now apply handle_failed_without_error. }
  split; [|split].
  - destruct (in_session handlerInput) eqn:Hs.
    + destruct (Hpast (or_introl eq_refl)) as (message & ->). now eexists.
    + destruct (truthy (stored_state E (in_userId handlerInput) w)) eqn:Ht.
      * destruct (Hpast (or_intror eq_refl)) as (message & ->). now eexists.
      * rewrite (handle_without_state_or_session E handlerInput w Hs Ht). now eexists.
  - destruct (in_session handlerInput) eqn:Hs.
    + destruct (Hpast (or_introl eq_refl)) as (message & ->). apply read_same_state.
    + destruct (truthy (stored_state E (in_userId handlerInput) w)) eqn:Ht.
      * destruct (Hpast (or_intror eq_refl)) as (message & ->). apply read_same_state.
      * rewrite (handle_without_state_or_session E handlerInput w Hs Ht).
        apply read_same_state.
  - intros Hcase. destruct (Hpast Hcase) as (message & ->). now eexists.
Qed.

Lemma failed_event_without_error_object_witness :
  same_state (playing_world 1 "tr1")
    (snd (handle env_catalog_ok
            (mkInput "PlaybackFailed" "u1" (Some "T1") (JStr "tr1") (JNum 0) JUndefined false)
            (playing_world 1 "tr1"))).
Proof.
  apply (failed_event_without_error_object env_catalog_ok
           (mkInput "PlaybackFailed" "u1" (Some "T1") (JStr "tr1") (JNum 0) JUndefined false)
           (playing_world 1 "tr1")); [reflexivity | now left].
Defined.

(** ** The audio-player handler: where the playlist is read from *)

(** The result of a [try] whose failure is swallowed, followed by a return. *)
Lemma swallow_result {A} (m : M unit) (a : A) w :
  fst ((try_catch m (fun _ => ret tt) ;;; ret a) w) = Ok a.
Proof.
  unfold bind, try_catch, ret. now destruct (m w) as [[[]|e] w'].
Qed.

(** [getPlaylist] on a latest snapshot without a track list: no playlist,
    or one with an empty track list. *)
Lemma getPlaylist_without_tracks E userId w item props :
  latest_item userId (playbackItems w) = Some item ->
  st_state item = SJson (JObj props) ->
  truthy (obj_get "trackList" props) = false ->
  (obj_get "currentIndex" props = JUndefined \/
   exists i, obj_get "currentIndex" props = JNum i /\ 0 <= i) ->
  exists playlist w',
    try_catch (getPlaylist E userId) (fun error => ret None) w = (Ok playlist, w') /\
    (playlist = None \/
     exists n, 0 <= n /\ playlist = Some (mkPlaylist (JArr []) (JNum n))).
Proof.
  intros Hlatest Hstate Htracks Hindex.
  unfold try_catch, getPlaylist, getLatestPlaybackState, playback_query_latest.
  unfold bind at 1. unfold bind at 1. unfold bind at 1. unfold sdk.
  destruct (dbFault E (dbCalls w)) as [fault|].
  { eexists _, _. split; [reflexivity | now left]. }
  unfold gets. rewrite playbackItems_set_dbCalls, Hlatest, Hstate.
  unfold ret at 1. change (truthy (JObj props)) with true. change (negb true) with false.
  cbv beta iota. unfold bind, lift, ret. rewrite !get_prop_obj.
  destruct (strict_eq (obj_get "type" props) (JStr "playlist")); cbv beta iota.
  2: { eexists _, _. split; [reflexivity | now left]. }
  eexists _, _. split; [reflexivity | right].
  unfold or_else at 1. rewrite Htracks.
  destruct Hindex as [-> | (i & -> & Hi)].
  - exists 0. split; [lia | reflexivity].
  - exists i. rewrite or_else_index. split; [exact Hi | reflexivity].
Qed.

(** A [PlaybackFinished] event on a latest snapshot without a track list,
    once past the fallback. *)
Lemma finished_without_tracks E userId accessToken token offset err hasSession w item props :
  latest_item userId (playbackItems w) = Some item ->
  st_state item = SJson (JObj props) ->
  truthy (obj_get "trackList" props) = false ->
  (obj_get "currentIndex" props = JUndefined \/
   exists i, obj_get "currentIndex" props = JNum i /\ 0 <= i) ->
  hasSession = true \/ truthy (stored_state E userId w) = true ->
  fst (handle E (mkInput "PlaybackFinished" userId accessToken token offset err hasSession) w)
  = Ok EmptyResponse.
Proof.
  intros Hlatest Hstate Htracks Hindex Hcase.
  destruct (read_same_state E userId w) as (Hitems & _).
  destruct (getPlaylist_without_tracks E userId (snd (getLatestPlaybackState E userId w))
              item props) as (playlist & w2 & Hpl & Hcases);
    [now rewrite Hitems | exact Hstate | exact Htracks | exact Hindex |].
  destruct (fallback_answers
              (mkInput "PlaybackFinished" userId accessToken token offset err hasSession)
              (stored_state E userId w) (snd (getLatestPlaybackState E userId w)) Hcase)
    as (playbackState & Hfall).
  unfold handle. cbn [in_userId in_accessToken in_token audioPlayerEventName]. cbv zeta.
  unfold bind at 1. rewrite handle_read.
  unfold bind at 1. rewrite fallback_on_session, Hfall.
  change (String.eqb "PlaybackFinished" "PlaybackStarted") with false.
  change (String.eqb "PlaybackFinished" "PlaybackFinished") with true.
  cbv iota.
  unfold bind at 1. rewrite Hpl.
  destruct Hcases as [-> | (n & Hn & ->)].
  - apply swallow_result.
  - cbn [trackList currentIndex]. rewrite last_index_array.
    change (truthy (JArr [])) with true. cbn [andb less_than to_number List.length Z.of_nat].
    replace (n <? 0 - 1) with false by (symmetry; lia).
    apply swallow_result.
Qed.



(** X21 (the playlist is read from the latest snapshot only).  When the
    user's latest snapshot has no track list (none, or a falsy one) and
    its index is absent or a non-negative number, a [PlaybackFinished]
    event is never answered with a play directive, whatever the request
    carries, whatever older snapshots hold and whatever the store and the
    catalog layer do.  The answer is the empty response when the request
    carries a session or the store accepts the first read; otherwise
    [handle] is rejected at the fallback on the session. *)
Theorem finished_without_track_list_plays_nothing :
  forall (E : Env) (userId : string) (accessToken : option string)
         (token offset err : JsValue) (hasSession : bool) (w : World) (item : StateItem)
         (props : list (string * JsValue)),
    latest_item userId (playbackItems w) = Some item ->
    st_state item = SJson (JObj props) ->
    truthy (obj_get "trackList" props) = false ->
    (obj_get "currentIndex" props = JUndefined \/
     exists i, obj_get "currentIndex" props = JNum i /\ 0 <= i) ->
    let run :=
      handle E (mkInput "PlaybackFinished" userId accessToken token offset err hasSession) w in
    (hasSession = true \/ dbFault E (dbCalls w) = None -> fst run = Ok EmptyResponse) /\
    (forall playBehavior url token' offsetInMilliseconds metadata,
        fst run <> Ok (PlayDirective playBehavior url token' offsetInMilliseconds metadata)).
Proof.
  intros E userId accessToken token offset err hasSession w item props
         Hlatest Hstate Htracks Hindex run.
  assert (Hpast : hasSession = true \/ truthy (stored_state E userId w) = true ->
                  fst run = Ok EmptyResponse).
  { apply (finished_without_tracks E userId accessToken token offset err hasSession w item
             props Hlatest Hstate Htracks Hindex). }
  split.
  - intros [Hs|Hfault]; [apply Hpast; now left|].
    apply Hpast. right.
    now rewrite (stored_state_accepted E userId w item (JObj props) Hfault Hlatest Hstate).
  - intros playBehavior url token' offsetInMilliseconds metadata.
    destruct hasSession eqn:Hs.
    + rewrite Hpast by now left. discriminate.
    + destruct (truthy (stored_state E userId w)) eqn:Ht.
      * rewrite Hpast by now right. discriminate.
      * unfold run.
        rewrite (handle_without_state_or_session E
                   (mkInput "PlaybackFinished" userId accessToken token offset err false) w
                   eq_refl Ht).
        discriminate.
Qed.


Lemma finished_without_track_list_plays_nothing_witness :
  fst (handle env_store_down (finished (JStr "tr9") (Some "T1")) single_track_world)
  = Ok EmptyResponse.
Proof.
  apply (finished_without_track_list_plays_nothing env_store_down "u1" (Some "T1")
           (JStr "tr9") JUndefined JUndefined true single_track_world
           (mkStateItem "u1" 1699999999000
              (SJson (JObj [("type", JStr "track"); ("trackId", JStr "tr9");
                            ("token", JStr "tr9"); ("offsetInMilliseconds", JNum 0)]))
              1700086399 1699999999000)
           [("type", JStr "track"); ("trackId", JStr "tr9");
            ("token", JStr "tr9"); ("offsetInMilliseconds", JNum 0)]).
  - reflexivity.
  - reflexivity.
  - reflexivity.
  - now left.
  - now left.
Defined.


(** ** The cache: values fetched once *)

Lemma strict_eq_undefined v : v <> JUndefined -> strict_eq v JUndefined = false.
Proof. destruct v; try reflexivity. contradiction. Qed.

Lemma strict_eq_null v : v <> JNull -> strict_eq v JNull = false.
Proof. destruct v; try reflexivity. contradiction. Qed.

Lemma cache_set_cache c w : cache (set_cache c w) = c.
Proof. now destruct_world w. Qed.

Lemma cache_set_clockReads n w : cache (set_clockReads n w) = cache w.
Proof. now destruct_world w. Qed.

Lemma clockReads_set_cache c w : clockReads (set_cache c w) = clockReads w.
Proof. now destruct_world w. Qed.

Lemma clockReads_set_clockReads n w : clockReads (set_clockReads n w) = n.
Proof. now destruct_world w. Qed.

Section GetOrSet.
Context (E : Env).
Import Cache.

(** A read of a key the namespace does not hold: a miss, no clock reading. *)
Lemma cacheService_get_miss ns key w :
  enabled (cache w) = true ->
  map_get key (namespace (cache w) ns) = None ->
  exists w',
    cacheService_get E ns key w = (Ok JUndefined, w') /\
    enabled (cache w') = true /\
    map_get key (namespace (cache w') ns) = None.
Proof.
  intros Hen Hget. unfold cacheService_get, get. rewrite Hen, Hget. cbn [negb].
  destruct (CacheFacts.getCache_spec (cache w) ns) as (Hm & Hns & Hst & Hen1 & Hmx).
  destruct (_getCache (cache w) ns) as [m c1]. cbn [fst snd] in *. subst m. rewrite Hget.
  eexists. split; [reflexivity|].
  rewrite cache_set_cache. split.
  - cbn. now rewrite Hen1.
  - change (map_get key (namespace c1 ns) = None). now rewrite Hns.
Qed.

(** A read of an entry that has not expired: its value. *)
Lemma cacheService_get_hit ns key w entry :
  enabled (cache w) = true ->
  map_get key (namespace (cache w) ns) = Some entry ->
  clock E (clockReads w) <= expiresAt entry ->
  exists w', cacheService_get E ns key w = (Ok (value entry), w').
Proof.
  intros Hen Hget Hfresh. unfold cacheService_get, get. rewrite Hen, Hget. cbn [negb].
  destruct (CacheFacts.getCache_spec (cache w) ns) as (Hm & _).
  destruct (_getCache (cache w) ns) as [m c1]. cbn [fst] in Hm. subst m. rewrite Hget.
  unfold isExpired.
  replace (clock E (clockReads w) >? expiresAt entry) with false by (symmetry; lia).
  eexists. reflexivity.
Qed.

(** A write: the entry is under its key afterwards. *)
Lemma cacheService_set_stores ns key v ttl w :
  enabled (cache w) = true ->
  exists t1 t2 w',
    cacheService_set E ns key v ttl w = (Ok v, w') /\
    enabled (cache w') = true /\
    map_get key (namespace (cache w') ns)
    = Some (newCacheEntry v (match ttl with Some t => t | None => defaultTTL (cache w) end)
                          t1 t2).
Proof.
  intros Hen. unfold cacheService_set. rewrite Hen. cbn [negb].
  match goal with
  | |- context [set (cache w) ns key v ttl ?a ?b] =>
      pose proof (CacheFacts.set_stores (cache w) ns key v ttl a b Hen) as Hstored;
      pose proof (CacheFacts.set_enabled (cache w) ns key v ttl a b) as Hen';
      assert (Hfst : fst (set (cache w) ns key v ttl a b) = v);
      [ unfold set; rewrite Hen; cbn [negb];
        destruct (_getCache (cache w) ns); reflexivity |];
      destruct (set (cache w) ns key v ttl a b) as [v' c'] eqn:Hset;
      exists a, b
  end.
  cbn [fst snd] in *. subst v'. eexists. split; [reflexivity|].
  rewrite cache_set_cache. split; [congruence | exact Hstored].
Qed.

(** X23 (a fetched value is fetched once).  With the cache enabled, when
    [getOrSet] misses and the fetch yields a value other than [undefined]
    and [null], the value is returned and stored under the key.  In every
    later state in which the cache still holds an entry with that value
    under the key (it has not been evicted from a full namespace, deleted
    or cleared) and the entry has not expired, [getOrSet] answers with the
    stored value and does not run its fetch function: the outcome is the
    same for every fetch function, also one that would fail. *)
Theorem getOrSet_fetches_once :
  forall (ns key : string) (fetchFn : M JsValue) (v : JsValue) (ttl : option Z) (w : World),
    enabled (cache w) = true ->
    map_get key (namespace (cache w) ns) = None ->
    (forall w0, fst (fetchFn w0) = Ok v /\ cache (snd (fetchFn w0)) = cache w0) ->
    v <> JUndefined -> v <> JNull ->
    let w1 := snd (cacheService_getOrSet E ns key fetchFn ttl w) in
    fst (cacheService_getOrSet E ns key fetchFn ttl w) = Ok v /\
    (enabled (cache w1) = true /\
     exists entry,
       map_get key (namespace (cache w1) ns) = Some entry /\ value entry = v) /\
    (forall (w' : World) (entry : CacheEntry),
        enabled (cache w') = true ->
        map_get key (namespace (cache w') ns) = Some entry ->
        value entry = v ->
        clock E (clockReads w') <= expiresAt entry ->
        exists w2, forall (fetchFn' : M JsValue) (ttl' : option Z),
          cacheService_getOrSet E ns key fetchFn' ttl' w' = (Ok v, w2)).
Proof.
  intros ns key fetchFn v ttl w Hen Hmiss Hfetch Hu Hn w1.
  destruct (cacheService_get_miss ns key w Hen Hmiss) as (wa & Hget & Hena & _).
  destruct (Hfetch wa) as [Hv Hcache].
  destruct (fetchFn wa) as [r wb] eqn:Hrun. cbn [fst snd] in Hv, Hcache. subst r.
  destruct (cacheService_set_stores ns key v ttl wb) as (t1 & t2 & wc & Hset & Henc & Hstored);
    [now rewrite Hcache|].
  assert (Hfirst : cacheService_getOrSet E ns key fetchFn ttl w = (Ok v, wc)).
  { unfold cacheService_getOrSet. unfold bind at 1, gets at 1. rewrite Hen. cbn [negb].
    unfold bind at 1. rewrite Hget.
    change (strict_eq JUndefined JUndefined) with true. cbn [negb].
    unfold bind at 1. rewrite Hrun.
    rewrite (strict_eq_undefined v Hu), (strict_eq_null v Hn). cbn [negb andb].
    unfold bind, ret. now rewrite Hset. }
  unfold w1. rewrite Hfirst. cbn [fst snd]. split; [reflexivity|]. split.
  - split; [exact Henc|]. eexists. split; [exact Hstored | reflexivity].
  - intros w' entry Hen' Hentry Hvalue Hfresh.
    destruct (cacheService_get_hit ns key w' entry Hen' Hentry Hfresh) as (w2 & Hhit).
    exists w2. intros fetchFn' ttl'.
    unfold cacheService_getOrSet. unfold bind at 1, gets at 1. rewrite Hen'. cbn [negb].
    unfold bind at 1. rewrite Hhit, Hvalue.
    now rewrite (strict_eq_undefined v Hu).
Qed.

(** X24 (no value, nothing cached).  With the cache enabled, when
    [getOrSet] misses and the fetch yields [undefined] or [null], that
    result is returned and nothing is stored under the key: the next
    [getOrSet] of the key runs its fetch function again. *)
Theorem getOrSet_does_not_store_null :
  forall (ns key : string) (fetchFn : M JsValue) (v : JsValue) (ttl : option Z) (w : World),
    enabled (cache w) = true ->
    map_get key (namespace (cache w) ns) = None ->
    (forall w0, fst (fetchFn w0) = Ok v /\ cache (snd (fetchFn w0)) = cache w0) ->
    v = JUndefined \/ v = JNull ->
    let w1 := snd (cacheService_getOrSet E ns key fetchFn ttl w) in
    fst (cacheService_getOrSet E ns key fetchFn ttl w) = Ok v /\
    map_get key (namespace (cache w1) ns) = None /\
    forall (fetchFn' : M JsValue) (ttl' : option Z) (e : JsError),
      (forall w0, fst (fetchFn' w0) = Throw e) ->
      fst (cacheService_getOrSet E ns key fetchFn' ttl' w1) = Throw e.
Proof.
  intros ns key fetchFn v ttl w Hen Hmiss Hfetch Hv w1.
  destruct (cacheService_get_miss ns key w Hen Hmiss) as (wa & Hget & Hena & Hmissa).
  destruct (Hfetch wa) as [Hok Hcache].
  destruct (fetchFn wa) as [r wb] eqn:Hrun. cbn [fst snd] in Hok, Hcache. subst r.
  assert (Hfirst : cacheService_getOrSet E ns key fetchFn ttl w = (Ok v, wb)).
  { unfold cacheService_getOrSet. unfold bind at 1, gets at 1. rewrite Hen. cbn [negb].
    unfold bind at 1. rewrite Hget.
    change (strict_eq JUndefined JUndefined) with true. cbn [negb].
    unfold bind at 1. rewrite Hrun.
    destruct Hv as [-> | ->]; reflexivity. }
  unfold w1. rewrite Hfirst. cbn [fst snd]. split; [reflexivity|].
  split; [now rewrite Hcache|].
  intros fetchFn' ttl' e Hthrow.
  destruct (cacheService_get_miss ns key wb) as (wd & Hget' & _); [congruence.. |].
  unfold cacheService_getOrSet. unfold bind at 1, gets at 1.
  replace (enabled (cache wb)) with true by congruence. cbn [negb].
  unfold bind at 1. rewrite Hget'.
  change (strict_eq JUndefined JUndefined) with true. cbn [negb].
  unfold bind at 1. specialize (Hthrow wd).
  destruct (fetchFn' wd) as [r wx]. cbn [fst] in *. now subst r.
Qed.
End GetOrSet.

Lemma getOrSet_fetches_once_witness :
  fst (cacheService_getOrSet env_catalog_ok "tidal" "userInfo:T1" (ret (JStr "profile")) None
         empty_world)
  = Ok (JStr "profile").
Proof.
  apply (getOrSet_fetches_once env_catalog_ok "tidal" "userInfo:T1" (ret (JStr "profile"))
           (JStr "profile") None empty_world).
  - reflexivity.
  - reflexivity.
  - intros w0. split; reflexivity.
  - discriminate.
  - discriminate.
Defined.

Lemma getOrSet_does_not_store_null_witness :
  fst (cacheService_getOrSet env_catalog_ok "tidal" "userInfo:T1" (ret JNull) None empty_world)
  = Ok JNull.
Proof.
  apply (getOrSet_does_not_store_null env_catalog_ok "tidal" "userInfo:T1" (ret JNull)
           JNull None empty_world).
  - reflexivity.
  - reflexivity.
  - intros w0. split; reflexivity.
  - now right.
Defined.

(** ** The cache: clearing *)

Module CacheClearing.
Import Cache.

(** What [get] answers depends on the switch and on the namespace's map. *)
Lemma get_answer c ns key now now' :
  fst (get c ns key now now')
  = if negb (enabled c) then JUndefined
    else match map_get key (namespace c ns) with
         | None => JUndefined
         | Some entry => if isExpired entry now then JUndefined else value entry
         end.
Proof.
  unfold get. destruct (negb (enabled c)); [reflexivity|].
  destruct (CacheFacts.getCache_spec c ns) as (Hm & _).
  destruct (_getCache c ns) as [m c1]. cbn [fst] in Hm. subst m.
  destruct (map_get key (namespace c ns)) as [entry|]; [|reflexivity].
  now destruct (isExpired entry now).
Qed.

Lemma clear_enabled c ns : enabled (clear c ns) = enabled c.
Proof.
  unfold clear. destruct (enabled c) eqn:Hen; cbn [negb]; [|exact Hen].
  destruct ns as [n|]; [|exact Hen].
  destruct (truthy_string n); [|exact Hen].
  destruct (CacheFacts.getCache_spec c n) as (_ & _ & _ & Hen1 & _).
  destruct (_getCache c n) as [m c1]. cbn [snd] in Hen1. cbn. congruence.
Qed.

Lemma clear_namespace c n ns' :
  enabled c = true -> n <> "" ->
  namespace (clear c (Some n)) ns' = if String.eqb ns' n then [] else namespace c ns'.
Proof.
  intros Hen Hn. unfold clear. rewrite Hen. cbn [negb].
  unfold truthy_string. apply String.eqb_neq in Hn. rewrite Hn. cbn [negb].
  destruct (CacheFacts.getCache_spec c n) as (_ & Hns & _).
  destruct (_getCache c n) as [m c1]. cbn [snd] in Hns.
  destruct (String.eqb_spec ns' n) as [->|Hne].
  - apply CacheFacts.namespace_put.
  - rewrite CacheFacts.namespace_put_other by congruence. apply Hns.
Qed.
End CacheClearing.

(** X25 ([clear] of one namespace).  With the cache enabled, after
    [clear(namespace)] with a non-empty name every [get] in that namespace
    misses, while a [get] in any other namespace answers as before; the
    statistics are not reset.  With no name, or with the empty string as
    name, every namespace is dropped, the ones with a non-empty name
    included. *)
Theorem clear_empties_one_namespace_or_all :
  forall (c : Cache.CacheService) (ns : string),
    Cache.enabled c = true ->
    (ns <> "" ->
     (forall key now now', fst (Cache.get (Cache.clear c (Some ns)) ns key now now') = JUndefined) /\
     (forall ns' key now now',
         ns' <> ns ->
         fst (Cache.get (Cache.clear c (Some ns)) ns' key now now')
         = fst (Cache.get c ns' key now now')) /\
     Cache.stats (Cache.clear c (Some ns)) = Cache.stats c) /\
    Cache.size (Cache.clear c None) = 0 /\
    Cache.size (Cache.clear c (Some "")) = 0 /\
    (forall ns' key now now', fst (Cache.get (Cache.clear c (Some "")) ns' key now now') = JUndefined).
Proof.
  intros c ns Hen. split; [intros Hns; split; [|split] | split; [|split]].
  - intros key now now'. rewrite CacheClearing.get_answer, CacheClearing.clear_enabled, Hen.
    cbn [negb]. rewrite (CacheClearing.clear_namespace c ns ns Hen Hns), String.eqb_refl.
    reflexivity.
  - intros ns' key now now' Hne.
    rewrite !CacheClearing.get_answer, CacheClearing.clear_enabled.
    rewrite (CacheClearing.clear_namespace c ns ns' Hen Hns).
    apply String.eqb_neq in Hne. now rewrite Hne.
  - unfold Cache.clear. rewrite Hen. cbn [negb].
    unfold truthy_string. apply String.eqb_neq in Hns. rewrite Hns. cbn [negb].
    destruct (CacheFacts.getCache_spec c ns) as (_ & _ & Hst & _).
    destruct (Cache._getCache c ns) as [m c1]. exact Hst.
  - unfold Cache.clear. rewrite Hen. reflexivity.
  - unfold Cache.clear. rewrite Hen. reflexivity.
  - intros ns' key now now'. rewrite CacheClearing.get_answer.
    unfold Cache.clear. rewrite Hen. cbn. now rewrite Hen.
Qed.

Lemma clear_empties_one_namespace_or_all_witness :
  Cache.size (Cache.clear warm_cache (Some "")) = 0.
Proof.
  apply (clear_empties_one_namespace_or_all warm_cache "tidal"). reflexivity.
Defined.

(** ** The store layer: errors *)

(** X26 (store errors are wrapped once).  [_handleError] always answers
    with a custom error whose status code is 400, 404, 429 or 500 unless
    the error it is given is custom already, and handling an error that
    has been handled returns it unchanged, whatever the table: an error
    that crosses several store calls is not wrapped again. *)
Theorem handleError_wraps_once :
  forall (tableName tableName' : string) (error : JsError),
    _handleError tableName' (_handleError tableName error) = _handleError tableName error /\
    match error with
    | CustomErr _ _ _ => _handleError tableName error = error
    | _ =>
        exists message statusCode,
          _handleError tableName error = CustomErr message statusCode error /\
          In statusCode [400; 404; 429; 500]
    end.
Proof.
  intros tableName tableName' error. split.
  - destruct error; try reflexivity. simpl.
    repeat match goal with |- context [if ?b then _ else _] => destruct b end; reflexivity.
  - destruct error; try reflexivity; simpl;
      repeat match goal with |- context [if ?b then _ else _] => destruct b end;
      eexists _, _; (split; [reflexivity | simpl; tauto]).
Qed.

(** ** The store layer: batches *)

Section Batches.
Context {A : Type}.
Implicit Types (items : list A) (i rounds : nat).

Lemma slice_25 i items : slice i (i + 25) items = firstn 25 (skipn i items).
Proof. unfold slice. now replace (i + 25 - i)%nat with 25%nat by lia. Qed.

Lemma skipn_add i j items : skipn (i + j) items = skipn j (skipn i items).
Proof.
  revert items. induction i as [|i IH]; intros items; [reflexivity|].
  destruct items as [|x items]; simpl; [now destruct j | apply IH].
Qed.

Lemma batches_from_concat rounds : forall i items,
  (List.length items - i <= rounds)%nat ->
  concat (batches_from rounds i items) = skipn i items.
Proof.
  induction rounds as [|rounds IH]; intros i items Hrounds; simpl.
  - symmetry. apply skipn_all2. lia.
  - destruct (Nat.ltb_spec i (List.length items)) as [Hlt|Hge].
    + simpl. rewrite IH by lia. rewrite slice_25, skipn_add. apply firstn_skipn.
    + symmetry. apply skipn_all2. lia.
Qed.

Lemma batches_from_sizes rounds : forall i items,
  Forall (fun batch => (1 <= List.length batch <= 25)%nat) (batches_from rounds i items).
Proof.
  induction rounds as [|rounds IH]; intros i items; simpl; [constructor|].
  destruct (Nat.ltb_spec i (List.length items)) as [Hlt|Hge]; [|constructor].
  constructor; [|apply IH].
  rewrite slice_25, length_firstn, length_skipn. lia.
Qed.

Lemma batches_from_count rounds : forall i items,
  (List.length items - i <= rounds)%nat ->
  List.length (batches_from rounds i items) = ((List.length items - i + 24) / 25)%nat.
Proof.
  induction rounds as [|rounds IH]; intros i items Hrounds; cbn [batches_from].
  - replace (List.length items - i)%nat with 0%nat by lia. reflexivity.
  - destruct (Nat.ltb_spec i (List.length items)) as [Hlt|Hge].
    + cbn [List.length]. rewrite IH by lia.
      destruct (Nat.le_gt_cases (List.length items - i) 25) as [Hsmall|Hlarge].
      * replace (List.length items - (i + 25))%nat with 0%nat by lia.
        change ((0 + 24) / 25)%nat with 0%nat.
        apply Nat.div_unique with (r := (List.length items - i + 24 - 25)%nat); lia.
      * replace (List.length items - i + 24)%nat
          with ((List.length items - (i + 25) + 24) + 1 * 25)%nat by lia.
        rewrite Nat.div_add by lia. lia.
    + replace (List.length items - i)%nat with 0%nat by lia. reflexivity.
Qed.
End Batches.

Lemma send_batches_calm E tableName requests w :
  (forall k, dbFault E k = None) ->
  send_batches E tableName requests w
  = (Ok tt, set_dbCalls (dbCalls w + List.length requests) w).
Proof.
  intros Hcalm. revert w. induction requests as [|r requests IH]; intros w; simpl.
  - unfold ret. f_equal. rewrite Nat.add_0_r. now destruct_world w.
  - unfold bind, sdk. rewrite Hcalm. rewrite IH. f_equal.
    replace (dbCalls w + S (List.length requests))%nat
      with (S (dbCalls w) + List.length requests)%nat by lia.
    now destruct_world w.
Qed.

(** X27 ([batchWrite] sends every item once).  The requests of
    [batchWrite(items, operation)] are the items in their order, each
    sent once, in batches of at least 1 and at most 25 requests; there are
    [ceil(items.length / 25)] batches (none for no items).  Every request
    is a delete when [operation] is ['delete'] and a put for any other
    operation name or none.  When the store accepts every call, one call
    is made per batch and the answer counts the batches. *)
Theorem batchWrite_sends_every_item_once :
  forall (E : Env) (tableName : string) (items : list JsValue) (operation : option string)
         (w : World),
    let requests := request_batches items operation in
    concat requests
    = List.map (if match operation with Some o => String.eqb o "delete" | None => false end
                then DeleteRequest else PutRequest) items /\
    Forall (fun batch => (1 <= List.length batch <= 25)%nat) requests /\
    List.length requests = ((List.length items + 24) / 25)%nat /\
    ((forall k, dbFault E k = None) ->
     fst (batchWrite E tableName items operation w) = Ok (List.length requests) /\
     dbCalls (snd (batchWrite E tableName items operation w))
     = (dbCalls w + List.length requests)%nat).
Proof.
  intros E tableName items operation w requests. unfold requests, request_batches.
  split; [|split; [|split]].
  - rewrite <- concat_map. unfold batches.
    rewrite batches_from_concat by lia. simpl skipn.
    apply map_ext. intros item. unfold write_request.
    destruct operation as [o|]; [|reflexivity]. now destruct (String.eqb o "delete").
  - apply Forall_map. eapply Forall_impl; [|apply batches_from_sizes].
    intros batch Hb. now rewrite length_map.
  - rewrite length_map. unfold batches. rewrite batches_from_count by lia.
    now rewrite Nat.sub_0_r.
  - intros Hcalm. unfold batchWrite, bind. rewrite (send_batches_calm E tableName _ w Hcalm).
    unfold ret, request_batches. cbn [fst snd]. split; [reflexivity|].
    now destruct_world w.
Qed.

(** ** The logger: sensitive data *)

(** Induction on values, through arrays and objects. *)
Lemma JsValue_deep_ind (P : JsValue -> Prop) :
  P JUndefined -> P JNull -> (forall b, P (JBool b)) -> (forall n, P (JNum n)) ->
  P JNaN -> (forall s, P (JStr s)) ->
  (forall items, Forall P items -> P (JArr items)) ->
  (forall props, Forall (fun kv => P (snd kv)) props -> P (JObj props)) ->
  forall v, P v.
Proof.
  intros Hundefined Hnull Hbool Hnum Hnan Hstr Harr Hobj.
  fix IH 1. intros [| |b|n| |s|items|props];
    [exact Hundefined | exact Hnull | apply Hbool | apply Hnum | exact Hnan | apply Hstr | | ].
  - apply Harr. induction items as [|x items IHitems]; constructor; [apply IH | exact IHitems].
  - apply Hobj. induction props as [|[k x] props IHprops]; constructor;
      [apply IH | exact IHprops].
Qed.

Lemma sanitizeData_string s :
  sanitizeData false (JStr s)
  = if looks_like_token s then JStr "[ACCESS_TOKEN_REDACTED]" else JStr s.
Proof.
  cbn [sanitizeData truthy]. destruct (String.eqb_spec s "") as [->|Hne]; reflexivity.
Qed.

Lemma sanitizeData_redacted v : redacted (sanitizeData false v) = true.
Proof.
  induction v using JsValue_deep_ind; try reflexivity.
  - rewrite sanitizeData_string. destruct (looks_like_token s) eqn:Hs; [reflexivity|].
    cbn [redacted]. now rewrite Hs.
  - cbn [sanitizeData redacted]. rewrite forallb_forall. intros x Hin.
    apply in_map_iff in Hin. destruct Hin as (y & <- & Hy).
    rewrite Forall_forall in H. now apply H.
  - cbn [sanitizeData redacted]. rewrite forallb_forall. intros x Hin.
    apply in_map_iff in Hin. destruct Hin as (kv & <- & Hkv).
    rewrite Forall_forall in H. specialize (H kv Hkv).
    destruct (is_sensitive (fst kv)) eqn:Hk; cbn [fst snd]; rewrite Hk; [reflexivity | exact H].
Qed.

Lemma sanitizeData_fixed v : redacted v = true -> sanitizeData false v = v.
Proof.
  induction v using JsValue_deep_ind; try reflexivity.
  - cbn [redacted]. intros Hs. rewrite sanitizeData_string.
    now destruct (looks_like_token s).
  - cbn [redacted sanitizeData]. rewrite forallb_forall. intros Hall. f_equal.
    rewrite <- (map_id items) at 2. apply map_ext_in. intros x Hin.
    rewrite Forall_forall in H. now apply H; [|apply Hall].
  - cbn [redacted sanitizeData]. rewrite forallb_forall. intros Hall. f_equal.
    rewrite <- (map_id props) at 2. apply map_ext_in. intros [k x] Hin.
    rewrite Forall_forall in H. specialize (H (k, x) Hin). specialize (Hall (k, x) Hin).
    cbn [fst snd] in *. destruct (is_sensitive k).
    + destruct x; try discriminate. cbn [strict_eq] in Hall.
      apply String.eqb_eq in Hall. now subst.
    + now rewrite H.
Qed.

(** X28 (what the logger lets through).  Unless the configuration asks
    for sensitive data, the value [sanitizeData] returns has, at any
    depth, no property named [accessToken], [refreshToken], [password],
    [token], [secret], [credential] or [clientSecret] with a value other
    than ['[REDACTED]'], and no string of more than 100 characters that
    contains ['eyJ']. *)
Theorem sanitizeData_redacts_at_any_depth :
  forall obj : JsValue, redacted (sanitizeData false obj) = true.
Proof. exact sanitizeData_redacted. Qed.

(** X29 (sanitizing is a projection).  Sanitizing a sanitized value
    changes nothing, and [sanitizeData] returns a value unchanged exactly
    when there is nothing to redact in it. *)
Theorem sanitizeData_is_idempotent :
  forall (includeSensitive : bool) (obj : JsValue),
    sanitizeData includeSensitive (sanitizeData includeSensitive obj)
    = sanitizeData includeSensitive obj /\
    (sanitizeData false obj = obj <-> redacted obj = true).
Proof.
  intros includeSensitive obj. split.
  - destruct includeSensitive; [destruct obj; reflexivity|].
    apply sanitizeData_fixed, sanitizeData_redacted.
  - split; [|apply sanitizeData_fixed].
    intros Heq. rewrite <- Heq. apply sanitizeData_redacted.
Qed.

(** ** The cache: the periodic sweep *)

Section Sweep.
Variable clock : nat -> Z.
Hypothesis Hmono : forall a b, (a <= b)%nat -> clock a <= clock b.
Implicit Types (m : JsMap Cache.CacheEntry) (caches : JsMap (JsMap Cache.CacheEntry)).

(** A collected key belongs to an entry found expired at its test. *)
Lemma toDelete_in m : forall k key,
  In key (toDelete clock k m) ->
  exists e i, In (key, e) m /\ (k <= i < k + List.length m)%nat /\
              Cache.isExpired e (clock i) = true.
Proof.
  induction m as [|[key0 e0] m IH]; intros k key; simpl; [intros []|].
  destruct (Cache.isExpired e0 (clock k)) eqn:Hexp.
  - intros [<-|Hin].
    + exists e0, k. repeat split; [now left | lia | lia | exact Hexp].
    + destruct (IH (S k) key Hin) as (e & i & Hin' & Hi & He).
      exists e, i. repeat split; [now right | lia | lia | exact He].
  - intros Hin. destruct (IH (S k) key Hin) as (e & i & Hin' & Hi & He).
    exists e, i. repeat split; [now right | lia | lia | exact He].
Qed.

(** An entry that had expired before the first test is collected. *)
Lemma toDelete_stale m : forall k key e,
  In (key, e) m -> Cache.expiresAt e < clock k -> In key (toDelete clock k m).
Proof.
  induction m as [|[key0 e0] m IH]; intros k key e; simpl; [intros []|].
  intros [[= -> ->]|Hin] Hstale.
  - unfold Cache.isExpired. replace (clock k >? Cache.expiresAt e) with true by (symmetry; lia).
    now left.
  - assert (Hnext : In key (toDelete clock (S k) m)).
    { apply (IH (S k) key e Hin). pose proof (Hmono k (S k) ltac:(lia)). lia. }
    destruct (Cache.isExpired e0 (clock k)); [now right | exact Hnext].
Qed.

Lemma delete_keys_get keys : forall m key,
  map_get key (delete_keys keys m)
  = if existsb (String.eqb key) keys then None else map_get key m.
Proof.
  induction keys as [|k0 keys IH]; intros m key; simpl; [reflexivity|].
  unfold delete_keys in *. rewrite IH.
  destruct (String.eqb_spec key k0) as [->|Hne]; simpl.
  - rewrite map_get_delete_same. now destruct (existsb _ keys).
  - rewrite map_get_delete_other by congruence. reflexivity.
Qed.

Lemma map_get_in m key e : map_get key m = Some e -> In (key, e) m.
Proof.
  induction m as [|[k0 e0] m IH]; simpl; [discriminate|].
  destruct (String.eqb_spec key k0) as [->|Hne].
  - intros [= ->]. now left.
  - intros H. right. now apply IH.
Qed.

Lemma in_map_get_unique m key e :
  NoDup (map_keys m) -> In (key, e) m -> map_get key m = Some e.
Proof.
  induction m as [|[k0 e0] m IH]; simpl; [intros _ []|].
  intros Hnd [[= -> ->]|Hin].
  - now rewrite String.eqb_refl.
  - inversion Hnd as [|? ? Hnin Hnd']; subst.
    destruct (String.eqb_spec key k0) as [->|Hne].
    + exfalso. apply Hnin. change (In (fst (k0, e)) (List.map fst m)). now apply in_map.
    + now apply IH.
Qed.

(** A namespace after the sweep: its map without the keys collected at
    the readings of its turn. *)
Lemma cleanup_namespaces_get caches : forall k ns,
  match map_get ns caches with
  | None => map_get ns (fst (cleanup_namespaces clock k caches)) = None
  | Some m =>
      exists k', (k <= k')%nat /\ (k' + List.length m <= k + entry_count caches)%nat /\
                 map_get ns (fst (cleanup_namespaces clock k caches))
                 = Some (delete_keys (toDelete clock k' m) m)
  end.
Proof.
  induction caches as [|[ns0 m0] caches IH]; intros k ns; [reflexivity|].
  cbn [cleanup_namespaces map_get entry_count fold_right snd].
  specialize (IH (k + List.length m0)%nat ns).
  destruct (cleanup_namespaces clock (k + List.length m0) caches) as [rest' removed].
  cbn [fst map_get] in *. fold (entry_count caches).
  destruct (String.eqb ns ns0).
  - exists k. repeat split; lia.
  - destruct (map_get ns caches) as [m|]; [|exact IH].
    destruct IH as (k' & Hk & Hend & Hget). exists k'. repeat split; [lia | lia | exact Hget].
Qed.

Lemma cleanup_namespaces_removed caches : forall k,
  0 <= snd (cleanup_namespaces clock k caches).
Proof.
  induction caches as [|[ns0 m0] caches IH]; intros k; [simpl; lia|].
  cbn [cleanup_namespaces]. specialize (IH (k + List.length m0)%nat).
  destruct (cleanup_namespaces clock (k + List.length m0) caches) as [rest' removed].
  cbn [snd] in *. lia.
Qed.
End Sweep.

(** X30 ([cleanup] removes what has expired, and nothing else).  With
    the cache enabled and a clock that does not run backwards: an entry
    that is still there after [cleanup] was there before, unchanged, and
    had not expired when the sweep began; an entry that had expired when
    the sweep began is gone; an entry that has not expired when the sweep
    ends is kept.  The number returned is not negative and is added to
    the count of expired entries. *)
Theorem cleanup_removes_the_expired_entries :
  forall (E : Env) (w : World),
    Cache.enabled (cache w) = true ->
    monotone E ->
    let w' := snd (cacheService_cleanup E w) in
    (forall ns key e,
        map_get key (Cache.namespace (cache w') ns) = Some e ->
        map_get key (Cache.namespace (cache w) ns) = Some e /\
        clock E (clockReads w) <= Cache.expiresAt e) /\
    (forall ns key e,
        map_get key (Cache.namespace (cache w) ns) = Some e ->
        Cache.expiresAt e < clock E (clockReads w) ->
        map_get key (Cache.namespace (cache w') ns) = None) /\
    (forall ns key e,
        NoDup (map_keys (Cache.namespace (cache w) ns)) ->
        map_get key (Cache.namespace (cache w) ns) = Some e ->
        clock E (clockReads w') <= Cache.expiresAt e ->
        map_get key (Cache.namespace (cache w') ns) = Some e) /\
    exists removed,
      fst (cacheService_cleanup E w) = Ok removed /\ 0 <= removed /\
      Cache.stats_expired (Cache.stats (cache w'))
      = Cache.stats_expired (Cache.stats (cache w)) + removed.
Proof.
  intros E w Hen Hmono w'.
  pose proof (cleanup_namespaces_get (clock E) (Cache.caches (cache w)) (clockReads w)) as Hget.
  pose proof (cleanup_namespaces_removed (clock E) (Cache.caches (cache w)) (clockReads w))
    as Hremoved.
  assert (Hrun : exists c2,
             cacheService_cleanup E w
             = (Ok (snd (cleanup_namespaces (clock E) (clockReads w) (Cache.caches (cache w)))),
                set_cache c2
                  (set_clockReads (clockReads w + entry_count (Cache.caches (cache w))) w)) /\
             Cache.caches c2
             = fst (cleanup_namespaces (clock E) (clockReads w) (Cache.caches (cache w))) /\
             Cache.stats_expired (Cache.stats c2)
             = Cache.stats_expired (Cache.stats (cache w))
               + snd (cleanup_namespaces (clock E) (clockReads w) (Cache.caches (cache w)))).
  { unfold cacheService_cleanup. rewrite Hen. cbn [negb].
    destruct (cleanup_namespaces (clock E) (clockReads w) (Cache.caches (cache w)))
      as [caches' removed]. cbn [fst snd] in *.
    eexists. split; [reflexivity|].
    destruct (Z.gtb_spec removed 0); cbn; split; try reflexivity; lia. }
  destruct Hrun as (c2 & Hrun & Hcaches & Hstats).
  unfold w'. rewrite Hrun. cbn [fst snd]. rewrite cache_set_cache.
  rewrite clockReads_set_cache, clockReads_set_clockReads.
  assert (Hns : forall ns,
             match map_get ns (Cache.caches (cache w)) with
             | None => Cache.namespace c2 ns = []
             | Some m =>
                 exists k', (clockReads w <= k')%nat /\
                   (k' + List.length m
                    <= clockReads w + entry_count (Cache.caches (cache w)))%nat /\
                   Cache.namespace c2 ns = delete_keys (toDelete (clock E) k' m) m
             end).
  { intros ns. specialize (Hget ns). unfold Cache.namespace. rewrite Hcaches.
    destruct (map_get ns (Cache.caches (cache w))) as [m|].
    - destruct Hget as (k' & Hk & Hend & ->). now exists k'.
    - now rewrite Hget. }
  split; [|split; [|split]].
  - intros ns key e Hafter. specialize (Hns ns). unfold Cache.namespace at 1.
    destruct (map_get ns (Cache.caches (cache w))) as [m|].
    + destruct Hns as (k' & Hk & Hend & Heq). rewrite Heq, delete_keys_get in Hafter.
      destruct (existsb (String.eqb key) (toDelete (clock E) k' m)) eqn:Hex; [discriminate|].
      split; [exact Hafter|].
      destruct (Z.le_gt_cases (clock E (clockReads w)) (Cache.expiresAt e)) as [Hle|Hgt];
        [exact Hle|].
      exfalso. assert (Hin : In key (toDelete (clock E) k' m)).
      { apply (toDelete_stale (clock E) Hmono m k' key e); [now apply map_get_in|].
        pose proof (Hmono (clockReads w) k' Hk). lia. }
      assert (existsb (String.eqb key) (toDelete (clock E) k' m) = true) as Hyes.
      { apply existsb_exists. exists key. split; [exact Hin | apply String.eqb_refl]. }
      congruence.
    + rewrite Hns in Hafter. discriminate.
  - intros ns key e Hbefore Hstale. specialize (Hns ns). unfold Cache.namespace in Hbefore.
    destruct (map_get ns (Cache.caches (cache w))) as [m|]; [|discriminate].
    destruct Hns as (k' & Hk & Hend & Heq). rewrite Heq, delete_keys_get.
    replace (existsb (String.eqb key) (toDelete (clock E) k' m)) with true; [reflexivity|].
    symmetry. apply existsb_exists. exists key. split; [|apply String.eqb_refl].
    apply (toDelete_stale (clock E) Hmono m k' key e); [now apply map_get_in|].
    pose proof (Hmono (clockReads w) k' Hk). lia.
  - intros ns key e Hnodup Hbefore Hlive. specialize (Hns ns).
    unfold Cache.namespace in Hbefore, Hnodup.
    destruct (map_get ns (Cache.caches (cache w))) as [m|]; [|discriminate].
    destruct Hns as (k' & Hk & Hend & Heq). rewrite Heq, delete_keys_get.
    destruct (existsb (String.eqb key) (toDelete (clock E) k' m)) eqn:Hex; [|exact Hbefore].
    exfalso. apply existsb_exists in Hex. destruct Hex as (key' & Hin & Hkey).
    apply String.eqb_eq in Hkey. subst key'.
    destruct (toDelete_in (clock E) m k' key Hin) as (e' & i & Hin' & Hi & Hexp).
    rewrite (in_map_get_unique m key e' Hnodup Hin') in Hbefore. injection Hbefore as ->.
    unfold Cache.isExpired in Hexp. apply Z.gtb_lt in Hexp.
    pose proof (Hmono i (clockReads w + entry_count (Cache.caches (cache w)))%nat ltac:(lia)).
    lia.
  - eexists. split; [reflexivity|]. split; [exact Hremoved | exact Hstats].
Qed.

Lemma cleanup_removes_the_expired_entries_witness :
  map_get "userInfo:T1"
    (Cache.namespace
       (cache (snd (cacheService_cleanup env_catalog_ok (set_cache warm_cache empty_world))))
       "tidal")
  = None.
Proof.
  destruct (cleanup_removes_the_expired_entries env_catalog_ok
              (set_cache warm_cache empty_world) eq_refl monotone_catalog_ok)
    as (_ & Hstale & _).
  apply (Hstale "tidal" "userInfo:T1" (Cache.newCacheEntry (JStr "profile") 300 1000 1000)).
  - reflexivity.
  - vm_compute. reflexivity.
Defined.
